(** * LatchOrchestrationPOC: a dynamic workflow orchestrator

    Shallow embedding of [src/constraints.py], [src/workflow.py] and
    [src/orchestrator.py], and the properties of the constraint model, the
    policy checker, the workflow graph, the spawn service and the scheduling
    loop.

    Python objects are modelled as follows.
    - dictionaries keyed by strings or by [(wf_id, task_id)] tuples are
      [gmap]s; the insertion-ordered [Workflow.tasks] dictionary, whose
      iteration order decides the dispatch order, is an association list;
    - a raised exception is an [Exc] outcome; code that mutates its object
      before raising returns the mutated state next to the exception;
    - the two [while] loops of the scheduler take a fuel argument;
    - a task body is a finite program over the calls a body makes on the
      orchestrator handle. *)

From Stdlib Require Import ZArith Lia.
From stdpp Require Import base option strings list gmap relations.

Set Default Proof Using "Type".
Set Warnings "-register-all".

(** ** Python values, exceptions and outcomes *)

(** Inputs and outputs of tasks are untyped Python values. *)
Inductive value : Type :=
  | VNone
  | VBool (b : bool)
  | VInt (n : Z)
  | VStr (s : string)
  | VList (l : list value).

(** Python truthiness, as used by [if p_output:]. *)
Definition truthy (v : value) : bool :=
  match v with
  | VNone => false
  | VBool b => b
  | VInt n => negb (n =? 0)%Z
  | VStr s => negb (String.eqb s "")
  | VList l => match l with [] => false | _ :: _ => true end
  end.

(** The exceptions of the run. [OutOfFuel] is not a Python exception: a
    loop of the model returns it, with the state reached, when its fuel is
    used up, so that the states of an unfinished run are covered too. *)
Inductive exn : Type :=
  | RuntimeError (msg : string)
  | ValueError (msg : string)
  | KeyError (key : string)
  | AttributeError (msg : string)
  | UserError (msg : string)
  | OutOfFuel.

(** [str(e)] *)
Definition str_of_exn (e : exn) : string :=
  match e with
  | RuntimeError m | ValueError m | AttributeError m | UserError m => m
  | KeyError k => k
  | OutOfFuel => ""
  end.

Inductive outcome (A : Type) : Type :=
  | Ok (a : A)
  | Exc (e : exn).
Arguments Ok {A} a.
Arguments Exc {A} e.

(** State-and-exception monad: the state reached is returned also when an
    exception is raised, since Python mutates in place. *)
Definition St (S A : Type) : Type := S → outcome A * S.

Definition ret {S A} (a : A) : St S A := λ s, (Ok a, s).
Definition raise {S A} (e : exn) : St S A := λ s, (Exc e, s).
Definition bind {S A B} (c : St S A) (k : A → St S B) : St S B :=
  λ s, match c s with
       | (Ok a, s') => k a s'
       | (Exc e, s') => (Exc e, s')
       end.
Definition gets {S A} (f : S → A) : St S A := λ s, (Ok (f s), s).
Definition modify {S} (f : S → S) : St S unit := λ s, (Ok tt, f s).
(** Lift a pure computation that may raise. *)
Definition lift {S A} (o : outcome A) : St S A := λ s, (o, s).
(** [try: c except RuntimeError as e: h(e)] *)
Definition try_RuntimeError {S A} (c : St S A) (h : string → St S A) : St S A :=
  λ s, match c s with
       | (Exc (RuntimeError m), s') => h m s'
       | r => r
       end.

Notation "x <- c ;; k" := (bind c (λ x, k))
  (at level 100, c at next level, right associativity).
Notation "c ;;; k" := (bind c (λ _, k))
  (at level 100, right associativity).

Definition obind {A B} (o : outcome A) (k : A → outcome B) : outcome B :=
  match o with Ok a => k a | Exc e => Exc e end.

(** [d[k]] on a dictionary: [KeyError] when the key is missing. *)
Definition getitem {V} (o : option V) (key : string) : outcome V :=
  match o with Some v => Ok v | None => Exc (KeyError key) end.

(** ** constraints.py *)

Record TaskConstraints : Type := mkTaskConstraints {
  max_spawn_count : option Z;
  valid_next_nodes_policy : string;
  valid_next_nodes : list string;
  valid_previous_nodes_policy : string;
  valid_previous_nodes : list string;
  valid_incoming_edges_policy : string;
  valid_incoming_edges : list (string * string);
  valid_outgoing_edges_policy : string;
  valid_outgoing_edges : list (string * string)
}.

Definition valid_policies : list string := ["allow_all"; "allow_none"; "custom"].

Definition valid_policies_repr : string := "['allow_all', 'allow_none', 'custom']".

(** [if l:] on a list *)
Definition nonempty {A} (l : list A) : bool :=
  match l with [] => false | _ :: _ => true end.

Definition validate_policy_values (c : TaskConstraints) : outcome unit :=
  if negb (bool_decide (valid_next_nodes_policy c ∈ valid_policies)) then
    Exc (ValueError ("valid_next_nodes_policy must be one of " +:+ valid_policies_repr))
  else if negb (bool_decide (valid_previous_nodes_policy c ∈ valid_policies)) then
    Exc (ValueError ("valid_previous_nodes_policy must be one of " +:+ valid_policies_repr))
  else if negb (bool_decide (valid_incoming_edges_policy c ∈ valid_policies)) then
    Exc (ValueError ("valid_incoming_edges_policy must be one of " +:+ valid_policies_repr))
  else if negb (bool_decide (valid_outgoing_edges_policy c ∈ valid_policies)) then
    Exc (ValueError ("valid_outgoing_edges_policy must be one of " +:+ valid_policies_repr))
  else Ok tt.

(** One [if ... elif ...] pair of [validate_policy_nodes]. *)
Definition validate_pair {A} (policy : string) (l : list A) (name : string)
    : outcome unit :=
  if String.eqb policy "allow_none" && nonempty l then
    Exc (ValueError ("allow_none " +:+ name +:+ "_policy cannot take a list of " +:+ name))
  else if String.eqb policy "custom" && negb (nonempty l) then
    Exc (ValueError ("custom " +:+ name +:+ "_policy policy requires a list of " +:+ name))
  else Ok tt.

Definition validate_policy_nodes (c : TaskConstraints) : outcome unit :=
  obind (validate_pair (valid_next_nodes_policy c) (valid_next_nodes c) "valid_next_nodes") (λ _,
  obind (validate_pair (valid_previous_nodes_policy c) (valid_previous_nodes c) "valid_previous_nodes") (λ _,
  obind (validate_pair (valid_incoming_edges_policy c) (valid_incoming_edges c) "valid_incoming_edges") (λ _,
  validate_pair (valid_outgoing_edges_policy c) (valid_outgoing_edges c) "valid_outgoing_edges"))).

(** [if self.max_spawn_count and self.max_spawn_count < 0]: the first
    conjunct is the truthiness of an optional integer. *)
Definition validate (c : TaskConstraints) : outcome unit :=
  if match max_spawn_count c with
     | Some n => negb (n =? 0)%Z && (n <? 0)%Z
     | None => false
     end
  then Exc (ValueError "max_spawn_count must be >= 0")
  else obind (validate_policy_values c) (λ _, validate_policy_nodes c).

(** [TaskConstraints.__init__]: store the nine fields, then validate. The
    object exists for the caller only when [validate] returns. *)
Definition TaskConstraints_init
    (max_spawn_count : option Z)
    (valid_next_nodes_policy : string) (valid_next_nodes : list string)
    (valid_previous_nodes_policy : string) (valid_previous_nodes : list string)
    (valid_incoming_edges_policy : string) (valid_incoming_edges : list (string * string))
    (valid_outgoing_edges_policy : string) (valid_outgoing_edges : list (string * string))
    : outcome TaskConstraints :=
  let self := mkTaskConstraints max_spawn_count
                valid_next_nodes_policy valid_next_nodes
                valid_previous_nodes_policy valid_previous_nodes
                valid_incoming_edges_policy valid_incoming_edges
                valid_outgoing_edges_policy valid_outgoing_edges in
  obind (validate self) (λ _, Ok self).

(** [TaskConstraints()] with every default. *)
Definition default_constraints : TaskConstraints :=
  mkTaskConstraints None "allow_all" [] "allow_all" [] "allow_all" [] "allow_all" [].

(** ** workflow.py *)

(** *** Tasks and task bodies *)

(** A task body is the Python callable [func(wf_id, task_id, inputs,
    orchestrator)]. The calls it makes on the orchestrator handle are the
    nodes of a finite program: it may call [spawn_task] and [complete_task],
    for any workflow and task (letting the exception of the call escape, or
    catching it), query a status with [check_task_status], and finally
    return a value or raise. *)
Inductive Task : Type :=
  mkTask (task_id : string)
         (func : string → string → value → prog)
         (constraints : TaskConstraints)
         (metadata : list (string * string))
with prog : Type :=
  | Return (v : value)
  | Raise (e : exn)
  | SpawnTask (wf_id creator_task_id : string) (new_task : Task)
      (new_edges : option (list (string * string))) (input_data : value)
      (skip_visual_edge : bool) (k : prog)
  | TrySpawnTask (wf_id creator_task_id : string) (new_task : Task)
      (new_edges : option (list (string * string))) (input_data : value)
      (skip_visual_edge : bool) (k : prog) (handler : exn → prog)
  | CompleteTask (wf_id task_id : string) (result : value) (k : prog)
  | TryCompleteTask (wf_id task_id : string) (result : value) (k : prog)
      (handler : exn → prog)
  | CheckTaskStatus (wf_id task_id : string) (k : string → value → prog).

Definition task_id (t : Task) : string := let 'mkTask i _ _ _ := t in i.
Definition func (t : Task) : string → string → value → prog :=
  let 'mkTask _ f _ _ := t in f.
Definition constraints (t : Task) : TaskConstraints := let 'mkTask _ _ c _ := t in c.
Definition metadata (t : Task) : list (string * string) := let 'mkTask _ _ _ m := t in m.

(** An argument that the source passes where a [Task] is expected: one call
    site of [check_edge_against_policy] passes a task id instead. *)
Inductive pyarg : Type :=
  | PyTask (t : Task)
  | PyStr (s : string).

(** [x.task_id] *)
Definition attr_task_id (x : pyarg) : outcome string :=
  match x with
  | PyTask t => Ok (task_id t)
  | PyStr _ => Exc (AttributeError "'str' object has no attribute 'task_id'")
  end.

(** *** The policy checker *)

Definition check_node_against_policy (taskA taskB : Task) (direction : string)
    : outcome unit :=
  if String.eqb direction "next" then
    let policy := valid_next_nodes_policy (constraints taskA) in
    if String.eqb policy "allow_all" then Ok tt
    else if String.eqb policy "allow_none" then
      Exc (RuntimeError ("Task " +:+ task_id taskA +:+ " cannot spawn any child nodes."))
    else if String.eqb policy "custom" then
      if negb (bool_decide (task_id taskB ∈ valid_next_nodes (constraints taskA))) then
        Exc (RuntimeError ("Task " +:+ task_id taskA +:+ " not allowed to spawn "
                           +:+ task_id taskB +:+ "."))
      else Ok tt
    else Ok tt
  else
    let policy := valid_previous_nodes_policy (constraints taskB) in
    if String.eqb policy "allow_all" then Ok tt
    else if String.eqb policy "allow_none" then
      Exc (RuntimeError ("Task " +:+ task_id taskB +:+ " cannot have any parents."))
    else if String.eqb policy "custom" then
      if negb (bool_decide (task_id taskA ∈ valid_previous_nodes (constraints taskB))) then
        Exc (RuntimeError ("Task " +:+ task_id taskB +:+ " not allowed to have "
                           +:+ task_id taskA +:+ " as a creator."))
      else Ok tt
    else Ok tt.

(** The [custom] branch compares [policy], not [direction], with
    ['outgoing'] and ['incoming']; [and] evaluates its right operand, and so
    [taskB.task_id], only when the left one holds. *)
Definition check_edge_against_policy (taskA : Task) (taskB : pyarg)
    (direction : string) : outcome unit :=
  let '(policy, valid_edges) :=
    if String.eqb direction "outgoing"
    then (valid_outgoing_edges_policy (constraints taskA),
          valid_outgoing_edges (constraints taskA))
    else (valid_incoming_edges_policy (constraints taskA),
          valid_incoming_edges (constraints taskA)) in
  if String.eqb policy "allow_all" then Ok tt
  else if String.eqb policy "allow_none" then
    Exc (RuntimeError ("Task " +:+ task_id taskA +:+ " cannot create "
                       +:+ direction +:+ " edges."))
  else if String.eqb policy "custom" then
    obind
      (if String.eqb policy "outgoing" then
         obind (attr_task_id taskB) (λ b,
           if negb (bool_decide ((task_id taskA, b) ∈ valid_edges)) then
             Exc (RuntimeError ("Edge " +:+ task_id taskA +:+ "->" +:+ b
                                +:+ " not in valid_outgoing_edges of "
                                +:+ task_id taskA +:+ "."))
           else Ok tt)
       else Ok tt)
      (λ _,
        if String.eqb policy "incoming" then
          obind (attr_task_id taskB) (λ b,
            if negb (bool_decide ((b, task_id taskA) ∈ valid_edges)) then
              Exc (RuntimeError ("Edge " +:+ task_id taskA +:+ "->" +:+ b
                                 +:+ " not in valid_incoming_edges of "
                                 +:+ task_id taskA +:+ "."))
            else Ok tt)
        else Ok tt)
  else Ok tt.

(** The edge check as section 4.2 of the specification words it, for the
    candidate edge [A → B]: [outgoing] consults A's policy, [incoming]
    consults B's, and [custom] admits exactly the listed pairs. *)
Definition spec_edge_admitted (A B : Task) (direction : string) : bool :=
  let '(policy, valid_edges) :=
    if String.eqb direction "outgoing"
    then (valid_outgoing_edges_policy (constraints A), valid_outgoing_edges (constraints A))
    else (valid_incoming_edges_policy (constraints B), valid_incoming_edges (constraints B)) in
  if String.eqb policy "allow_all" then true
  else if String.eqb policy "allow_none" then false
  else bool_decide ((task_id A, task_id B) ∈ valid_edges).

(** *** Insertion-ordered dictionaries *)

Definition dict (V : Type) : Type := list (string * V).

Definition dict_keys {V} (d : dict V) : list string := d.*1.

(** [k in d] *)
Definition dict_mem {V} (k : string) (d : dict V) : bool :=
  bool_decide (k ∈ dict_keys d).

(** [d.get(k)] *)
Fixpoint dict_get {V} (k : string) (d : dict V) : option V :=
  match d with
  | [] => None
  | (k', v) :: d' => if String.eqb k k' then Some v else dict_get k d'
  end.

(** [d[k] = v]: a present key keeps its position, a new key goes last. *)
Fixpoint dict_set {V} (k : string) (v : V) (d : dict V) : dict V :=
  match d with
  | [] => [(k, v)]
  | (k', v') :: d' =>
      if String.eqb k k' then (k, v) :: d' else (k', v') :: dict_set k v d'
  end.

(** *** Directed graphs and the acyclicity test of networkx *)

Record DiGraph : Type := mkDiGraph {
  g_nodes : list string;
  g_edges : list (string * string)
}.

Definition add_node (n : string) (g : DiGraph) : DiGraph :=
  if bool_decide (n ∈ g_nodes g) then g
  else mkDiGraph (g_nodes g ++ [n]) (g_edges g).

Definition add_edge (p c : string) (g : DiGraph) : DiGraph :=
  let g' := add_node c (add_node p g) in
  if bool_decide ((p, c) ∈ g_edges g') then g'
  else mkDiGraph (g_nodes g') (g_edges g' ++ [(p, c)]).

(** [no_incoming v E]: no edge of [E] enters [v]. *)
Definition no_incoming (v : string) (E : list (string * string)) : bool :=
  forallb (λ e, negb (String.eqb e.2 v)) E.

(** networkx is an external library. Its [is_directed_acyclic_graph] is
    represented by source removal: as long as an edge is left, find one
    whose origin has no incoming edge and drop every edge leaving that
    origin; the graph is acyclic iff this ends with no edge left.
    [dag_sound] and [dag_complete] below relate it to the absence of a
    cycle. *)
Fixpoint remove_sources (fuel : nat) (E : list (string * string)) : bool :=
  match E with
  | [] => true
  | _ :: _ =>
      match fuel with
      | O => false
      | S fuel' =>
          match find (λ e, no_incoming e.1 E) E with
          | Some e => remove_sources fuel' (filter (λ e', e'.1 ≠ e.1) E)
          | None => false
          end
      end
  end.

Definition is_directed_acyclic_graph (g : DiGraph) : bool :=
  remove_sources (length (g_edges g)) (g_edges g).

(** The graph built by [_assert_no_cycle] and [is_acyclic]: every task id
    is a node, every dependency an edge. *)
Definition build_graph (task_ids : list string) (edges : list (string * string))
    : DiGraph :=
  foldl (λ g e, add_edge e.1 e.2 g)
        (foldl (λ g t, add_node t g) (mkDiGraph [] []) task_ids) edges.

(** Declarative acyclicity of a list of edges. *)
Definition edge_rel (E : list (string * string)) (x y : string) : Prop := (x, y) ∈ E.

Definition acyclic (E : list (string * string)) : Prop :=
  ∀ x, ¬ tc (edge_rel E) x x.

(** *** Workflow *)

Record Workflow : Type := mkWorkflow {
  workflow_id : string;
  tasks : dict Task;
  edges : list (string * string);
  visual_edges : list (string * string);
  wf_visualization_counter : Z
}.

(** [Workflow(workflow_id)] *)
Definition Workflow_init (workflow_id : string) : Workflow :=
  mkWorkflow workflow_id [] [] [] 1.

Definition set_tasks (f : dict Task → dict Task) (w : Workflow) : Workflow :=
  mkWorkflow (workflow_id w) (f (tasks w)) (edges w) (visual_edges w)
             (wf_visualization_counter w).
Definition set_edges (f : list (string * string) → list (string * string))
    (w : Workflow) : Workflow :=
  mkWorkflow (workflow_id w) (tasks w) (f (edges w)) (visual_edges w)
             (wf_visualization_counter w).
Definition set_visual_edges (f : list (string * string) → list (string * string))
    (w : Workflow) : Workflow :=
  mkWorkflow (workflow_id w) (tasks w) (edges w) (f (visual_edges w))
             (wf_visualization_counter w).
Definition set_wf_visualization_counter (f : Z → Z) (w : Workflow) : Workflow :=
  mkWorkflow (workflow_id w) (tasks w) (edges w) (visual_edges w)
             (f (wf_visualization_counter w)).

Definition _assert_no_cycle : St Workflow unit :=
  w <- gets id ;;
  if negb (is_directed_acyclic_graph (build_graph (dict_keys (tasks w)) (edges w)))
  then raise (ValueError "DAG cycle detected in workflow registration.")
  else ret tt.

(** The body of [for dep in dependencies] in [add_task]. *)
Definition add_dependency (task : Task) (dep : string) : St Workflow unit :=
  w <- gets id ;;
  if negb (dict_mem dep (tasks w)) then
    raise (ValueError ("Dependency " +:+ dep +:+ " not in " +:+ workflow_id w))
  else
    dep_obj <- lift (getitem (dict_get dep (tasks w)) dep) ;;
    lift (check_node_against_policy dep_obj task "next") ;;;
    lift (check_node_against_policy dep_obj task "previous") ;;;
    lift (check_edge_against_policy task (PyTask dep_obj) "incoming") ;;;
    lift (check_edge_against_policy dep_obj (PyTask task) "outgoing") ;;;
    modify (set_edges (λ es, es ++ [(dep, task_id task)])) ;;;
    modify (set_visual_edges (λ es, es ++ [(dep, task_id task)])).

(** [for x in l: body(x)], stopping at the first exception. *)
Fixpoint for_each {S A} (l : list A) (body : A → St S unit) : St S unit :=
  match l with
  | [] => ret tt
  | x :: l' => body x ;;; for_each l' body
  end.

(** [Workflow.add_task]. The rendering done by [self.visualize()] is
    outside the model. *)
Definition add_task (task : Task) (dependencies : option (list string))
    : St Workflow unit :=
  w <- gets id ;;
  if dict_mem (task_id task) (tasks w) then
    raise (ValueError ("Task " +:+ task_id task +:+ " already in " +:+ workflow_id w))
  else
    modify (set_tasks (dict_set (task_id task) task)) ;;;
    match dependencies with
    | Some deps => for_each deps (add_dependency task)
    | None => ret tt
    end ;;;
    _assert_no_cycle ;;;
    modify (set_wf_visualization_counter (λ n, n + 1)%Z).

(** ** orchestrator.py *)

Inductive status : Type := pending | running | done | failed.

Global Instance status_eq_dec : EqDecision status.
Proof. solve_decision. Defined.

Definition status_str (s : status) : string :=
  match s with
  | pending => "pending" | running => "running" | done => "done" | failed => "failed"
  end.

(** [s in ['done', 'failed']] *)
Definition terminal (s : status) : bool :=
  match s with done | failed => true | pending | running => false end.

(** [s in ['pending', 'running']] *)
Definition active (s : status) : bool :=
  match s with pending | running => true | done | failed => false end.

(** What a run leaves behind for an observer: the lines the orchestrator
    prints, and one entry for each call of a task body. *)
Inductive event : Type :=
  | EvReceived (wf_id : string) (ntasks nedges : nat)
  | EvInvoked (wf_id task_id : string) (inputs : value)
  | EvCompleteTask (wf_id task_id : string) (result : value)
  | EvRunnerException (wf_id task_id : string) (e : exn)
  | EvSpawnAdded (wf_id new_task_id creator_task_id : string)
  | EvAllTerminal (wf_id : string).

(** The fields of [Orchestrator]; [processes] is never read or written by
    the source and is left out. [trace] holds the events, latest first. *)
Record Orchestrator : Type := mkOrchestrator {
  workflows : gmap string Workflow;
  ready_queue : gmap string (list (string * value));
  task_status : gmap (string * string) status;
  task_inputs : gmap (string * string) value;
  task_outputs : gmap (string * string) value;
  spawn_counts : gmap (string * string) Z;
  running_loops : gmap string bool;
  run_counter : gmap string Z;
  execution_history : gmap (string * string) Z;
  visualization_counter : gmap string Z;
  trace : list event
}.

(** [Orchestrator()] *)
Definition Orchestrator_init : Orchestrator :=
  mkOrchestrator ∅ ∅ ∅ ∅ ∅ ∅ ∅ ∅ ∅ ∅ [].

(** Elementary mutations. *)
Definition put_workflow (w : string) (wf : Workflow) (o : Orchestrator) : Orchestrator :=
  mkOrchestrator (<[w := wf]> (workflows o)) (ready_queue o) (task_status o)
    (task_inputs o) (task_outputs o) (spawn_counts o) (running_loops o)
    (run_counter o) (execution_history o) (visualization_counter o) (trace o).
Definition put_queue (w : string) (q : list (string * value)) (o : Orchestrator)
    : Orchestrator :=
  mkOrchestrator (workflows o) (<[w := q]> (ready_queue o)) (task_status o)
    (task_inputs o) (task_outputs o) (spawn_counts o) (running_loops o)
    (run_counter o) (execution_history o) (visualization_counter o) (trace o).
Definition put_status (key : string * string) (s : status) (o : Orchestrator)
    : Orchestrator :=
  mkOrchestrator (workflows o) (ready_queue o) (<[key := s]> (task_status o))
    (task_inputs o) (task_outputs o) (spawn_counts o) (running_loops o)
    (run_counter o) (execution_history o) (visualization_counter o) (trace o).
Definition put_input (key : string * string) (v : value) (o : Orchestrator)
    : Orchestrator :=
  mkOrchestrator (workflows o) (ready_queue o) (task_status o)
    (<[key := v]> (task_inputs o)) (task_outputs o) (spawn_counts o) (running_loops o)
    (run_counter o) (execution_history o) (visualization_counter o) (trace o).
Definition put_output (key : string * string) (v : value) (o : Orchestrator)
    : Orchestrator :=
  mkOrchestrator (workflows o) (ready_queue o) (task_status o)
    (task_inputs o) (<[key := v]> (task_outputs o)) (spawn_counts o) (running_loops o)
    (run_counter o) (execution_history o) (visualization_counter o) (trace o).
Definition put_spawn_count (key : string * string) (n : Z) (o : Orchestrator)
    : Orchestrator :=
  mkOrchestrator (workflows o) (ready_queue o) (task_status o)
    (task_inputs o) (task_outputs o) (<[key := n]> (spawn_counts o)) (running_loops o)
    (run_counter o) (execution_history o) (visualization_counter o) (trace o).
Definition put_running (w : string) (b : bool) (o : Orchestrator) : Orchestrator :=
  mkOrchestrator (workflows o) (ready_queue o) (task_status o)
    (task_inputs o) (task_outputs o) (spawn_counts o) (<[w := b]> (running_loops o))
    (run_counter o) (execution_history o) (visualization_counter o) (trace o).
Definition put_run_counter (w : string) (n : Z) (o : Orchestrator) : Orchestrator :=
  mkOrchestrator (workflows o) (ready_queue o) (task_status o)
    (task_inputs o) (task_outputs o) (spawn_counts o) (running_loops o)
    (<[w := n]> (run_counter o)) (execution_history o) (visualization_counter o) (trace o).
Definition put_step (key : string * string) (n : Z) (o : Orchestrator) : Orchestrator :=
  mkOrchestrator (workflows o) (ready_queue o) (task_status o)
    (task_inputs o) (task_outputs o) (spawn_counts o) (running_loops o)
    (run_counter o) (<[key := n]> (execution_history o)) (visualization_counter o) (trace o).
Definition put_visualization_counter (w : string) (n : Z) (o : Orchestrator)
    : Orchestrator :=
  mkOrchestrator (workflows o) (ready_queue o) (task_status o)
    (task_inputs o) (task_outputs o) (spawn_counts o) (running_loops o)
    (run_counter o) (execution_history o) (<[w := n]> (visualization_counter o)) (trace o).
Definition emit (ev : event) (o : Orchestrator) : Orchestrator :=
  mkOrchestrator (workflows o) (ready_queue o) (task_status o)
    (task_inputs o) (task_outputs o) (spawn_counts o) (running_loops o)
    (run_counter o) (execution_history o) (visualization_counter o) (ev :: trace o).

(** [repr] of a tuple key, for [KeyError]. *)
Definition key_repr (key : string * string) : string :=
  "('" +:+ key.1 +:+ "', '" +:+ key.2 +:+ "')".

(** Dictionary reads that raise [KeyError]. *)
Definition the_workflow (w : string) : St Orchestrator Workflow :=
  λ o, (getitem (workflows o !! w) w, o).
Definition the_queue (w : string) : St Orchestrator (list (string * value)) :=
  λ o, (getitem (ready_queue o !! w) w, o).
Definition the_status (key : string * string) : St Orchestrator status :=
  λ o, (getitem (task_status o !! key) (key_repr key), o).
Definition the_spawn_count (key : string * string) : St Orchestrator Z :=
  λ o, (getitem (spawn_counts o !! key) (key_repr key), o).

(** [self.workflows[wf_id].<field>.<mutation>]: the workflow object is
    shared by reference, so the mutation is seen by every later read. *)
Definition update_workflow (w : string) (f : Workflow → Workflow)
    : St Orchestrator unit :=
  wf <- the_workflow w ;; modify (put_workflow w (f wf)).

(** [self.ready_queue[wf_id].append(x)] *)
Definition enqueue (w : string) (x : string * value) : St Orchestrator unit :=
  q <- the_queue w ;; modify (put_queue w (q ++ [x])).

Definition register_workflow (wf : Workflow) : St Orchestrator unit :=
  let w := workflow_id wf in
  known <- gets (λ o, bool_decide (is_Some (workflows o !! w))) ;;
  if known : bool then
    raise (ValueError ("Workflow " +:+ w +:+ " already registered."))
  else
    modify (put_workflow w wf) ;;;
    for_each (dict_keys (tasks wf)) (λ t_id,
      modify (put_status (w, t_id) pending) ;;;
      modify (put_spawn_count (w, t_id) 0)) ;;;
    modify (put_queue w []) ;;;
    modify (put_running w false) ;;;
    modify (put_run_counter w 0) ;;;
    modify (put_visualization_counter w 1) ;;;
    modify (emit (EvReceived w (length (tasks wf)) (length (edges wf)))).

Definition complete_task (wf_id task_id : string) (result : value)
    : St Orchestrator unit :=
  let key := (wf_id, task_id) in
  st <- the_status key ;;
  modify (emit (EvCompleteTask wf_id task_id result)) ;;;
  if negb (active st) then ret tt
  else
    modify (put_status key done) ;;;
    modify (put_output key result).

(** The closure [fail_workflow] of [spawn_task]. It always raises. *)
Definition fail_workflow (wf_id error_msg : string) : St Orchestrator unit :=
  the_queue wf_id ;;;
  modify (put_queue wf_id []) ;;;
  wf <- the_workflow wf_id ;;
  for_each (dict_keys (tasks wf)) (λ task_id,
    let key := (wf_id, task_id) in
    st <- the_status key ;;
    if active st then modify (put_status key failed) else ret tt) ;;;
  modify (put_running wf_id false) ;;;
  raise (RuntimeError ("Workflow " +:+ wf_id
                       +:+ " terminated due to constraint violation: " +:+ error_msg)).

Definition is_acyclic (wf : Workflow) : bool :=
  is_directed_acyclic_graph (build_graph (dict_keys (tasks wf)) (edges wf)).

(** The body of [for (src, dst) in new_edges] in [spawn_task]. *)
Definition spawn_edge (wf_id creator_task_id new_id : string) (e : string * string)
    : St Orchestrator unit :=
  let '(src, dst) := e in
  (if negb (bool_decide (src ∈ [creator_task_id; new_id]))
      && negb (bool_decide (dst ∈ [creator_task_id; new_id]))
   then fail_workflow wf_id ("The edge (" +:+ src +:+ ", " +:+ dst
          +:+ ") is not related to the creator or the new task.")
   else ret tt) ;;;
  wf <- the_workflow wf_id ;;
  src_object <- lift (getitem (dict_get src (tasks wf)) src) ;;
  dst_object <- lift (getitem (dict_get dst (tasks wf)) dst) ;;
  try_RuntimeError
    (lift (check_edge_against_policy dst_object (PyTask src_object) "incoming") ;;;
     lift (check_edge_against_policy src_object (PyStr dst) "outgoing"))
    (λ m, fail_workflow wf_id m) ;;;
  update_workflow wf_id (set_edges (λ es, es ++ [(src, dst)])) ;;;
  update_workflow wf_id (set_visual_edges (λ es, es ++ [(src, dst)])).

(** [input_data is not None] *)
Definition is_not_None (v : value) : bool :=
  match v with VNone => false | _ => true end.

Definition spawn_task (wf_id creator_task_id : string) (new_task : Task)
    (new_edges : option (list (string * string))) (input_data : value)
    (skip_visual_edge : bool) : St Orchestrator unit :=
  let new_id := task_id new_task in
  wf <- the_workflow wf_id ;;
  (if negb (dict_mem creator_task_id (tasks wf))
   then fail_workflow wf_id ("Creator " +:+ creator_task_id +:+ " not in wf " +:+ wf_id)
   else ret tt) ;;;
  creator_obj <- lift (getitem (dict_get creator_task_id (tasks wf)) creator_task_id) ;;
  let key := (wf_id, creator_task_id) in
  match max_spawn_count (constraints creator_obj) with
  | Some k =>
      c <- the_spawn_count key ;;
      if (c >=? k)%Z
      then fail_workflow wf_id ("Task " +:+ creator_task_id +:+ " exceeded spawn count")
      else ret tt
  | None => ret tt
  end ;;;
  try_RuntimeError
    (lift (check_node_against_policy creator_obj new_task "next") ;;;
     lift (check_node_against_policy creator_obj new_task "previous"))
    (λ m, fail_workflow wf_id m) ;;;
  (if dict_mem new_id (tasks wf)
   then fail_workflow wf_id ("Task " +:+ new_id +:+ " already in wf " +:+ wf_id)
   else ret tt) ;;;
  update_workflow wf_id (set_tasks (dict_set new_id new_task)) ;;;
  modify (put_status (wf_id, new_id) pending) ;;;
  modify (put_spawn_count (wf_id, new_id) 0) ;;;
  c <- the_spawn_count key ;;
  modify (put_spawn_count key (c + 1)) ;;;
  parent_step <- gets (λ o, default 0%Z (execution_history o !! key)) ;;
  modify (put_step (wf_id, new_id) (parent_step + 1)) ;;;
  (if negb skip_visual_edge
   then update_workflow wf_id (set_visual_edges (λ es, es ++ [(creator_task_id, new_id)]))
   else ret tt) ;;;
  match new_edges with
  | Some (e :: es) => for_each (e :: es) (spawn_edge wf_id creator_task_id new_id)
  | _ => ret tt
  end ;;;
  wf' <- the_workflow wf_id ;;
  (if negb (is_acyclic wf') then fail_workflow wf_id "spawn_task caused cycle"
   else ret tt) ;;;
  (if is_not_None input_data then
     wf'' <- the_workflow wf_id ;;
     let has_deps := existsb (λ e, String.eqb e.2 new_id) (edges wf'') in
     if negb has_deps then enqueue wf_id (new_id, input_data) else ret tt
   else ret tt) ;;;
  modify (emit (EvSpawnAdded wf_id new_id creator_task_id)).

(** [check_task_status]: the pair of the ["status"] and ["result"] entries
    of the dictionary it returns. *)
Definition check_task_status (wf_id task_id : string) (o : Orchestrator)
    : string * value :=
  match task_status o !! (wf_id, task_id) with
  | None => ("unknown", VNone)
  | Some s =>
      (status_str s,
       if bool_decide (s = done)
       then default VNone (task_outputs o !! (wf_id, task_id))
       else VNone)
  end.

(** Running a task body against the orchestrator. *)
Fixpoint run_body (p : prog) : St Orchestrator value :=
  match p with
  | Return v => ret v
  | Raise e => raise e
  | SpawnTask w c t es d sk k =>
      spawn_task w c t es d sk ;;; run_body k
  | TrySpawnTask w c t es d sk k h =>
      λ o, match spawn_task w c t es d sk o with
           | (Ok _, o') => run_body k o'
           | (Exc e, o') => run_body (h e) o'
           end
  | CompleteTask w t v k =>
      complete_task w t v ;;; run_body k
  | TryCompleteTask w t v k h =>
      λ o, match complete_task w t v o with
           | (Ok _, o') => run_body k o'
           | (Exc e, o') => run_body (h e) o'
           end
  | CheckTaskStatus w t k =>
      r <- gets (check_task_status w t) ;; run_body (k r.1 r.2)
  end.

(** [task_runner]: everything happens under [try], and [except Exception]
    catches whatever was raised. *)
Definition task_runner (wf_id task_id : string) (inputs : value)
    : St Orchestrator unit :=
  λ o,
    match (wf <- the_workflow wf_id ;;
           task_obj <- lift (getitem (dict_get task_id (tasks wf)) task_id) ;;
           modify (emit (EvInvoked wf_id task_id inputs)) ;;;
           res <- run_body (func task_obj wf_id task_id inputs) ;;
           complete_task wf_id task_id res) o with
    | (Ok _, o') => (Ok tt, o')
    | (Exc e, o') =>
        (Ok tt, put_status (wf_id, task_id) failed
                  (emit (EvRunnerException wf_id task_id e) o'))
    end.

Definition spawn_parallel (wf_id t_id : string) (inputs : value)
    : St Orchestrator unit :=
  let key := (wf_id, t_id) in
  st <- the_status key ;;
  if bool_decide (st = pending) then
    modify (put_status key running) ;;;
    modify (put_input key inputs) ;;;
    task_runner wf_id t_id inputs
  else ret tt.

(** [Orchestrator.visualize], as far as the orchestrator is concerned: the
    two dictionary reads that can raise, and the counter. Drawing and
    rendering are done by graphviz and are outside the model. *)
Definition visualize (wf_id : string) : St Orchestrator unit :=
  known <- gets (λ o, workflows o !! wf_id) ;;
  match known with
  | None => ret tt
  | Some wf =>
      for_each (dict_keys (tasks wf)) (λ t_id,
        let key := (wf_id, t_id) in
        s <- the_status key ;;
        if negb (bool_decide (s = pending))
        then (λ o, (getitem (execution_history o !! key) (key_repr key), o)) ;;; ret tt
        else ret tt) ;;;
      n <- (λ o, (getitem (visualization_counter o !! wf_id) wf_id, o)) ;;
      modify (put_visualization_counter wf_id (n + 1))
  end.

(** [rev.setdefault(c, []).append(p)] for every edge, in order. *)
Definition rev_of (es : list (string * string)) : gmap string (list string) :=
  foldl (λ rev e, <[e.2 := default [] (rev !! e.2) ++ [e.1]]> rev) ∅ es.

(** [max(self.execution_history.get((wf_id, tid), 0) for tid in wf.tasks) + 1] *)
Definition current_step_of (o : Orchestrator) (wf_id : string) (ids : list string)
    : outcome Z :=
  match ids with
  | [] => Exc (ValueError "max() arg is an empty sequence")
  | t :: ts =>
      Ok (foldl (λ m tid, Z.max m (default 0 (execution_history o !! (wf_id, tid))))
                (default 0 (execution_history o !! (wf_id, t))) ts + 1)%Z
  end.

(** The loop [for p in preds] of the discovery pass. *)
Fixpoint scan_preds (o : Orchestrator) (wf_id : string) (preds : list string)
    (inputs : list value) (all_done : bool) : outcome (list value * bool) :=
  match preds with
  | [] => Ok (inputs, all_done)
  | p :: ps =>
      obind (getitem (task_status o !! (wf_id, p)) (key_repr (wf_id, p))) (λ s,
        let all_done' := if active s then false else all_done in
        let p_output := default VNone (task_outputs o !! (wf_id, p)) in
        let inputs' := if truthy p_output then inputs ++ [p_output] else inputs in
        scan_preds o wf_id ps inputs' all_done')
  end.

(** The loop [for t_id in wf.tasks] of the discovery pass; it reads the
    state and changes nothing. *)
Fixpoint discover (o : Orchestrator) (wf_id : string)
    (rev : gmap string (list string)) (ids : list string)
    (newly_unblocked : list (string * value)) : outcome (list (string * value)) :=
  match ids with
  | [] => Ok newly_unblocked
  | t_id :: ids' =>
      obind (getitem (task_status o !! (wf_id, t_id)) (key_repr (wf_id, t_id))) (λ s,
        if bool_decide (s = pending) then
          obind (scan_preds o wf_id (default [] (rev !! t_id)) [] true) (λ r,
            discover o wf_id rev ids'
              (if r.2 : bool then newly_unblocked ++ [(t_id, VList r.1)]
               else newly_unblocked))
        else discover o wf_id rev ids' newly_unblocked)
  end.

(** [while self.ready_queue[wf_id]: ...] *)
Fixpoint drain (fuel : nat) (wf_id : string) : St Orchestrator unit :=
  q <- the_queue wf_id ;;
  match q with
  | [] => ret tt
  | (tid, inputs) :: q' =>
      match fuel with
      | O => raise OutOfFuel
      | S fuel' =>
          modify (put_queue wf_id q') ;;;
          spawn_parallel wf_id tid inputs ;;;
          visualize wf_id ;;;
          drain fuel' wf_id
      end
  end.

Definition run_helper (fuel : nat) (wf_id : string) : St Orchestrator unit :=
  wf <- the_workflow wf_id ;;
  let rev := rev_of (edges wf) in
  current_step <- (λ o, (current_step_of o wf_id (dict_keys (tasks wf)), o)) ;;
  newly_unblocked <- (λ o, (discover o wf_id rev (dict_keys (tasks wf)) [], o)) ;;
  for_each newly_unblocked (λ x,
    enqueue wf_id (x.1, x.2) ;;;
    modify (put_step (wf_id, x.1) current_step)) ;;;
  drain fuel wf_id.

(** [while True: ...] of [run_workflow]; [time.sleep(1)] has no effect on
    the state. *)
Fixpoint scheduling_loop (n fuel : nat) (wf_id : string) : St Orchestrator unit :=
  match n with
  | O => raise OutOfFuel
  | S n' =>
      run_helper fuel wf_id ;;;
      wf <- the_workflow wf_id ;;
      statuses <- (λ o, (foldr (λ t acc, obind (getitem (task_status o !! (wf_id, t))
                                                  (key_repr (wf_id, t)))
                                   (λ s, obind acc (λ l, Ok (s :: l))))
                               (Ok []) (dict_keys (tasks wf)), o)) ;;
      if forallb terminal statuses then
        modify (emit (EvAllTerminal wf_id))
      else scheduling_loop n' fuel wf_id
  end.

(** The loop of [run_workflow] that puts every task without an incoming
    edge in the queue, with the input the caller gave for it. *)
Definition seed_roots (wf_id : string) (wf : Workflow) (input_data : gmap string value)
    : St Orchestrator unit :=
  let rev := rev_of (edges wf) in
  for_each (dict_keys (tasks wf)) (λ t_id,
    if negb (bool_decide (is_Some (rev !! t_id)))
    then enqueue wf_id (t_id, default (VList []) (input_data !! t_id))
    else ret tt).

Definition run_workflow (fuel : nat) (wf_id : string) (input_data : gmap string value)
    : St Orchestrator unit :=
  known <- gets (λ o, bool_decide (is_Some (workflows o !! wf_id))) ;;
  if negb known then raise (ValueError ("No workflow " +:+ wf_id))
  else
    r <- (λ o, (getitem (running_loops o !! wf_id) wf_id, o)) ;;
    if r : bool then
      raise (RuntimeError ("Workflow " +:+ wf_id
                           +:+ " is already running a scheduling loop."))
    else
      modify (put_running wf_id true) ;;;
      wf <- the_workflow wf_id ;;
      seed_roots wf_id wf input_data ;;;
      scheduling_loop fuel fuel wf_id ;;;
      modify (put_running wf_id false).

(** * Properties *)

(** ** Notions used in the statements *)

(** A policy field paired with a list that its policy forbids. *)
Definition pair_malformed {A} (policy : string) (l : list A) : Prop :=
  (policy = "allow_none" ∧ l ≠ []) ∨ (policy = "custom" ∧ l = []).

(** The arguments that the constructor must refuse. *)
Definition malformed (m : option Z)
    (p1 : string) (l1 : list string) (p2 : string) (l2 : list string)
    (p3 : string) (l3 : list (string * string))
    (p4 : string) (l4 : list (string * string)) : Prop :=
  (∃ n, m = Some n ∧ (n < 0)%Z)
  ∨ p1 ∉ valid_policies ∨ p2 ∉ valid_policies
  ∨ p3 ∉ valid_policies ∨ p4 ∉ valid_policies
  ∨ pair_malformed p1 l1 ∨ pair_malformed p2 l2
  ∨ pair_malformed p3 l3 ∨ pair_malformed p4 l4.

Definition idle_body : string → string → value → prog := λ _ _ _, Return VNone.

(** A task whose outgoing edges are restricted to [("A", "X")]. *)
Definition only_to_X : Task :=
  mkTask "A" idle_body
    (mkTaskConstraints None "allow_all" [] "allow_all" [] "allow_all" []
                       "custom" [("A", "X")]) [].

(** A task whose incoming edges are restricted to [("X", "B")]. *)
Definition only_from_X : Task :=
  mkTask "B" idle_body
    (mkTaskConstraints None "allow_all" [] "allow_all" []
                       "custom" [("X", "B")] "allow_all" []) [].

(** A walk: each element has an edge to the next one. *)
Fixpoint walk (E : list (string * string)) (l : list string) : Prop :=
  match l with
  | x :: ((y :: _) as l') => (x, y) ∈ E ∧ walk E l'
  | _ => True
  end.

(** [(wf_id, task_id)] names a task of a registered workflow. *)
Definition in_tasks (o : Orchestrator) (key : string * string) : Prop :=
  ∃ wf, workflows o !! key.1 = Some wf ∧ key.2 ∈ dict_keys (tasks wf).

(** The spawn cap of a task, when it has one. *)
Definition quota_of (o : Orchestrator) (key : string * string) : option Z :=
  match workflows o !! key.1 with
  | Some wf =>
      match dict_get key.2 (tasks wf) with
      | Some t => max_spawn_count (constraints t)
      | None => None
      end
  | None => None
  end.

(** Events other than a body call and a completed spawn. *)
Definition plain (ev : event) : Prop :=
  match ev with
  | EvInvoked _ _ _ | EvSpawnAdded _ _ _ => False
  | _ => True
  end.

(** The state after lines 217-219 of [spawn_task]: the task is in the
    workflow, pending, with a spawn count of zero. *)
Definition inserted (w : string) (t : Task) (wf : Workflow) (o : Orchestrator)
    : Orchestrator :=
  put_spawn_count (w, task_id t) 0
    (put_status (w, task_id t) pending
       (put_workflow w (set_tasks (dict_set (task_id t) t) wf) o)).

(** A property [P] of orchestrator states that every elementary step of
    the spawn service keeps. Between the increment of the creator's spawn
    count and the end of [spawn_task] the weaker [Pmid] holds. *)
Record SpawnStable (P : Orchestrator → Prop)
    (Pmid : string * string → Orchestrator → Prop) : Prop := {
  ss_queue : ∀ o w q, P o → P (put_queue w q o);
  ss_running : ∀ o w b, P o → P (put_running w b o);
  ss_fail : ∀ o key s,
    P o → task_status o !! key = Some s → active s = true →
    P (put_status key failed o);
  ss_insert : ∀ o w wf t,
    P o → workflows o !! w = Some wf → task_id t ∉ dict_keys (tasks wf) →
    P (inserted w t wf o);
  ss_incr : ∀ o key c,
    P o → in_tasks o key → spawn_counts o !! key = Some c →
    (∀ k, quota_of o key = Some k → (c < k)%Z) →
    Pmid key (put_spawn_count key (c + 1) o);
  ss_mid_weaken : ∀ o key, Pmid key o → P o;
  ss_mid_step : ∀ o key key' n, Pmid key o → Pmid key (put_step key' n o);
  ss_mid_graph : ∀ o key w wf wf',
    Pmid key o → workflows o !! w = Some wf → tasks wf' = tasks wf →
    Pmid key (put_workflow w wf' o);
  ss_mid_queue : ∀ o key w q, Pmid key o → Pmid key (put_queue w q o);
  ss_commit : ∀ o w new creator,
    Pmid (w, creator) o → P (emit (EvSpawnAdded w new creator) o)
}.

(** The task [key] has been dispatched: it has a status, which is no longer
    [pending]. While its body runs the status is [running], or [failed]
    after an abort, or [done] after a [complete_task] call of the body. *)
Definition live (key : string * string) (o : Orchestrator) : Prop :=
  in_tasks o key
  ∧ ∃ s, task_status o !! key = Some s ∧ s ≠ pending.

(** A property kept by every elementary step of the orchestrator: those of
    the spawn service, registration, dispatch, completion and the handler
    of [task_runner]. *)
Record Stable (P : Orchestrator → Prop)
    (Pmid : string * string → Orchestrator → Prop) : Prop := {
  st_spawn : SpawnStable P Pmid;
  st_step : ∀ o key n, P o → P (put_step key n o);
  st_visualization : ∀ o w n, P o → P (put_visualization_counter w n o);
  st_emit : ∀ o ev, plain ev → P o → P (emit ev o);
  st_register : ∀ o wf,
    workflows o !! workflow_id wf = None → P o → P (register_workflow wf o).2;
  st_complete : ∀ o key s v,
    P o → task_status o !! key = Some s → active s = true →
    P (put_output key v
         (put_status key done (emit (EvCompleteTask key.1 key.2 v) o)));
  st_dispatch : ∀ o key inp,
    P o → task_status o !! key = Some pending →
    P (put_input key inp (put_status key running o));
  st_invoke : ∀ o key inp,
    P o → task_status o !! key = Some pending → in_tasks o key →
    P (emit (EvInvoked key.1 key.2 inp)
         (put_input key inp (put_status key running o)));
  st_handler : ∀ o key s e,
    P o → task_status o !! key = Some s → s ≠ pending →
    P (put_status key failed (emit (EvRunnerException key.1 key.2 e) o))
}.

(** The statuses and spawn counts after the loop of [register_workflow]. *)
Definition register_entries (w : string) (ids : list string) (o : Orchestrator)
    : Orchestrator :=
  foldl (λ o t, put_spawn_count (w, t) 0 (put_status (w, t) pending o)) o ids.

(** The state that [register_workflow] reaches for a new workflow id. *)
Definition register_state (wf : Workflow) (o : Orchestrator) : Orchestrator :=
  let w := workflow_id wf in
  emit (EvReceived w (length (tasks wf)) (length (edges wf)))
    (put_visualization_counter w 1
       (put_run_counter w 0
          (put_running w false
             (put_queue w []
                (register_entries w (dict_keys (tasks wf)) (put_workflow w wf o)))))).

(** [kept o0 o]: the tasks of [o0] are tasks of [o]; a task that was failed
    in [o0] is failed in [o], a task that was done in [o0] is done or
    failed in [o], and both have the output they had. *)
Definition kept (o0 o : Orchestrator) : Prop :=
  (∀ key, in_tasks o0 key → in_tasks o key)
  ∧ ∀ key s, in_tasks o0 key → task_status o0 !! key = Some s → terminal s = true →
      (task_status o !! key = Some s ∨ task_status o !! key = Some failed)
      ∧ task_outputs o !! key = task_outputs o0 !! key.

(** The keys of the tasks whose body was called, latest first. *)
Definition invoked (tr : list event) : list (string * string) :=
  tr ≫= λ ev, match ev with EvInvoked w t _ => [(w, t)] | _ => [] end.

Global Arguments invoked : simpl never.

(** [Inv]: every status belongs to a task of its workflow; an output is
    recorded only for a task that is done or failed; no body was called
    twice; a task whose body was called is no longer pending; and an output
    is recorded only by a [complete_task] call for that task with that
    result. *)
Record Inv (o : Orchestrator) : Prop := {
  inv_status_task : ∀ key s, task_status o !! key = Some s → in_tasks o key;
  inv_output_terminal : ∀ key v,
    task_outputs o !! key = Some v →
    ∃ s, task_status o !! key = Some s ∧ terminal s = true;
  inv_invoked_once : NoDup (invoked (trace o));
  inv_invoked_started : ∀ key,
    key ∈ invoked (trace o) → ∃ s, task_status o !! key = Some s ∧ s ≠ pending;
  inv_output_completed : ∀ key v,
    task_outputs o !! key = Some v → EvCompleteTask key.1 key.2 v ∈ trace o
}.

(** One call of a method of the orchestrator, with any arguments and any
    outcome, an exception or exhausted fuel included. *)
Inductive call (o o' : Orchestrator) : Prop :=
  | call_register_workflow wf r :
      register_workflow wf o = (r, o') → call o o'
  | call_run_workflow fuel w inp r :
      run_workflow fuel w inp o = (r, o') → call o o'
  | call_run_helper fuel w r :
      run_helper fuel w o = (r, o') → call o o'
  | call_spawn_parallel w t inp r :
      spawn_parallel w t inp o = (r, o') → call o o'
  | call_complete_task w t res r :
      complete_task w t res o = (r, o') → call o o'
  | call_spawn_task w c t es d sk r :
      spawn_task w c t es d sk o = (r, o') → call o o'
  | call_fail_workflow w m r :
      fail_workflow w m o = (r, o') → call o o'
  | call_visualize w r :
      visualize w o = (r, o') → call o o'.

(** The states an orchestrator can be in: those that calls lead to from
    [Orchestrator()]. *)
Definition reachable (o : Orchestrator) : Prop := rtc call Orchestrator_init o.

(** The edge checks of [spawn_task] for one edge: the incoming policy of
    the destination, then the outgoing policy of the origin. *)
Definition edge_checks (src_object dst_object : Task) (dst : string) : outcome unit :=
  obind (check_edge_against_policy dst_object (PyTask src_object) "incoming")
    (λ _, check_edge_against_policy src_object (PyStr dst) "outgoing").

(** Appending one dependency to a workflow, as [spawn_task] does. *)
Definition with_edge (e : string * string) (wf : Workflow) : Workflow :=
  set_visual_edges (λ es, es ++ [e]) (set_edges (λ es, es ++ [e]) wf).

Definition related (creator new : string) (e : string * string) : Prop :=
  e.1 ∈ [creator; new] ∨ e.2 ∈ [creator; new].

(** What [spawn_task] leaves when it returns: the state is determined by
    the arguments, and every test of the spawn service has passed. *)
Definition spawned (w creator : string) (t : Task) (es : list (string * string))
    (d : value) (sk : bool) (wf : Workflow) (c : Z) (o : Orchestrator)
    : Orchestrator :=
  let new := task_id t in
  let wf1 := set_tasks (dict_set new t) wf in
  let wf2 := if sk then wf1 else set_visual_edges (λ vs, vs ++ [(creator, new)]) wf1 in
  let wf3 := foldl (λ wf e, with_edge e wf) wf2 es in
  let o1 := put_workflow w wf3
              (put_step (w, new) (default 0%Z (execution_history o !! (w, creator)) + 1)
                 (put_spawn_count (w, creator) (c + 1) (inserted w t wf o))) in
  let o2 := if is_not_None d && negb (existsb (λ e, String.eqb e.2 new) (edges wf3))
            then put_queue w (default [] (ready_queue o !! w) ++ [(new, d)]) o1
            else o1 in
  emit (EvSpawnAdded w new creator) o2.

(** [new_edges or []] *)
Definition edge_list (es : option (list (string * string))) : list (string * string) :=
  default [] es.

(** The number of spawns by the task [key] that returned without error. *)
Fixpoint spawns (key : string * string) (tr : list event) : nat :=
  match tr with
  | [] => 0
  | EvSpawnAdded w _ c :: tr' =>
      (if bool_decide ((w, c) = key) then 1 else 0) + spawns key tr'
  | _ :: tr' => spawns key tr'
  end.

(** [Quota extra o]: spawn counts belong to tasks; the spawns that returned
    are covered by the spawn count, with one to spare for the task [extra]
    whose spawn is under way; and a count stays within the cap. *)
Record Quota (extra : option (string * string)) (o : Orchestrator) : Prop := {
  q_count_task : ∀ key c, spawn_counts o !! key = Some c → in_tasks o key;
  q_spawns : ∀ key,
    (Z.of_nat (spawns key (trace o))
     + (if bool_decide (extra = Some key) then 1 else 0)
     ≤ default 0 (spawn_counts o !! key))%Z;
  q_cap : ∀ key c k,
    spawn_counts o !! key = Some c → quota_of o key = Some k → (c ≤ Z.max k 0)%Z
}.

(** The predecessors of [t], in the order in which their edges were added. *)
Definition preds (es : list (string * string)) (t : string) : list string :=
  (filter (λ e, e.2 = t) es).*1.

(** The recorded output of a task, [None] when there is none. *)
Definition output_of (o : Orchestrator) (w p : string) : value :=
  default VNone (task_outputs o !! (w, p)).

(** The inputs that the discovery pass hands to a task whose predecessors
    are [ps]: their outputs, in order, without the falsy ones. *)
Definition assemble (o : Orchestrator) (w : string) (ps : list string) : value :=
  VList (List.filter truthy (output_of o w <$> ps)).

(** Every predecessor is done or failed. *)
Definition all_terminal (o : Orchestrator) (w : string) (ps : list string) : Prop :=
  ∀ p, p ∈ ps → ∃ s, task_status o !! (w, p) = Some s ∧ terminal s = true.

(** A task with default constraints whose body returns [None]. *)
Definition plain_task (i : string) : Task := mkTask i idle_body default_constraints [].

(** A task capped at one spawn whose body spawns twice. *)
Definition greedy : Task :=
  mkTask "A"
    (λ w t _,
       SpawnTask w t (plain_task "N1") None (VInt 1) false
         (SpawnTask w t (plain_task "N2") None (VInt 2) false (Return VNone)))
    (mkTaskConstraints (Some 1%Z) "allow_all" [] "allow_all" []
                       "allow_all" [] "allow_all" []) [].

Definition quota_wf : Workflow := mkWorkflow "wf" [("A", greedy)] [] [] 1.

Definition quota_start : Orchestrator :=
  (register_workflow quota_wf Orchestrator_init).2.

Definition quota_final : Orchestrator := (run_workflow 5 "wf" ∅ quota_start).2.

(** Two roots [A] and [B]; the body of [A] spawns [N] and makes it a
    predecessor of [B]. *)
Definition late_edge_wf : Workflow :=
  mkWorkflow "wf"
    [("A", mkTask "A"
             (λ w t _, SpawnTask w t (plain_task "N") (Some [("N", "B")]) VNone false
                         (Return VNone))
             default_constraints []);
     ("B", plain_task "B")] [] [] 1.

Definition late_edge_start : Orchestrator :=
  (register_workflow late_edge_wf Orchestrator_init).2.

Definition late_edge_final : Orchestrator :=
  (run_workflow 5 "wf" ∅ late_edge_start).2.






(** The aborted run of [quota_wf], followed by a [complete_task] for the
    failed task. *)
Definition quota_completed : Orchestrator :=
  (complete_task "wf" "A" (VInt 7) quota_final).2.

(** ... and by a second [run_workflow]. *)
Definition quota_again : Orchestrator :=
  (run_workflow 5 "wf" ∅ quota_completed).2.

(** A root [A] whose body spawns [N] with input data and then [M] with the
    edge [M → N]. *)
Definition eager_wf : Workflow :=
  mkWorkflow "wf"
    [("A", mkTask "A"
             (λ w t _, SpawnTask w t (plain_task "N") None (VInt 1) false
                         (SpawnTask w t (plain_task "M") (Some [("M", "N")])
                            VNone false (Return VNone)))
             default_constraints [])] [] [] 1.

Definition eager_start : Orchestrator :=
  (register_workflow eager_wf Orchestrator_init).2.

Definition eager_final : Orchestrator := (run_workflow 5 "wf" ∅ eager_start).2.

(** A body that calls [complete_task] for its own task with the result 42
    and then raises. *)
Definition selfdone_body : string → string → value → prog :=
  λ w t _, CompleteTask w t (VInt 42) (Raise (UserError "boom")).

(** [P → C], where [P] has that body. *)
Definition selfdone_wf : Workflow :=
  mkWorkflow "wf"
    [("P", mkTask "P" selfdone_body default_constraints []);
     ("C", plain_task "C")]
    [("P", "C")] [("P", "C")] 1.

Definition selfdone_start : Orchestrator :=
  (register_workflow selfdone_wf Orchestrator_init).2.

(** [P] has been dispatched and [task_runner] is about to call its body. *)
Definition selfdone_running : Orchestrator :=
  emit (EvInvoked "wf" "P" (VList []))
    (put_input ("wf", "P") (VList [])
       (put_status ("wf", "P") running selfdone_start)).

(** The body of [P] has raised; the handler of [task_runner] has not run
    yet. *)
Definition selfdone_raised : Orchestrator :=
  (run_body (selfdone_body "wf" "P" (VList [])) selfdone_running).2.

(** The dispatch of [P] has returned; [C] has not been discovered yet. *)
Definition selfdone_mid : Orchestrator :=
  (spawn_parallel "wf" "P" (VList []) selfdone_start).2.

(** [A], whose outgoing edges are restricted to [("A", "X")], alone in a
    registered workflow. *)
Definition unlisted_wf : Workflow := mkWorkflow "wf" [("A", only_to_X)] [] [] 1.

Definition unlisted_start : Orchestrator :=
  (register_workflow unlisted_wf Orchestrator_init).2.

(** [A] spawns [B], whose incoming edges are restricted to [("X", "B")],
    with the edge [A → B]. *)
Definition unlisted_spawn : outcome unit * Orchestrator :=
  spawn_task "wf" "A" only_from_X (Some [("A", "B")]) VNone false unlisted_start.

(** A spawn by [A] of [late_edge_wf] whose first edge ends at [Z], which is
    no task, and whose second edge concerns neither [A] nor the new task. *)
Definition unknown_endpoint_spawn : outcome unit * Orchestrator :=
  spawn_task "wf" "A" (plain_task "N") (Some [("A", "Z"); ("X", "Y")]) VNone false
    late_edge_start.

Definition is_RuntimeError (e : exn) : bool :=
  match e with RuntimeError _ => true | _ => false end.

(** A computation that raises no [RuntimeError]. *)
Definition quiet {A} (c : St Orchestrator A) : Prop :=
  ∀ o e o', c o = (Exc e, o') → is_RuntimeError e = false.

(** The list of statuses that the loop of [run_workflow] reads. *)
Definition read_statuses (o : Orchestrator) (w : string) (ids : list string)
    : outcome (list status) :=
  foldr (λ t acc, obind (getitem (task_status o !! (w, t)) (key_repr (w, t)))
                    (λ s, obind acc (λ l, Ok (s :: l))))
        (Ok []) ids.

(** When the loop of [run_workflow] ends, every task of the workflow is
    done or failed. *)
Definition all_tasks_terminal (o : Orchestrator) (w : string) : Prop :=
  ∃ wf, workflows o !! w = Some wf
        ∧ ∀ t, t ∈ dict_keys (tasks wf) →
               ∃ s, task_status o !! (w, t) = Some s ∧ terminal s = true.







(** The state of [quota_wf] in which [A], capped at one spawn, has spawned
    [N1]. *)
Definition quota_spent : Orchestrator :=
  (spawn_task "wf" "A" (plain_task "N1") None (VInt 1) false quota_start).2.




(** ** Workflows under construction *)

(** The workflows that a developer can hold: a new one, and what any
    [add_task] call, successful or not, leaves of one. *)
Inductive built : Workflow → Prop :=
  | built_new i : built (Workflow_init i)
  | built_add_task w task deps r w' :
      built w → add_task task deps w = (r, w') → built w'.

(** The dependencies that passed the checks of [add_task]. *)
Definition admitted (task : Task) (w : Workflow) (deps : list string) : Prop :=
  ∀ dep, dep ∈ deps →
    ∃ dep_obj, dict_get dep (tasks w) = Some dep_obj
      ∧ check_node_against_policy dep_obj task "next" = Ok tt
      ∧ check_node_against_policy dep_obj task "previous" = Ok tt
      ∧ check_edge_against_policy task (PyTask dep_obj) "incoming" = Ok tt
      ∧ check_edge_against_policy dep_obj (PyTask task) "outgoing" = Ok tt.

Definition with_dependencies (task : Task) (deps : list string) (w : Workflow)
    : Workflow :=
  foldl (λ wf e, with_edge e wf) w ((λ dep, (dep, task_id task)) <$> deps).

(** The edges that [add_task] appends for the dependencies [deps]. *)
Definition dependency_edges (task : Task) (deps : option (list string))
    : list (string * string) :=
  (λ dep, (dep, task_id task)) <$> default [] deps.

(** A task that depends on itself, in a new workflow. *)
Definition self_loop_wf : Workflow :=
  (add_task (plain_task "T") (Some ["T"]) (Workflow_init "wf")).2.

(** [A], then [B] depending on [A]. *)
Definition two_step_wf : Workflow :=
  (add_task (plain_task "B") (Some ["A"])
     (add_task (plain_task "A") None (Workflow_init "wf")).2).2.

(** [A → B]; the body of [A] spawns a task under the id [B], which is
    taken. *)
Definition chain_wf : Workflow :=
  mkWorkflow "wf"
    [("A", mkTask "A"
             (λ w t _, SpawnTask w t (plain_task "B") None VNone false (Return VNone))
             default_constraints []);
     ("B", plain_task "B")]
    [("A", "B")] [("A", "B")] 1.

Definition chain_start : Orchestrator :=
  (register_workflow chain_wf Orchestrator_init).2.

(** [A] has been dispatched and its spawn has aborted the workflow. *)
Definition chain_aborted : Orchestrator :=
  (spawn_parallel "wf" "A" (VList []) chain_start).2.

(** A registered workflow without tasks. *)
Definition empty_start : Orchestrator :=
  (register_workflow (Workflow_init "wf") Orchestrator_init).2.


(** ** Workflows that do not grow *)

(** A body that calls neither [spawn_task] nor [complete_task]: it may
    query statuses, and returns or raises. *)
Fixpoint service_free (p : prog) : Prop :=
  match p with
  | Return _ | Raise _ => True
  | CheckTaskStatus _ _ k => ∀ s v, service_free (k s v)
  | SpawnTask _ _ _ _ _ _ _ | TrySpawnTask _ _ _ _ _ _ _ _ => False
  | CompleteTask _ _ _ _ | TryCompleteTask _ _ _ _ _ => False
  end.

(** No body of the workflow calls [spawn_task] or [complete_task], whatever
    its input. *)
Definition static (w : string) (wf : Workflow) : Prop :=
  ∀ t task inp, dict_get t (tasks wf) = Some task → service_free (func task w t inp).

(** Both endpoints of every edge are tasks of the workflow. *)
Definition closed (wf : Workflow) : Prop :=
  ∀ p c, (p, c) ∈ edges wf → p ∈ dict_keys (tasks wf) ∧ c ∈ dict_keys (tasks wf).

(** The tasks whose runner has finished, newest first: the body returned
    and [complete_task] was called, or the body raised. *)
Definition ended (tr : list event) : list (string * string) :=
  omap (λ ev, match ev with
              | EvCompleteTask w t _ | EvRunnerException w t _ => Some (w, t)
              | _ => None
              end) tr.

(** In the events [tr] (newest first) of a run of [wf], every call of a
    body comes after the runner has finished with each predecessor of the
    task. *)
Fixpoint in_order (w : string) (wf : Workflow) (tr : list event) : Prop :=
  match tr with
  | [] => True
  | ev :: tr' =>
      match ev with
      | EvInvoked w' t _ => w' = w → ∀ p, (p, t) ∈ edges wf → (w, p) ∈ ended tr'
      | _ => True
      end ∧ in_order w wf tr'
  end.

(** [Resting w wf tr0 o]: between two dispatches of a run of the static
    workflow [wf] that started with the trace [tr0]: the workflow is
    registered with its counter of renderings, each task has a status,
    none is running, and each task that is not pending has an execution
    step and has had its body called; the events since the start are in
    order, and the runner has finished with every task that is not
    pending. *)
Record Resting (w : string) (wf : Workflow) (tr0 : list event) (o : Orchestrator)
    : Prop := {
  rs_workflow : workflows o !! w = Some wf;
  rs_counter : is_Some (visualization_counter o !! w);
  rs_status : ∀ t, t ∈ dict_keys (tasks wf) →
    ∃ s, task_status o !! (w, t) = Some s ∧ s ≠ running
         ∧ (s ≠ pending → is_Some (execution_history o !! (w, t)));
  rs_invoked : ∀ t s, t ∈ dict_keys (tasks wf) → task_status o !! (w, t) = Some s →
    s ≠ pending → (w, t) ∈ invoked (trace o);
  rs_trace : ∃ new, trace o = new ++ tr0 ∧ in_order w wf new
    ∧ ∀ t s, t ∈ dict_keys (tasks wf) → task_status o !! (w, t) = Some s →
             s ≠ pending → (w, t) ∈ ended new
}.

(** A queue entry that the drain loop can take: it names a task of the
    workflow which, if it is pending, has an execution step and only
    predecessors that are done or failed. *)
Definition entry_ready (w : string) (wf : Workflow) (o : Orchestrator)
    (x : string * value) : Prop :=
  x.1 ∈ dict_keys (tasks wf)
  ∧ (task_status o !! (w, x.1) = Some pending →
     is_Some (execution_history o !! (w, x.1))
     ∧ all_terminal o w (preds (edges wf) x.1)).

(** A queue entry as [run_helper] finds it: a seeded root need not have an
    execution step yet, the discovery pass is about to give it one. *)
Definition entry_seeded (w : string) (wf : Workflow) (o : Orchestrator)
    (x : string * value) : Prop :=
  x.1 ∈ dict_keys (tasks wf)
  ∧ (task_status o !! (w, x.1) = Some pending →
     all_terminal o w (preds (edges wf) x.1)).

(** The number of pending tasks among [ids]. *)
Definition pending_count (o : Orchestrator) (w : string) (ids : list string) : nat :=
  length (filter (λ t, task_status o !! (w, t) = Some pending) ids).

(** [A → B → C] with bodies that return a value, raise, and return. *)
Definition static_wf : Workflow :=
  mkWorkflow "wf"
    [("A", mkTask "A" (λ _ _ _, Return (VInt 1)) default_constraints []);
     ("B", mkTask "B" (λ _ _ _, Raise (UserError "boom")) default_constraints []);
     ("C", plain_task "C")]
    [("A", "B"); ("B", "C")] [("A", "B"); ("B", "C")] 1.

Definition static_start : Orchestrator :=
  (register_workflow static_wf Orchestrator_init).2.


(** ** A spawn that fails after the insertion *)







(** The workflow left by the failed self-dependency, registered. *)
Definition self_loop_start : Orchestrator :=
  (register_workflow self_loop_wf Orchestrator_init).2.

(** ** The constraint model *)

Lemma nonempty_true {A} (l : list A) : nonempty l = true ↔ l ≠ [].
Proof. destruct l; simpl; split; congruence. Qed.

Lemma validate_pair_cases {A} (policy : string) (l : list A) (name : string) :
  (pair_malformed policy l ∧ ∃ msg, validate_pair policy l name = Exc (ValueError msg))
  ∨ (¬ pair_malformed policy l ∧ validate_pair policy l name = Ok tt).
Proof.
  unfold validate_pair, pair_malformed.
  destruct (String.eqb_spec policy "allow_none") as [->|Hn]; simpl.
  - destruct l as [|x l]; simpl.
    + right. split; [|done]. intros [[_ H]|[H _]]; congruence.
    + left. split; [left; split; congruence | eauto].
  - destruct (String.eqb_spec policy "custom") as [->|Hc]; simpl.
    + destruct l as [|x l]; simpl.
      * left. split; [right; done | eauto].
      * right. split; [|done]. intros [[H _]|[_ H]]; congruence.
    + right. split; [|done]. intros [[H _]|[H _]]; congruence.
Qed.

Lemma validate_policy_values_cases (c : TaskConstraints) :
  ((valid_next_nodes_policy c ∉ valid_policies
    ∨ valid_previous_nodes_policy c ∉ valid_policies
    ∨ valid_incoming_edges_policy c ∉ valid_policies
    ∨ valid_outgoing_edges_policy c ∉ valid_policies)
   ∧ ∃ msg, validate_policy_values c = Exc (ValueError msg))
  ∨ ((valid_next_nodes_policy c ∈ valid_policies
      ∧ valid_previous_nodes_policy c ∈ valid_policies
      ∧ valid_incoming_edges_policy c ∈ valid_policies
      ∧ valid_outgoing_edges_policy c ∈ valid_policies)
     ∧ validate_policy_values c = Ok tt).
Proof.
  unfold validate_policy_values.
  repeat (case_bool_decide; simpl; [| left; split; [tauto | eauto]]).
  right. tauto.
Qed.

Lemma validate_policy_nodes_cases (c : TaskConstraints) :
  ((pair_malformed (valid_next_nodes_policy c) (valid_next_nodes c)
    ∨ pair_malformed (valid_previous_nodes_policy c) (valid_previous_nodes c)
    ∨ pair_malformed (valid_incoming_edges_policy c) (valid_incoming_edges c)
    ∨ pair_malformed (valid_outgoing_edges_policy c) (valid_outgoing_edges c))
   ∧ ∃ msg, validate_policy_nodes c = Exc (ValueError msg))
  ∨ ((¬ pair_malformed (valid_next_nodes_policy c) (valid_next_nodes c)
      ∧ ¬ pair_malformed (valid_previous_nodes_policy c) (valid_previous_nodes c)
      ∧ ¬ pair_malformed (valid_incoming_edges_policy c) (valid_incoming_edges c)
      ∧ ¬ pair_malformed (valid_outgoing_edges_policy c) (valid_outgoing_edges c))
     ∧ validate_policy_nodes c = Ok tt).
Proof.
  unfold validate_policy_nodes.
  destruct (validate_pair_cases (valid_next_nodes_policy c) (valid_next_nodes c)
              "valid_next_nodes") as [[? [m ->]]|[? ->]]; simpl;
    [left; split; [tauto | eauto] |].
  destruct (validate_pair_cases (valid_previous_nodes_policy c) (valid_previous_nodes c)
              "valid_previous_nodes") as [[? [m ->]]|[? ->]]; simpl;
    [left; split; [tauto | eauto] |].
  destruct (validate_pair_cases (valid_incoming_edges_policy c) (valid_incoming_edges c)
              "valid_incoming_edges") as [[? [m ->]]|[? ->]]; simpl;
    [left; split; [tauto | eauto] |].
  destruct (validate_pair_cases (valid_outgoing_edges_policy c) (valid_outgoing_edges c)
              "valid_outgoing_edges") as [[? [m ->]]|[? ->]]; simpl;
    [left; split; [tauto | eauto] |].
  right. tauto.
Qed.

(** C9. Constructing a constraint record raises a [ValueError], and yields
    no record, whenever [max_spawn_count] is present and negative, a policy
    is not one of the three tokens, a policy [allow_none] comes with a
    non-empty list, or a policy [custom] comes with an empty list; every
    other combination of arguments yields the record holding exactly the
    given fields. *)
Theorem constraints_construction (m : option Z)
    (p1 : string) (l1 : list string) (p2 : string) (l2 : list string)
    (p3 : string) (l3 : list (string * string))
    (p4 : string) (l4 : list (string * string)) :
  (malformed m p1 l1 p2 l2 p3 l3 p4 l4 ∧
   ∃ msg, TaskConstraints_init m p1 l1 p2 l2 p3 l3 p4 l4 = Exc (ValueError msg))
  ∨ (¬ malformed m p1 l1 p2 l2 p3 l3 p4 l4 ∧
     TaskConstraints_init m p1 l1 p2 l2 p3 l3 p4 l4
     = Ok (mkTaskConstraints m p1 l1 p2 l2 p3 l3 p4 l4)).
Proof.
  unfold TaskConstraints_init, validate, malformed.
  set (c := mkTaskConstraints m p1 l1 p2 l2 p3 l3 p4 l4).
  assert (Hneg : (∃ n, m = Some n ∧ (n < 0)%Z) ∨ ¬ (∃ n, m = Some n ∧ (n < 0)%Z)).
  { destruct m as [n|]; [|right; intros (n & ? & _); congruence].
    destruct (Z_lt_dec n 0); [left; eauto|].
    right. intros (n' & [= <-] & ?). lia. }
  destruct Hneg as [Hneg|Hneg].
  { left. split; [tauto|].
    destruct Hneg as (n & -> & Hn). simpl.
    replace (n =? 0)%Z with false by lia. replace (n <? 0)%Z with true by lia.
    simpl. eauto. }
  assert (Hguard : match max_spawn_count c with
                   | Some n => negb (n =? 0)%Z && (n <? 0)%Z
                   | None => false
                   end = false).
  { simpl. destruct m as [n|]; [|done].
    destruct (n <? 0)%Z eqn:E; [|by rewrite andb_false_r].
    exfalso. apply Hneg. exists n. split; [done|lia]. }
  rewrite Hguard.
  destruct (validate_policy_values_cases c) as [[Hv [msg ->]]|[Hv ->]]; simpl.
  { left. split; [simpl in Hv; tauto | eauto]. }
  destruct (validate_policy_nodes_cases c) as [[Hp [msg ->]]|[Hp ->]]; simpl.
  { left. split; [simpl in Hp; tauto | eauto]. }
  right. split; [|done]. simpl in Hv, Hp. tauto.
Qed.

(** ** The policy checker *)


(** C2 (the source departs from the claim). For the candidate edge
    [A → B] with [A]'s outgoing policy [custom] and list [("A", "X")], and
    with [B]'s incoming policy [custom] and list [("X", "B")], both
    constraint records being well formed, the edge check of the source
    returns without raising in either direction, although the pair
    [("A", "B")] is in neither list and the check specified in section 4.2
    rejects it. *)
Theorem check_edge_custom_unlisted_pair :
  validate (constraints only_to_X) = Ok tt
  ∧ validate (constraints only_from_X) = Ok tt
  ∧ (("A", "B") ∉ valid_outgoing_edges (constraints only_to_X))
  ∧ (("A", "B") ∉ valid_incoming_edges (constraints only_from_X))
  ∧ check_edge_against_policy only_to_X (PyTask only_from_X) "outgoing" = Ok tt
  ∧ check_edge_against_policy only_from_X (PyTask only_to_X) "incoming" = Ok tt
  ∧ spec_edge_admitted only_to_X only_from_X "outgoing" = false
  ∧ spec_edge_admitted only_to_X only_from_X "incoming" = false.
Proof.
  repeat split; try reflexivity.
  - intros H. apply list_elem_of_In in H. simpl in H.
    destruct H as [H|[]]. discriminate H.
  - intros H. apply list_elem_of_In in H. simpl in H.
    destruct H as [H|[]]. discriminate H.
Qed.

(** ** Acyclicity *)

Lemma edge_rel_enters (E : list (string * string)) (x y : string) :
  tc (edge_rel E) x y → ∃ u, (u, y) ∈ E.
Proof.
  induction 1 as [x y H|x y z _ _ IH]; [by exists x | exact IH].
Qed.

Lemma no_incoming_true (v : string) (E : list (string * string)) :
  no_incoming v E = true ↔ ∀ u, (u, v) ∉ E.
Proof.
  unfold no_incoming. rewrite forallb_forall. split.
  - intros H u Hin. apply list_elem_of_In in Hin. specialize (H _ Hin).
    simpl in H. by rewrite String.eqb_refl in H.
  - intros H [a b] Hin. simpl.
    destruct (String.eqb_spec b v) as [->|]; [|done].
    exfalso. apply (H a). by apply list_elem_of_In.
Qed.

Lemma no_incoming_false (v : string) (E : list (string * string)) :
  no_incoming v E = false → ∃ u, (u, v) ∈ E.
Proof.
  unfold no_incoming. induction E as [|[a b] E IH]; simpl; [done|].
  destruct (String.eqb_spec b v) as [->|_]; simpl.
  - intros _. exists a. left.
  - intros H. destruct (IH H) as [u Hu]. exists u. by right.
Qed.

(** A path either avoids every edge leaving [v], or witnesses an edge
    into [v], or starts at [v]. *)
Lemma tc_without_source (E : list (string * string)) (v x y : string) :
  tc (edge_rel E) x y →
  tc (edge_rel (filter (λ e, e.1 ≠ v) E)) x y ∨ (∃ u, (u, v) ∈ E) ∨ x = v.
Proof.
  induction 1 as [x y H|x y z H _ IH].
  - destruct (decide (x = v)) as [->|Hne]; [by right; right|].
    left. apply tc_once. unfold edge_rel. by apply list_elem_of_filter.
  - destruct (decide (x = v)) as [->|Hne]; [by right; right|].
    destruct IH as [IH|[IH| ->]].
    + left. eapply tc_l; [|exact IH]. unfold edge_rel. by apply list_elem_of_filter.
    + by right; left.
    + right; left. by exists x.
Qed.

Lemma acyclic_nil : acyclic [].
Proof.
  intros x H. apply edge_rel_enters in H as [u Hu]. by apply elem_of_nil in Hu.
Qed.

Lemma acyclic_subseteq (E E' : list (string * string)) :
  E ⊆ E' → acyclic E' → acyclic E.
Proof.
  intros Hsub Hac x H. apply (Hac x).
  eapply tc_congruence with (f := id); [|exact H]. intros a b. apply Hsub.
Qed.

Lemma remove_sources_step (fuel : nat) (e0 : string * string)
    (E0 : list (string * string)) :
  remove_sources (S fuel) (e0 :: E0)
  = match find (λ e, no_incoming e.1 (e0 :: E0)) (e0 :: E0) with
    | Some e => remove_sources fuel (filter (λ e', e'.1 ≠ e.1) (e0 :: E0))
    | None => false
    end.
Proof. reflexivity. Qed.

(** Source removal answers [true] only on acyclic graphs. *)
Lemma remove_sources_sound (fuel : nat) (E : list (string * string)) :
  remove_sources fuel E = true → acyclic E.
Proof.
  revert E. induction fuel as [|fuel IH]; intros E; destruct E as [|e0 E0];
    try (intros _; apply acyclic_nil); try done.
  rewrite remove_sources_step. set (E := e0 :: E0).
  destruct (find (λ e, no_incoming e.1 E) E) as [e|] eqn:Hfind; [|done].
  apply find_some in Hfind as [_ Hsrc].
  pose proof (proj1 (no_incoming_true e.1 E) Hsrc) as Hnone. clear Hsrc.
  rename Hnone into Hsrc.
  intros Hrest x Hx. apply IH in Hrest.
  destruct (tc_without_source E e.1 x x Hx) as [H|[[u H]| ->]].
  - exact (Hrest x H).
  - exact (Hsrc u H).
  - apply edge_rel_enters in Hx as [u H]. exact (Hsrc u H).
Qed.

Lemma walk_app_tc (E : list (string * string)) (l1 l2 : list string) (a b : string) :
  walk E (a :: l1 ++ b :: l2) → tc (edge_rel E) a b.
Proof.
  revert a. induction l1 as [|c l1 IH]; intros a; simpl.
  - intros [H _]. by apply tc_once.
  - intros [H Hrest]. eapply tc_l; [exact H | apply IH; exact Hrest].
Qed.

Lemma walk_tail (E : list (string * string)) (l1 l2 : list string) :
  walk E (l1 ++ l2) → walk E l2.
Proof.
  induction l1 as [|c l1 IH]; [done|]. simpl.
  destruct (l1 ++ l2) eqn:Heq; [|intros [_ H]; by apply IH].
  intros _. apply app_eq_nil in Heq as [_ ->]. done.
Qed.

(** When every vertex with an outgoing edge also has an incoming one, a
    walk of any length exists, built from its end backwards. *)
Lemma walk_extend (E : list (string * string)) (n : nat) (x0 y0 : string) :
  (x0, y0) ∈ E →
  (∀ e, e ∈ E → ∃ u, (u, e.1) ∈ E) →
  ∃ l, length l = S n ∧ walk E l ∧ (∀ x, x ∈ l → x ∈ E.*1)
       ∧ ∃ h t, l = h :: t.
Proof.
  intros H0 Hall. induction n as [|n (l & Hlen & Hch & Hin & h & t & ->)].
  - exists [x0]. repeat split; [|by exists x0, []].
    intros x Hx. apply list_elem_of_singleton in Hx as ->.
    apply list_elem_of_fmap. by exists (x0, y0).
  - assert (Hh : h ∈ E.*1) by (apply Hin; left).
    apply list_elem_of_fmap in Hh as ([h' y] & Heq & Hhy). simpl in Heq. subst h'.
    destruct (Hall _ Hhy) as [u Hu]. simpl in Hu.
    exists (u :: h :: t). repeat split.
    + simpl in *. lia.
    + exact Hu.
    + exact Hch.
    + intros x Hx. apply elem_of_cons in Hx as [->|Hx]; [|by apply Hin].
      apply list_elem_of_fmap. by exists (u, h).
    + by exists u, (h :: t).
Qed.

Lemma repeated_element (l : list string) :
  ¬ NoDup l → ∃ a l1 l2 l3, l = l1 ++ a :: l2 ++ a :: l3.
Proof.
  induction l as [|x l IH]; intros Hnd.
  - destruct Hnd. constructor.
  - destruct (decide (x ∈ l)) as [Hin|Hnin].
    + apply list_elem_of_split in Hin as (l2 & l3 & ->).
      by exists x, [], l2, l3.
    + destruct IH as (a & l1 & l2 & l3 & ->).
      { intros H. apply Hnd. by constructor. }
      by exists a, (x :: l1), l2, l3.
Qed.

(** A non-empty acyclic graph has an edge whose origin nothing enters. *)
Lemma acyclic_has_source (E : list (string * string)) :
  acyclic E → E ≠ [] → ∃ e, e ∈ E ∧ no_incoming e.1 E = true.
Proof.
  intros Hac Hne.
  destruct (find (λ e, no_incoming e.1 E) E) as [e|] eqn:Hfind.
  { apply find_some in Hfind as [Hin Hsrc]. exists e.
    split; [by apply list_elem_of_In | done]. }
  exfalso.
  assert (Hall : ∀ e, e ∈ E → ∃ u, (u, e.1) ∈ E).
  { intros e He. apply list_elem_of_In in He.
    pose proof (find_none _ _ Hfind e He) as Hno. simpl in Hno.
    by apply no_incoming_false. }
  destruct E as [|[x0 y0] E0]; [done|].
  set (E := (x0, y0) :: E0) in *.
  destruct (walk_extend E (length (E.*1)) x0 y0) as (l & Hlen & Hch & Hin & _);
    [left | exact Hall |].
  assert (Hdup : ¬ NoDup l).
  { intros Hnd.
    assert (length l ≤ length (E.*1)); [|lia].
    apply submseteq_length, NoDup_submseteq; [done|]. exact Hin. }
  apply repeated_element in Hdup as (a & l1 & l2 & l3 & ->).
  apply walk_tail in Hch. apply walk_app_tc in Hch.
  exact (Hac a Hch).
Qed.



Lemma add_node_edges (n : string) (g : DiGraph) : g_edges (add_node n g) = g_edges g.
Proof. unfold add_node. by case_bool_decide. Qed.

Lemma add_edge_edges (p c : string) (g : DiGraph) (e : string * string) :
  e ∈ g_edges (add_edge p c g) ↔ e ∈ g_edges g ∨ e = (p, c).
Proof.
  unfold add_edge. rewrite !add_node_edges.
  case_bool_decide as Hin; simpl; rewrite ?add_node_edges.
  - split; [by left|]. intros [?| ->]; done.
  - rewrite elem_of_app, list_elem_of_singleton. done.
Qed.

Lemma add_nodes_edges (ids : list string) (g : DiGraph) :
  g_edges (foldl (λ g t, add_node t g) g ids) = g_edges g.
Proof.
  revert g. induction ids as [|t ids IH]; intros g; simpl; [done|].
  by rewrite IH, add_node_edges.
Qed.

Lemma add_edges_edges (es : list (string * string)) (g : DiGraph)
    (e : string * string) :
  e ∈ g_edges (foldl (λ g e, add_edge e.1 e.2 g) g es) ↔ e ∈ g_edges g ∨ e ∈ es.
Proof.
  revert g. induction es as [|[p c] es IH]; intros g; simpl.
  - rewrite elem_of_nil. tauto.
  - rewrite IH, add_edge_edges, elem_of_cons. tauto.
Qed.

(** The graph handed to networkx has exactly the workflow's edges. *)
Lemma build_graph_edges (ids : list string) (es : list (string * string))
    (e : string * string) :
  e ∈ g_edges (build_graph ids es) ↔ e ∈ es.
Proof.
  unfold build_graph. rewrite add_edges_edges, add_nodes_edges. simpl.
  rewrite elem_of_nil. tauto.
Qed.

Lemma acyclic_equiv (E E' : list (string * string)) :
  (∀ e, e ∈ E ↔ e ∈ E') → acyclic E ↔ acyclic E'.
Proof.
  intros H. split; apply acyclic_subseteq; intros e; apply H.
Qed.

(** The acyclicity test is sound and complete for the workflow graph. *)
Lemma dag_sound (ids : list string) (es : list (string * string)) :
  is_directed_acyclic_graph (build_graph ids es) = true → acyclic es.
Proof.
  intros H. apply remove_sources_sound in H.
  eapply acyclic_equiv; [|exact H]. intros e. symmetry. apply build_graph_edges.
Qed.


(** ** Reasoning about the state-and-exception monad *)

Section monad.
Context {S : Type}.

Lemma bind_inv {A B} (c : St S A) (k : A → St S B) (s s' : S) (r : outcome B) :
  bind c k s = (r, s') →
  (∃ a s1, c s = (Ok a, s1) ∧ k a s1 = (r, s'))
  ∨ (∃ e, c s = (Exc e, s') ∧ r = Exc e).
Proof.
  unfold bind. destruct (c s) as [[a|e] s1]; intros H.
  - left. by exists a, s1.
  - right. exists e. by inversion H.
Qed.

Lemma bind_ok_inv {A B} (c : St S A) (k : A → St S B) (s s' : S) (b : B) :
  bind c k s = (Ok b, s') → ∃ a s1, c s = (Ok a, s1) ∧ k a s1 = (Ok b, s').
Proof.
  intros H. apply bind_inv in H as [H|(e & _ & H)]; [done | discriminate H].
Qed.

Lemma bind_ok {A B} (c : St S A) (k : A → St S B) (s s1 : S) (a : A) :
  c s = (Ok a, s1) → bind c k s = k a s1.
Proof. unfold bind. by intros ->. Qed.

Lemma bind_exc {A B} (c : St S A) (k : A → St S B) (s s1 : S) (e : exn) :
  c s = (Exc e, s1) → bind c k s = (Exc e, s1).
Proof. unfold bind. by intros ->. Qed.

Lemma ret_inv {A} (a : A) (s s' : S) (r : outcome A) :
  ret a s = (r, s') → r = Ok a ∧ s' = s.
Proof. unfold ret. by intros [= <- <-]. Qed.

Lemma raise_inv {A} (e : exn) (s s' : S) (r : outcome A) :
  raise e s = (r, s') → r = Exc e ∧ s' = s.
Proof. unfold raise. by intros [= <- <-]. Qed.

Lemma modify_inv (f : S → S) (s s' : S) (r : outcome unit) :
  modify f s = (r, s') → r = Ok tt ∧ s' = f s.
Proof. unfold modify. by intros [= <- <-]. Qed.

Lemma gets_inv {A} (f : S → A) (s s' : S) (r : outcome A) :
  gets f s = (r, s') → r = Ok (f s) ∧ s' = s.
Proof. unfold gets. by intros [= <- <-]. Qed.

Lemma lift_inv {A} (x : outcome A) (s s' : S) (r : outcome A) :
  lift x s = (r, s') → r = x ∧ s' = s.
Proof. unfold lift. by intros [= <- <-]. Qed.

Lemma try_RuntimeError_inv {A} (c : St S A) (h : string → St S A) (s s' : S)
    (r : outcome A) :
  try_RuntimeError c h s = (r, s') →
  (∃ m s1, c s = (Exc (RuntimeError m), s1) ∧ h m s1 = (r, s'))
  ∨ (c s = (r, s') ∧ ∀ m, r ≠ Exc (RuntimeError m)).
Proof.
  unfold try_RuntimeError. destruct (c s) as [[a|e] s1] eqn:E; intros H.
  - right. by inversion H.
  - destruct e; try (right; by inversion H).
    left. by exists msg, s1.
Qed.

(** A loop keeps what each round keeps. *)
Lemma for_each_invariant {A} (I : S → Prop) (l : list A) (body : A → St S unit) :
  (∀ x s r s', x ∈ l → I s → body x s = (r, s') → I s') →
  ∀ s r s', I s → for_each l body s = (r, s') → I s'.
Proof.
  induction l as [|x l IH]; intros Hbody s r s' HI H; simpl in H.
  - by apply ret_inv in H as [_ ->].
  - apply bind_inv in H as [(a & s1 & H1 & H)|(e & H1 & _)].
    + eapply IH; [|eapply Hbody; [left|exact HI|exact H1]|exact H].
      intros y ? ? ? Hy. apply Hbody. by right.
    + eapply Hbody; [left|exact HI|exact H1].
Qed.

End monad.

(** Dictionary reads leave the state alone. *)
Lemma the_workflow_inv (w : string) (o o' : Orchestrator) (r : outcome Workflow) :
  the_workflow w o = (r, o') → r = getitem (workflows o !! w) w ∧ o' = o.
Proof. unfold the_workflow. by intros [= <- <-]. Qed.

Lemma the_queue_inv (w : string) (o o' : Orchestrator) r :
  the_queue w o = (r, o') → r = getitem (ready_queue o !! w) w ∧ o' = o.
Proof. unfold the_queue. by intros [= <- <-]. Qed.

Lemma the_status_inv (key : string * string) (o o' : Orchestrator) r :
  the_status key o = (r, o') → r = getitem (task_status o !! key) (key_repr key) ∧ o' = o.
Proof. unfold the_status. by intros [= <- <-]. Qed.

Lemma the_spawn_count_inv (key : string * string) (o o' : Orchestrator) r :
  the_spawn_count key o = (r, o') →
  r = getitem (spawn_counts o !! key) (key_repr key) ∧ o' = o.
Proof. unfold the_spawn_count. by intros [= <- <-]. Qed.

Lemma getitem_ok {V} (x : option V) (key : string) (v : V) :
  getitem x key = Ok v ↔ x = Some v.
Proof. destruct x; simpl; split; congruence. Qed.

Lemma the_workflow_ok (w : string) (o o' : Orchestrator) (wf : Workflow) :
  the_workflow w o = (Ok wf, o') → workflows o !! w = Some wf ∧ o' = o.
Proof.
  intros H. apply the_workflow_inv in H as [H ->]. split; [|done].
  symmetry in H. by apply getitem_ok in H.
Qed.

Lemma the_status_ok (key : string * string) (o o' : Orchestrator) (s : status) :
  the_status key o = (Ok s, o') → task_status o !! key = Some s ∧ o' = o.
Proof.
  intros H. apply the_status_inv in H as [H ->]. split; [|done].
  symmetry in H. by apply getitem_ok in H.
Qed.

Lemma the_spawn_count_ok (key : string * string) (o o' : Orchestrator) (c : Z) :
  the_spawn_count key o = (Ok c, o') → spawn_counts o !! key = Some c ∧ o' = o.
Proof.
  intros H. apply the_spawn_count_inv in H as [H ->]. split; [|done].
  symmetry in H. by apply getitem_ok in H.
Qed.

Lemma the_queue_ok (w : string) (o o' : Orchestrator) q :
  the_queue w o = (Ok q, o') → ready_queue o !! w = Some q ∧ o' = o.
Proof.
  intros H. apply the_queue_inv in H as [H ->]. split; [|done].
  symmetry in H. by apply getitem_ok in H.
Qed.

(** ** Acyclicity after registration-time and run-time insertions *)

Lemma add_task_ok_acyclic (task : Task) (deps : option (list string))
    (w w' : Workflow) :
  add_task task deps w = (Ok tt, w') → acyclic (edges w').
Proof.
  unfold add_task. intros H.
  apply bind_ok_inv in H as (w0 & w1 & H0 & H).
  destruct (dict_mem _ _); [by apply raise_inv in H as [? _]|].
  apply bind_ok_inv in H as (? & w2 & _ & H).
  apply bind_ok_inv in H as (? & w3 & _ & H).
  apply bind_ok_inv in H as (? & w4 & Hcyc & H).
  apply modify_inv in H as [_ ->]. simpl.
  unfold _assert_no_cycle in Hcyc.
  apply bind_ok_inv in Hcyc as (w5 & w6 & Hg & Hcyc).
  apply gets_inv in Hg as [[= ->] ->]. unfold id in Hcyc.
  destruct (is_directed_acyclic_graph _) eqn:Hdag; simpl in Hcyc;
    [|by apply raise_inv in Hcyc as [? _]].
  apply ret_inv in Hcyc as [_ ->]. by apply dag_sound in Hdag.
Qed.

(** ** Insertion-ordered dictionaries *)

Lemma dict_mem_true {V} (k : string) (d : dict V) :
  dict_mem k d = true ↔ k ∈ dict_keys d.
Proof. unfold dict_mem. apply bool_decide_eq_true. Qed.

Lemma dict_mem_false {V} (k : string) (d : dict V) :
  dict_mem k d = false ↔ k ∉ dict_keys d.
Proof. unfold dict_mem. apply bool_decide_eq_false. Qed.

Lemma dict_get_is_Some {V} (k : string) (d : dict V) :
  is_Some (dict_get k d) ↔ k ∈ dict_keys d.
Proof.
  unfold dict_keys. induction d as [|[k' v] d IH]; simpl.
  - split; [by intros [? ?] | by intros ?%elem_of_nil].
  - rewrite elem_of_cons. simpl.
    destruct (String.eqb_spec k k') as [->|Hne]; [by split; eauto|].
    rewrite IH. tauto.
Qed.

Lemma dict_get_None {V} (k : string) (d : dict V) :
  dict_get k d = None ↔ k ∉ dict_keys d.
Proof. rewrite <- dict_get_is_Some, eq_None_not_Some. done. Qed.

Lemma dict_keys_set {V} (k k' : string) (v : V) (d : dict V) :
  k' ∈ dict_keys (dict_set k v d) ↔ k' = k ∨ k' ∈ dict_keys d.
Proof.
  unfold dict_keys. induction d as [|[k0 v0] d IH]; simpl.
  - rewrite list_elem_of_singleton, elem_of_nil. tauto.
  - destruct (String.eqb_spec k k0) as [->|Hne]; simpl.
    + rewrite !elem_of_cons. tauto.
    + rewrite !elem_of_cons, IH. tauto.
Qed.

Lemma dict_get_set_eq {V} (k : string) (v : V) (d : dict V) :
  dict_get k (dict_set k v d) = Some v.
Proof.
  induction d as [|[k0 v0] d IH]; simpl.
  - by rewrite String.eqb_refl.
  - destruct (String.eqb_spec k k0) as [->|Hne]; simpl.
    + by rewrite String.eqb_refl.
    + by destruct (String.eqb_spec k k0).
Qed.

Lemma dict_get_set_ne {V} (k k' : string) (v : V) (d : dict V) :
  k' ≠ k → dict_get k' (dict_set k v d) = dict_get k' d.
Proof.
  intros Hne. induction d as [|[k0 v0] d IH]; simpl.
  - by destruct (String.eqb_spec k' k).
  - destruct (String.eqb_spec k k0) as [->|Hne0]; simpl.
    + by destruct (String.eqb_spec k' k0).
    + destruct (String.eqb_spec k' k0); [done | exact IH].
Qed.

Lemma dict_set_fresh {V} (k : string) (v : V) (d : dict V) :
  k ∉ dict_keys d → dict_set k v d = d ++ [(k, v)].
Proof.
  unfold dict_keys. induction d as [|[k0 v0] d IH]; simpl; [done|].
  rewrite not_elem_of_cons. intros [Hne Hnin].
  destruct (String.eqb_spec k k0); [done|]. by rewrite IH.
Qed.

(** ** Stepping through monadic code *)

Lemma for_each_triple {S A} (I E : S → Prop) (l : list A) (body : A → St S unit) :
  (∀ x s r s', x ∈ l → I s → body x s = (r, s') →
               match r with Ok _ => I s' | Exc _ => E s' end) →
  ∀ s r s', I s → for_each l body s = (r, s') →
            match r with Ok _ => I s' | Exc _ => E s' end.
Proof.
  induction l as [|x l IH]; intros Hbody s r s' HI H; simpl in H.
  - by apply ret_inv in H as [-> ->].
  - apply bind_inv in H as [(a & s1 & H1 & H)|(e & H1 & ->)].
    + eapply IH; [| |exact H].
      * intros y ? ? ? Hy. apply Hbody. by right.
      * by apply (Hbody x s (Ok a) s1); [left| |].
    + by apply (Hbody x s (Exc e) s'); [left| |].
Qed.

(** Split a [bind] in hypothesis [H] into its normal and exceptional
    continuations. *)
Ltac mbind H a o1 H1 :=
  let e := fresh "e" in
  let Hr := fresh "Hr" in
  apply bind_inv in H as [(a & o1 & H1 & H)|(e & H1 & Hr)];
  [|first [subst | simplify_eq]].

(** The same when the whole computation is known to return normally. *)
Ltac mbind_ok H a o1 H1 :=
  apply bind_ok_inv in H as (a & o1 & H1 & H).

(** Invert the elementary computations found among the hypotheses. *)
Ltac minv_with lem H :=
  let Hv := fresh "Hv" in let Hs := fresh "Hs" in
  apply lem in H as [Hv Hs].

Ltac minv :=
  repeat match goal with
  | H : ret _ _ = (_, _) |- _ => minv_with @ret_inv H
  | H : raise _ _ = (_, _) |- _ => minv_with @raise_inv H
  | H : modify _ _ = (_, _) |- _ => minv_with @modify_inv H
  | H : gets _ _ = (_, _) |- _ => minv_with @gets_inv H
  | H : lift _ _ = (_, _) |- _ => minv_with @lift_inv H
  | H : the_workflow _ _ = (Ok _, _) |- _ => minv_with the_workflow_ok H
  | H : the_workflow _ _ = (_, _) |- _ => minv_with the_workflow_inv H
  | H : the_status _ _ = (Ok _, _) |- _ => minv_with the_status_ok H
  | H : the_status _ _ = (_, _) |- _ => minv_with the_status_inv H
  | H : the_spawn_count _ _ = (Ok _, _) |- _ => minv_with the_spawn_count_ok H
  | H : the_spawn_count _ _ = (_, _) |- _ => minv_with the_spawn_count_inv H
  | H : the_queue _ _ = (Ok _, _) |- _ => minv_with the_queue_ok H
  | H : the_queue _ _ = (_, _) |- _ => minv_with the_queue_inv H
  end; simplify_eq.

(** ** What the operations keep *)

Section spawn_stable.
Context (P : Orchestrator → Prop) (Pmid : string * string → Orchestrator → Prop).
Context (HS : SpawnStable P Pmid).

Lemma fail_status_stable (w t : string) (o o' : Orchestrator) (r : outcome unit) :
  P o →
  (st <- the_status (w, t) ;;
   if active st then modify (put_status (w, t) failed) else ret tt) o = (r, o') →
  P o'.
Proof using HS.
  intros HP H. mbind H st o1 H1; minv; [|done].
  destruct (active st) eqn:Hact; minv; [|done].
  by eapply (ss_fail _ _ HS).
Qed.

Lemma fail_workflow_stable (w m : string) (o o' : Orchestrator) (r : outcome unit) :
  P o → fail_workflow w m o = (r, o') → P o' ∧ ∃ e, r = Exc e.
Proof using HS.
  intros HP H. unfold fail_workflow in H.
  mbind H q o1 H1; minv; [|eauto].
  mbind H u o2 H1; minv.
  assert (HP1 : P (put_queue w [] o)) by by apply (ss_queue _ _ HS).
  mbind H wf o3 H1; minv; [|eauto].
  mbind H u o4 H1.
  - assert (HP4 : P o4).
    { eapply for_each_invariant; [|exact HP1|exact H1].
      intros t s r' s' _ HPs Hb. exact (fail_status_stable _ _ _ _ _ HPs Hb). }
    mbind H u' o5 H2; minv.
    split; [by apply (ss_running _ _ HS) | eauto].
  - split; [|eauto].
    eapply for_each_invariant; [|exact HP1|exact H1].
    intros t s r' s' _ HPs Hb. exact (fail_status_stable _ _ _ _ _ HPs Hb).
Qed.

(** A guard of the form [if b then fail_workflow ... else ret tt]. *)
Lemma guard_stable (b : bool) (w m : string) (o o' : Orchestrator) (r : outcome unit) :
  P o → (if b then fail_workflow w m else ret tt) o = (r, o') →
  match r with Ok _ => b = false ∧ o' = o | Exc _ => P o' end.
Proof using HS.
  intros HP H. destruct b.
  - apply fail_workflow_stable in H as [H [e ->]]; done.
  - by minv.
Qed.

Lemma update_workflow_inv (w : string) (f : Workflow → Workflow)
    (o o' : Orchestrator) (r : outcome unit) :
  update_workflow w f o = (r, o') →
  match r with
  | Ok _ => ∃ wf, workflows o !! w = Some wf ∧ o' = put_workflow w (f wf) o
  | Exc _ => o' = o
  end.
Proof.
  unfold update_workflow. intros H. mbind H wf o1 H1; minv; [|done].
  by exists wf.
Qed.

Lemma policy_checks_pure {A} (x y : outcome A) (o o' : Orchestrator) (r : outcome A) :
  (lift x ;;; lift y) o = (r, o') → o' = o.
Proof. intros H. mbind H u o1 H1; by minv. Qed.

Lemma spawn_edge_stable (w creator new : string) (e : string * string)
    (key : string * string) (o o' : Orchestrator) (r : outcome unit) :
  Pmid key o → spawn_edge w creator new e o = (r, o') →
  match r with Ok _ => Pmid key o' | Exc _ => P o' end.
Proof using HS.
  intros HP H. pose proof (ss_mid_weaken _ _ HS _ _ HP) as HP0.
  unfold spawn_edge in H. destruct e as [src dst].
  mbind H u o1 H1; apply (guard_stable _ _ _ _ _ _ HP0) in H1; [|done].
  destruct H1 as [_ ->].
  mbind H wf o2 H1; minv; [|done].
  mbind H src_object o3 H1; minv; [|done].
  mbind H dst_object o4 H1; minv; [|done].
  mbind H u' o5 H1.
  - apply try_RuntimeError_inv in H1 as [(m & o6 & Hc & Hh)|[Hc _]].
    + apply policy_checks_pure in Hc as ->.
      apply fail_workflow_stable in Hh as [_ [? ?]]; done.
    + apply policy_checks_pure in Hc as ->.
      mbind H u'' o7 H2; apply update_workflow_inv in H2.
      * destruct H2 as (wf1 & Hwf1 & ->).
        apply update_workflow_inv in H. destruct r.
        -- destruct H as (wf2 & Hwf2 & ->).
           eapply (ss_mid_graph _ _ HS); [|exact Hwf2|done].
           eapply (ss_mid_graph _ _ HS); [exact HP|exact Hwf1|done].
        -- subst o'. apply (ss_mid_weaken _ _ HS _ key).
           eapply (ss_mid_graph _ _ HS); [exact HP|exact Hwf1|done].
      * by subst.
  - apply try_RuntimeError_inv in H1 as [(m & o6 & Hc & Hh)|[Hc _]].
    + apply policy_checks_pure in Hc as ->.
      by apply fail_workflow_stable in Hh as [? _].
    + by apply policy_checks_pure in Hc as ->.
Qed.

Lemma enqueue_inv (w : string) (x : string * value) (o o' : Orchestrator)
    (r : outcome unit) :
  enqueue w x o = (r, o') →
  match r with
  | Ok _ => ∃ q, ready_queue o !! w = Some q ∧ o' = put_queue w (q ++ [x]) o
  | Exc _ => o' = o
  end.
Proof.
  unfold enqueue. intros H. mbind H q o1 H1; minv; [|done]. by exists q.
Qed.

(** The quota test of [spawn_task]. *)
Lemma quota_check_stable (w creator : string) (quota : option Z)
    (o o' : Orchestrator) (r : outcome unit) :
  P o →
  match quota with
  | Some k =>
      c <- the_spawn_count (w, creator) ;;
      if (c >=? k)%Z
      then fail_workflow w ("Task " +:+ creator +:+ " exceeded spawn count")
      else ret tt
  | None => ret tt
  end o = (r, o') →
  match r with
  | Ok _ => o' = o ∧ ∀ k, quota = Some k →
              ∃ c, spawn_counts o !! (w, creator) = Some c ∧ (c < k)%Z
  | Exc _ => P o'
  end.
Proof using HS.
  intros HP H. destruct quota as [k|]; [|by minv].
  mbind H c o1 H1; minv; [|done].
  apply (guard_stable _ _ _ _ _ _ HP) in H. destruct r; [|done].
  destruct H as [Hlt ->]. split; [done|]. intros ? [= <-]. exists c. split; [done|lia].
Qed.

Lemma quota_of_inserted (w creator : string) (t creator_obj : Task) (wf : Workflow)
    (o : Orchestrator) (k : Z) :
  dict_get creator (tasks wf) = Some creator_obj →
  task_id t ∉ dict_keys (tasks wf) →
  quota_of (inserted w t wf o) (w, creator) = Some k →
  max_spawn_count (constraints creator_obj) = Some k.
Proof.
  intros Hget Hfresh. unfold quota_of, inserted. simpl.
  rewrite lookup_insert_eq. simpl.
  rewrite dict_get_set_ne, Hget; [done|].
  intros ->. apply Hfresh, dict_get_is_Some. by rewrite Hget.
Qed.

Lemma spawn_task_stable (w creator : string) (t : Task)
    (es : option (list (string * string))) (d : value) (sk : bool)
    (o o' : Orchestrator) (r : outcome unit) :
  P o → spawn_task w creator t es d sk o = (r, o') → P o'.
Proof using HS.
  intros HP H. unfold spawn_task in H.
  mbind H wf o1 H1; minv; [|done]. rename Hv into Hwf.
  mbind H u o2 H1; apply (guard_stable _ _ _ _ _ _ HP) in H1; [|done].
  destruct H1 as [Hmem ->]. apply negb_false_iff, dict_mem_true in Hmem.
  mbind H creator_obj o3 H1; minv; [|done].
  symmetry in Hv. apply getitem_ok in Hv. rename Hv into Hcre.
  mbind H u' o4 H1; apply (quota_check_stable _ _ _ _ _ _ HP) in H1; [|done].
  destruct H1 as [-> Hquota].
  mbind H u'' o5 H1; apply try_RuntimeError_inv in H1 as [(m & o6 & Hc & Hh)|[Hc _]];
    try (apply policy_checks_pure in Hc as ->).
  { by apply (fail_workflow_stable _ _ _ _ _ HP) in Hh as [_ [? ?]]. }
  2: { by apply (fail_workflow_stable _ _ _ _ _ HP) in Hh as [? _]. }
  2: done.
  mbind H u3 o7 H1; apply (guard_stable _ _ _ _ _ _ HP) in H1; [|done].
  destruct H1 as [Hfresh ->]. apply dict_mem_false in Hfresh.
  mbind H u4 o8 H1; apply update_workflow_inv in H1; [|by subst].
  destruct H1 as (wf0 & Hwf0 & ->). assert (wf0 = wf) as -> by congruence.
  mbind H u5 o9 H1; minv. mbind H u6 o10 H1; minv.
  change (put_spawn_count _ 0 _) with (inserted w t wf o) in H.
  assert (HPi : P (inserted w t wf o)) by by apply (ss_insert _ _ HS).
  mbind H c o11 H1; minv; [|done]. rename Hv into Hc.
  mbind H u7 o12 H1; minv.
  assert (HPm : Pmid (w, creator) (put_spawn_count (w, creator) (c + 1)
                                     (inserted w t wf o))).
  { apply (ss_incr _ _ HS); [done| |done|].
    - exists (set_tasks (dict_set (task_id t) t) wf). simpl.
      rewrite lookup_insert_eq. split; [done|].
      apply dict_keys_set. by right.
    - intros k Hk. eapply quota_of_inserted in Hk; [|done..].
      destruct (Hquota _ Hk) as (c' & Hc' & Hlt).
      simpl in Hc. rewrite lookup_insert_ne in Hc; [congruence|].
      intros [= Heq]. apply Hfresh. by rewrite Heq. }
  mbind H step o13 H1; minv. mbind H u8 o14 H1; minv.
  match type of H with bind _ _ ?o0 = _ => set (o_step := o0) in * end.
  assert (HPs : Pmid (w, creator) o_step) by by apply (ss_mid_step _ _ HS).
  clearbody o_step. clear HPm HPi.
  mbind H u9 o15 H1.
  2: { destruct sk; simpl in H1; [by minv; apply (ss_mid_weaken _ _ HS _ _ HPs)|].
       apply update_workflow_inv in H1. subst. by apply (ss_mid_weaken _ _ HS _ _ HPs). }
  assert (HPv : Pmid (w, creator) o15).
  { destruct sk; simpl in H1; [by minv|].
    apply update_workflow_inv in H1 as (wf1 & Hwf1 & ->).
    by eapply (ss_mid_graph _ _ HS). }
  clear H1 HPs.
  mbind H u10 o16 H1.
  2: { destruct es as [[|e0 es0]|]; [by minv; apply (ss_mid_weaken _ _ HS _ _ HPv)| |
                                   by minv; apply (ss_mid_weaken _ _ HS _ _ HPv)].
       eapply (for_each_triple (Pmid (w, creator)) P) in H1; [done| |exact HPv].
       intros x s r0 s' _. apply spawn_edge_stable. }
  assert (HPe : Pmid (w, creator) o16).
  { destruct es as [[|e0 es0]|]; [by minv| |by minv].
    eapply (for_each_triple (Pmid (w, creator)) P) in H1; [done| |exact HPv].
    intros x s r0 s' _. apply spawn_edge_stable. }
  clear H1 HPv.
  pose proof (ss_mid_weaken _ _ HS _ _ HPe) as HPe0.
  mbind H wf' o17 H1; minv; [|done].
  mbind H u11 o18 H1; apply (guard_stable _ _ _ _ _ _ HPe0) in H1; [|done].
  destruct H1 as [_ ->].
  mbind H u12 o19 H1.
  2: { destruct (is_not_None d); [|by minv].
       mbind H1 wf2 o20 H2; minv; [|done].
       destruct (negb _); [|by minv].
       apply enqueue_inv in H1. by subst. }
  assert (HPq : Pmid (w, creator) o19).
  { destruct (is_not_None d); [|by minv].
    mbind H1 wf2 o20 H2; minv.
    destruct (negb _); [|by minv].
    apply enqueue_inv in H1 as (q & _ & ->). by apply (ss_mid_queue _ _ HS). }
  minv. by apply (ss_commit _ _ HS).
Qed.

End spawn_stable.

(** *** What a task body keeps *)

Section body_stable.
Context (P : Orchestrator → Prop) (Pmid : string * string → Orchestrator → Prop).
Context (HS : SpawnStable P Pmid).
Context (Hemit : ∀ o ev, plain ev → P o → P (emit ev o)).
Context (Hcomplete : ∀ o key s v,
  P o → task_status o !! key = Some s → active s = true →
  P (put_output key v
       (put_status key done (emit (EvCompleteTask key.1 key.2 v) o)))).

Lemma complete_task_stable (w t : string) (res : value) (o o' : Orchestrator)
    (r : outcome unit) :
  P o → complete_task w t res o = (r, o') → P o'.
Proof using Hemit Hcomplete.
  intros Ho H. unfold complete_task in H.
  mbind H st o1 H1; minv; [|done].
  mbind H u o2 H1; minv.
  destruct (active st) eqn:Hact; simpl in H.
  - mbind H u' o3 H1; minv. by eapply (Hcomplete o (w, t)).
  - minv. by apply Hemit.
Qed.

(** A body only reaches the orchestrator through [spawn_task],
    [complete_task] and status queries. *)
Lemma run_body_stable (p : prog) (o o' : Orchestrator) (r : outcome value) :
  P o → run_body p o = (r, o') → P o'.
Proof using HS Hemit Hcomplete.
  revert o o' r.
  induction p as [v|e|w c t es d sk k IH|w c t es d sk k IHk h IHh
                 |w t v k IH|w t v k IHk h IHh|w t k IH];
    intros o o' r HP H; simpl in H.
  - by minv.
  - by minv.
  - mbind H u o1 H1; [|by eapply spawn_task_stable].
    eapply IH; [|exact H]. by eapply spawn_task_stable.
  - destruct (spawn_task w c t es d sk o) as [[u|e] o1] eqn:Hs.
    + eapply IHk; [|exact H]. by eapply spawn_task_stable.
    + eapply IHh; [|exact H]. by eapply spawn_task_stable.
  - mbind H u o1 H1; [|by eapply complete_task_stable].
    eapply IH; [|exact H]. by eapply complete_task_stable.
  - destruct (complete_task w t v o) as [[u|e] o1] eqn:Hs.
    + eapply IHk; [|exact H]. by eapply complete_task_stable.
    + eapply IHh; [|exact H]. by eapply complete_task_stable.
  - mbind H x o1 H1; minv. by eapply IH.
Qed.

End body_stable.

(** *** A dispatched task is not pending again while its body runs *)

Lemma in_tasks_frame (o o' : Orchestrator) (key : string * string) :
  workflows o' = workflows o → in_tasks o key → in_tasks o' key.
Proof. unfold in_tasks. by intros ->. Qed.

Lemma in_tasks_graph (o : Orchestrator) (w : string) (wf wf' : Workflow)
    (key : string * string) :
  workflows o !! w = Some wf → tasks wf' = tasks wf →
  in_tasks o key → in_tasks (put_workflow w wf' o) key.
Proof.
  intros Hwf Ht (wf0 & Hwf0 & Hin). unfold in_tasks. simpl.
  destruct (decide (key.1 = w)) as [Heq|Hne].
  - rewrite Heq, lookup_insert_eq. exists wf'. split; [done|].
    rewrite Ht. rewrite Heq in Hwf0. congruence.
  - rewrite lookup_insert_ne by done. by exists wf0.
Qed.

Lemma in_tasks_inserted (o : Orchestrator) (w : string) (wf : Workflow) (t : Task)
    (key : string * string) :
  workflows o !! w = Some wf →
  in_tasks o key → in_tasks (inserted w t wf o) key.
Proof.
  intros Hwf (wf0 & Hwf0 & Hin). unfold in_tasks, inserted. simpl.
  destruct (decide (key.1 = w)) as [Heq|Hne].
  - rewrite Heq, lookup_insert_eq. eexists. split; [done|]. simpl.
    apply dict_keys_set. right. rewrite Heq in Hwf0. congruence.
  - rewrite lookup_insert_ne by done. by exists wf0.
Qed.

Lemma in_tasks_inserted_new (o : Orchestrator) (w : string) (wf : Workflow) (t : Task) :
  in_tasks (inserted w t wf o) (w, task_id t).
Proof.
  unfold in_tasks, inserted. simpl. rewrite lookup_insert_eq.
  eexists. split; [done|]. simpl. apply dict_keys_set. by left.
Qed.

(** A key that names a task differs from the key of a task about to be
    inserted. *)
Lemma in_tasks_fresh_ne (o : Orchestrator) (w : string) (wf : Workflow) (t : Task)
    (key : string * string) :
  workflows o !! w = Some wf → task_id t ∉ dict_keys (tasks wf) →
  in_tasks o key → (w, task_id t) ≠ key.
Proof.
  intros Hwf Hfresh (wf0 & Hwf0 & Hin) <-. simpl in *.
  apply Hfresh. congruence.
Qed.

Lemma getitem_in_tasks (o : Orchestrator) (w t : string) (wf : Workflow)
    (task : Task) :
  workflows o !! w = Some wf →
  Ok task = getitem (dict_get t (tasks wf)) t →
  in_tasks o (w, t).
Proof.
  intros Hwf Hget. exists wf. split; [done|]. simpl.
  symmetry in Hget. apply getitem_ok in Hget.
  apply dict_get_is_Some. by rewrite Hget.
Qed.

Lemma live_spawn_stable (key : string * string) :
  SpawnStable (live key) (λ _, live key).
Proof.
  split; try done.
  - intros o key' s [Hin (s0 & Hs0 & Hrf)] Hs Hact. split; [done|]. simpl.
    destruct (decide (key' = key)) as [->|Hne].
    + rewrite lookup_insert_eq. by exists failed.
    + rewrite lookup_insert_ne by done. eauto.
  - intros o w wf t [Hin (s0 & Hs0 & Hrf)] Hwf Hfresh.
    split; [by apply in_tasks_inserted|]. simpl.
    rewrite lookup_insert_ne by by eapply in_tasks_fresh_ne. eauto.
  - intros o k w wf wf' [Hin Hst] Hwf Ht. split; [|done].
    by eapply in_tasks_graph.
Qed.

Lemma live_emit (key : string * string) (o : Orchestrator) (ev : event) :
  plain ev → live key o → live key (emit ev o).
Proof. by intros _ [Hin Hst]. Qed.

Lemma live_complete (key : string * string) (o : Orchestrator)
    (key' : string * string) (s : status) (v : value) :
  live key o → task_status o !! key' = Some s → active s = true →
  live key (put_output key' v
              (put_status key' done (emit (EvCompleteTask key'.1 key'.2 v) o))).
Proof.
  intros [Hin (s0 & Hs0 & Hne)] _ _. split; [done|]. simpl.
  destruct (decide (key' = key)) as [->|Hn].
  - rewrite lookup_insert_eq. by exists done.
  - rewrite lookup_insert_ne by done. eauto.
Qed.

(** A read written in place, [(λ o, (f o, o))]: name its result and keep
    the state. *)
Ltac mread H :=
  simpl in H;
  let Hr := fresh "Hread" in
  let Hs := fresh "Hs" in
  injection H as Hr Hs;
  match type of Hs with _ = ?b => subst b end.

(** *** Properties kept by every operation *)

Section stable.
Context (P : Orchestrator → Prop) (Pmid : string * string → Orchestrator → Prop).
Context (HP : Stable P Pmid).

Let HS : SpawnStable P Pmid := st_spawn _ _ HP.
Let Hemit := st_emit _ _ HP.
Let Hcomplete := st_complete _ _ HP.

Lemma register_workflow_stable (wf : Workflow) (o o' : Orchestrator) (r : outcome unit) :
  P o → register_workflow wf o = (r, o') → P o'.
Proof using HP.
  intros Ho H.
  destruct (workflows o !! workflow_id wf) as [wf0|] eqn:Hknown.
  - unfold register_workflow in H. mbind H known o1 H1; minv.
    rewrite bool_decide_eq_true_2 in H by by rewrite Hknown. by minv.
  - replace o' with (register_workflow wf o).2 by by rewrite H.
    by apply (st_register _ _ HP).
Qed.

Lemma task_runner_stable (w t : string) (inp : value) (o o' : Orchestrator)
    (r : outcome unit) :
  P o → task_status o !! (w, t) = Some pending →
  task_runner w t inp (put_input (w, t) inp (put_status (w, t) running o)) = (r, o') →
  P o'.
Proof using HP.
  intros Ho Hpend H. unfold task_runner in H.
  set (o1 := put_input (w, t) inp (put_status (w, t) running o)) in *.
  assert (Ho1 : P o1) by by apply (st_dispatch _ _ HP).
  assert (Hrun : task_status o1 !! (w, t) = Some running)
    by apply lookup_insert_eq.
  match type of H with
  | match ?c o1 with _ => _ end = _ => destruct (c o1) as [[u|e] o2] eqn:Htry
  end.
  - (* the body returned and [complete_task] ran *)
    simplify_eq.
    mbind_ok Htry wf o3 H1; minv. mbind_ok Htry task_obj o4 H1; minv.
    mbind_ok Htry u' o5 H1; minv. mbind_ok Htry res o6 H1.
    eapply (complete_task_stable P Hemit Hcomplete); [|exact Htry].
    eapply (run_body_stable _ _ HS Hemit Hcomplete); [|exact H1].
    apply (st_invoke _ _ HP o (w, t)); [done..|].
    by eapply getitem_in_tasks.
  - (* something was raised *)
    simplify_eq.
    mbind Htry wf o3 H1; minv;
      [|apply (st_handler _ _ HP _ (w, t) running); by eauto].
    mbind Htry task_obj o4 H1; minv;
      [|apply (st_handler _ _ HP _ (w, t) running); by eauto].
    mbind Htry u' o5 H1; minv.
    set (o2' := emit (EvInvoked w t inp) o1) in *.
    assert (Hin : in_tasks o (w, t)) by by eapply getitem_in_tasks.
    assert (Ho2 : P o2') by by apply (st_invoke _ _ HP o (w, t)).
    assert (Hl2 : live (w, t) o2') by (split; [done|by exists running]).
    mbind Htry res o6 H1.
    + (* [complete_task] raised: impossible, the status is there *)
      pose proof (run_body_stable _ _ (live_spawn_stable (w, t))
                    (live_emit (w, t)) (live_complete (w, t)) _ _ _ _ Hl2 H1)
        as [_ (s & Hs & _)].
      unfold complete_task in Htry. mbind Htry st o7 H2; minv.
      * mbind Htry u'' o8 H2; minv.
        destruct (active st); simpl in Htry; [|by minv].
        mbind Htry u3 o9 H2; by minv.
      * match goal with
        | Hg : Exc _ = getitem (task_status _ !! _) _ |- _ =>
            rewrite Hs in Hg; discriminate Hg
        end.
    + pose proof (run_body_stable _ _ (live_spawn_stable (w, t))
                    (live_emit (w, t)) (live_complete (w, t)) _ _ _ _ Hl2 H1)
        as [_ (s & Hs & Hrf)].
      apply (st_handler _ _ HP _ (w, t) s); [|done..].
      by eapply (run_body_stable _ _ HS Hemit Hcomplete).
Qed.

Lemma spawn_parallel_stable (w t : string) (inp : value) (o o' : Orchestrator)
    (r : outcome unit) :
  P o → spawn_parallel w t inp o = (r, o') → P o'.
Proof using HP.
  intros Ho H. unfold spawn_parallel in H.
  mbind H st o1 H1; minv; [|done].
  case_bool_decide as Hst; [|by minv]. subst st.
  mbind H u o2 H1; minv. mbind H u' o3 H1; minv.
  by eapply task_runner_stable.
Qed.

Lemma visualize_stable (w : string) (o o' : Orchestrator) (r : outcome unit) :
  P o → visualize w o = (r, o') → P o'.
Proof using HP.
  intros Ho H. unfold visualize in H.
  mbind H known o1 H1; minv.
  destruct (workflows o !! w) as [wf|]; [|by minv].
  assert (Hloop : ∀ l s r' s',
    P s → for_each l (λ t_id,
      s0 <- the_status (w, t_id) ;;
      if negb (bool_decide (s0 = pending))
      then (λ o0, (getitem (execution_history o0 !! (w, t_id)) (key_repr (w, t_id)), o0))
           ;;; ret tt
      else ret tt) s = (r', s') → P s').
  { intros l s r' s' Hs Hl. eapply for_each_invariant; [|exact Hs|exact Hl].
    clear. intros x s r s' _ Hs Hb. simpl in Hb.
    mbind Hb s0 o1 H1; minv; [|done].
    destruct (negb _); [|by minv].
    mbind Hb u o2 H2; mread H2; [by minv|done]. }
  mbind H u o2 H1; [|by eapply Hloop].
  apply Hloop in H1; [|done].
  mbind H n o3 H2; mread H2; [|done].
  minv. by apply (st_visualization _ _ HP).
Qed.

Lemma drain_stable (fuel : nat) (w : string) (o o' : Orchestrator) (r : outcome unit) :
  P o → drain fuel w o = (r, o') → P o'.
Proof using HP.
  revert o o' r. induction fuel as [|fuel IH]; intros o o' r Ho H.
  - simpl in H. mbind H q o1 H1; minv; [|done].
    destruct q as [|[tid inp] q]; by minv.
  - simpl in H. mbind H q o1 H1; minv; [|done].
    destruct q as [|[tid inp] q]; [by minv|].
    mbind H u o2 H1; minv.
    assert (Ho2 : P (put_queue w q o)) by by apply (ss_queue _ _ HS).
    mbind H u' o3 H1; [|by eapply spawn_parallel_stable].
    eapply spawn_parallel_stable in H1; [|done].
    mbind H u'' o4 H2; [|exact (visualize_stable _ _ _ _ H1 H2)].
    eapply visualize_stable in H2; [|done].
    exact (IH _ _ _ H2 H).
Qed.

Lemma enqueue_stable (w : string) (x : string * value) (o o' : Orchestrator)
    (r : outcome unit) :
  P o → enqueue w x o = (r, o') → P o'.
Proof using HP.
  intros Ho H. apply enqueue_inv in H. destruct r.
  - destruct H as (q & _ & ->). by apply (ss_queue _ _ HS).
  - by subst.
Qed.

Lemma run_helper_stable (fuel : nat) (w : string) (o o' : Orchestrator)
    (r : outcome unit) :
  P o → run_helper fuel w o = (r, o') → P o'.
Proof using HP.
  intros Ho H. unfold run_helper in H.
  mbind H wf o1 H1; minv; [|done].
  mbind H step o2 H2; mread H2; [|done].
  mbind H found o3 H3; mread H3; [|done].
  mbind H u o4 Hfor.
  - eapply drain_stable; [|exact H].
    eapply for_each_invariant; [|exact Ho|exact Hfor].
    intros x s r' s' _ Hs Hb. simpl in Hb.
    mbind Hb u' o5 H2; [|by eapply enqueue_stable].
    minv. apply (st_step _ _ HP). by eapply enqueue_stable.
  - eapply for_each_invariant; [|exact Ho|exact Hfor].
    intros x s r' s' _ Hs Hb. simpl in Hb.
    mbind Hb u' o5 H2; [|by eapply enqueue_stable].
    minv. apply (st_step _ _ HP). by eapply enqueue_stable.
Qed.

Lemma scheduling_loop_stable (n fuel : nat) (w : string) (o o' : Orchestrator)
    (r : outcome unit) :
  P o → scheduling_loop n fuel w o = (r, o') → P o'.
Proof using HP.
  revert o o' r. induction n as [|n IH]; intros o o' r Ho H; simpl in H.
  - by minv.
  - mbind H u o1 H1; [|by eapply run_helper_stable].
    eapply run_helper_stable in H1; [|done].
    mbind H wf o2 H2; minv; [|done].
    mbind H sts o3 H3; mread H3; [|done].
    destruct (forallb terminal sts).
    + minv. by apply (st_emit _ _ HP).
    + exact (IH _ _ _ H1 H).
Qed.

Lemma run_workflow_stable (fuel : nat) (w : string) (inp : gmap string value)
    (o o' : Orchestrator) (r : outcome unit) :
  P o → run_workflow fuel w inp o = (r, o') → P o'.
Proof using HP.
  intros Ho H. unfold run_workflow in H.
  mbind H known o1 H1; minv.
  destruct (negb _); [by minv|].
  mbind H rl o2 H2; mread H2; [|done].
  destruct rl; [by minv|].
  mbind H u o3 H1; minv.
  assert (Ho3 : P (put_running w true o)) by by apply (ss_running _ _ HS).
  mbind H wf o4 H1; minv; [|done].
  assert (Hroots : ∀ o5 r5,
    seed_roots w wf inp (put_running w true o) = (r5, o5) → P o5).
  { intros o5 r5 Hl. unfold seed_roots in Hl.
    eapply for_each_invariant; [|exact Ho3|exact Hl].
    intros x s r' s' _ Hs Hb. simpl in Hb.
    destruct (negb _); [by eapply enqueue_stable | by minv]. }
  mbind H u' o5 H1; [|by eapply Hroots].
  apply Hroots in H1.
  mbind H u'' o6 H2; [|exact (scheduling_loop_stable _ _ _ _ _ _ H1 H2)].
  eapply scheduling_loop_stable in H2; [|done].
  minv. by apply (ss_running _ _ HS).
Qed.

End stable.

(** ** Registration *)

Lemma register_loop (w : string) (ids : list string) (o : Orchestrator) :
  for_each ids (λ t_id,
    modify (put_status (w, t_id) pending) ;;;
    modify (put_spawn_count (w, t_id) 0)) o
  = (Ok tt, register_entries w ids o).
Proof.
  revert o. induction ids as [|t ids IH]; intros o; [done|].
  simpl. unfold bind at 1. simpl. apply IH.
Qed.

Lemma register_workflow_fresh (wf : Workflow) (o : Orchestrator) :
  workflows o !! workflow_id wf = None →
  register_workflow wf o = (Ok tt, register_state wf o).
Proof.
  intros Hfresh. unfold register_workflow, bind at 1. simpl.
  rewrite bool_decide_eq_false_2 by (rewrite Hfresh; by intros [? ?]).
  unfold bind at 1. simpl. unfold bind at 1. rewrite register_loop. done.
Qed.

Lemma register_workflow_known (wf wf0 : Workflow) (o : Orchestrator) :
  workflows o !! workflow_id wf = Some wf0 →
  register_workflow wf o
  = (Exc (ValueError ("Workflow " +:+ workflow_id wf +:+ " already registered.")), o).
Proof.
  intros Hknown. unfold register_workflow, bind at 1. simpl.
  rewrite bool_decide_eq_true_2 by by rewrite Hknown. done.
Qed.

Lemma register_entries_workflows (w : string) (ids : list string) (o : Orchestrator) :
  workflows (register_entries w ids o) = workflows o
  ∧ task_outputs (register_entries w ids o) = task_outputs o
  ∧ trace (register_entries w ids o) = trace o.
Proof.
  revert o. induction ids as [|t ids IH]; intros o; [done|]. simpl.
  destruct (IH (put_spawn_count (w, t) 0 (put_status (w, t) pending o)))
    as (-> & -> & ->). done.
Qed.

Lemma register_entries_status (w : string) (ids : list string) (o : Orchestrator)
    (key : string * string) :
  task_status (register_entries w ids o) !! key
  = if bool_decide (key.1 = w ∧ key.2 ∈ ids) then Some pending
    else task_status o !! key.
Proof.
  revert o. induction ids as [|t ids IH]; intros o; simpl.
  - rewrite bool_decide_eq_false_2; [done|]. intros [_ H]. by apply elem_of_nil in H.
  - rewrite IH. simpl. destruct key as [w' t']. simpl.
    destruct (decide (w' = w ∧ t' ∈ ids)) as [[-> Hin]|Hn].
    + rewrite !bool_decide_eq_true_2; [done| |done]. split; [done|by right].
    + rewrite (bool_decide_eq_false_2 _ Hn).
      destruct (decide ((w, t) = (w', t'))) as [[= <- <-]|Hne].
      * rewrite lookup_insert_eq, bool_decide_eq_true_2; [done|].
        split; [done|left].
      * rewrite lookup_insert_ne by done.
        rewrite bool_decide_eq_false_2; [done|].
        intros [-> [->|Hin]%elem_of_cons]; [by apply Hne | by apply Hn].
Qed.

Lemma register_entries_counts (w : string) (ids : list string) (o : Orchestrator)
    (key : string * string) :
  spawn_counts (register_entries w ids o) !! key
  = if bool_decide (key.1 = w ∧ key.2 ∈ ids) then Some 0%Z
    else spawn_counts o !! key.
Proof.
  revert o. induction ids as [|t ids IH]; intros o; simpl.
  - rewrite bool_decide_eq_false_2; [done|]. intros [_ H]. by apply elem_of_nil in H.
  - rewrite IH. simpl. destruct key as [w' t']. simpl.
    destruct (decide (w' = w ∧ t' ∈ ids)) as [[-> Hin]|Hn].
    + rewrite !bool_decide_eq_true_2; [done| |done]. split; [done|by right].
    + rewrite (bool_decide_eq_false_2 _ Hn).
      destruct (decide ((w, t) = (w', t'))) as [[= <- <-]|Hne].
      * rewrite lookup_insert_eq, bool_decide_eq_true_2; [done|].
        split; [done|left].
      * rewrite lookup_insert_ne by done.
        rewrite bool_decide_eq_false_2; [done|].
        intros [-> [->|Hin]%elem_of_cons]; [by apply Hne | by apply Hn].
Qed.

Lemma register_state_status (wf : Workflow) (o : Orchestrator) (key : string * string) :
  task_status (register_state wf o) !! key
  = if bool_decide (key.1 = workflow_id wf ∧ key.2 ∈ dict_keys (tasks wf))
    then Some pending else task_status o !! key.
Proof. unfold register_state. simpl. by rewrite register_entries_status. Qed.

Lemma register_state_counts (wf : Workflow) (o : Orchestrator) (key : string * string) :
  spawn_counts (register_state wf o) !! key
  = if bool_decide (key.1 = workflow_id wf ∧ key.2 ∈ dict_keys (tasks wf))
    then Some 0%Z else spawn_counts o !! key.
Proof. unfold register_state. simpl. by rewrite register_entries_counts. Qed.

Lemma register_state_workflows (wf : Workflow) (o : Orchestrator) :
  workflows (register_state wf o) = <[workflow_id wf := wf]> (workflows o).
Proof.
  unfold register_state. simpl.
  by destruct (register_entries_workflows (workflow_id wf) (dict_keys (tasks wf))
                 (put_workflow (workflow_id wf) wf o)) as (-> & _ & _).
Qed.

Lemma register_state_outputs (wf : Workflow) (o : Orchestrator) :
  task_outputs (register_state wf o) = task_outputs o.
Proof.
  unfold register_state. simpl.
  by destruct (register_entries_workflows (workflow_id wf) (dict_keys (tasks wf))
                 (put_workflow (workflow_id wf) wf o)) as (_ & -> & _).
Qed.

Lemma register_state_trace (wf : Workflow) (o : Orchestrator) :
  trace (register_state wf o)
  = EvReceived (workflow_id wf) (length (tasks wf)) (length (edges wf)) :: trace o.
Proof.
  unfold register_state. simpl.
  by destruct (register_entries_workflows (workflow_id wf) (dict_keys (tasks wf))
                 (put_workflow (workflow_id wf) wf o)) as (_ & _ & ->).
Qed.

Lemma register_state_snd (wf : Workflow) (o : Orchestrator) :
  workflows o !! workflow_id wf = None →
  (register_workflow wf o).2 = register_state wf o.
Proof. intros H. by rewrite register_workflow_fresh. Qed.

Lemma in_tasks_register (wf : Workflow) (o : Orchestrator) (key : string * string) :
  workflows o !! workflow_id wf = None →
  in_tasks o key → in_tasks (register_state wf o) key ∧ key.1 ≠ workflow_id wf.
Proof.
  intros Hfresh (wf0 & Hwf0 & Hin).
  assert (key.1 ≠ workflow_id wf) by congruence.
  split; [|done]. exists wf0.
  by rewrite register_state_workflows, lookup_insert_ne.
Qed.

(** ** What a terminal task keeps *)

Lemma kept_refl (o : Orchestrator) : kept o o.
Proof. split; [done|]. intros key s _ Hs _. split; [by left|done]. Qed.

Lemma active_terminal (s : status) : active s = true → terminal s = true → False.
Proof. by destruct s. Qed.

(** Changing the status of a task that is not terminal, or marking a
    terminal task failed, keeps [kept]. *)
Lemma kept_put_status (o0 o : Orchestrator) (key : string * string) (s s' : status) :
  kept o0 o → task_status o !! key = Some s →
  (terminal s = true → s' = s ∨ s' = failed) →
  kept o0 (put_status key s' o).
Proof.
  intros [Hin Hk] Hs Hsame. split; [done|].
  intros key' s0 Hin' Hs0 Hterm. destruct (Hk _ _ Hin' Hs0 Hterm) as [Hst Hout].
  split; [|done]. simpl.
  destruct (decide (key = key')) as [->|Hne]; [|by rewrite lookup_insert_ne].
  rewrite lookup_insert_eq. rewrite Hs in Hst.
  destruct Hst as [[= ->]|[= ->]].
  - destruct (Hsame Hterm) as [-> | ->]; [by left|by right].
  - destruct (Hsame eq_refl) as [-> | ->]; by right.
Qed.

Lemma kept_spawn_stable (o0 : Orchestrator) : SpawnStable (kept o0) (λ _, kept o0).
Proof.
  split; try done.
  - intros o key s Hk Hs Hact. eapply kept_put_status; [done..|].
    intros Hterm. by destruct (active_terminal s).
  - intros o w wf t [Hin Hk] Hwf Hfresh. split.
    + intros key Hkey. by apply in_tasks_inserted, Hin.
    + intros key s Hkey Hs Hterm. destruct (Hk _ _ Hkey Hs Hterm) as [Hst Hout].
      split; [|done]. simpl. rewrite lookup_insert_ne; [done|].
      eapply in_tasks_fresh_ne; [done..|]. by apply Hin.
  - intros o k w wf wf' [Hin Hk] Hwf Ht. split; [|done].
    intros key Hkey. eapply in_tasks_graph; [done..|]. by apply Hin.
Qed.

Lemma kept_stable (o0 : Orchestrator) : Stable (kept o0) (λ _, kept o0).
Proof.
  split; try done.
  - apply kept_spawn_stable.
  - intros o wf Hfresh [Hin Hk]. rewrite register_state_snd by done. split.
    + intros key Hkey. by apply in_tasks_register, Hin.
    + intros key s Hkey Hs Hterm. destruct (Hk _ _ Hkey Hs Hterm) as [Hst Hout].
      rewrite register_state_status, register_state_outputs.
      rewrite bool_decide_eq_false_2; [done|]. intros [Heq _].
      by destruct (in_tasks_register wf o key Hfresh (Hin _ Hkey)).
  - intros o key s v [Hin Hk] Hs Hact. split; [done|].
    intros key' s0 Hkey Hs0 Hterm. destruct (Hk _ _ Hkey Hs0 Hterm) as [Hst Hout].
    simpl. destruct (decide (key = key')) as [->|Hne].
    + rewrite Hs in Hst. destruct Hst as [[= ->]|[= ->]]; [|done].
      by destruct (active_terminal s0).
    + by rewrite !lookup_insert_ne.
  - intros o key inp Hk Hs.
    apply (kept_put_status o0 o key pending running Hk Hs). done.
  - intros o key inp Hk Hs _.
    apply (kept_put_status o0 o key pending running Hk Hs). done.
  - intros o key s e Hk Hs Hrf.
    apply (kept_put_status o0 (emit _ o) key s failed); [done..|].
    intros Hterm. by right.
Qed.

(** ** Invariants of the reachable states *)

Lemma invoked_plain (ev : event) (tr : list event) :
  plain ev → invoked (ev :: tr) = invoked tr.
Proof. by destruct ev. Qed.

Lemma invoked_call (w t : string) (inp : value) (tr : list event) :
  invoked (EvInvoked w t inp :: tr) = (w, t) :: invoked tr.
Proof. done. Qed.

Lemma invoked_spawn_added (w n c : string) (tr : list event) :
  invoked (EvSpawnAdded w n c :: tr) = invoked tr.
Proof. done. Qed.

(** Overwriting the status of a key that has one, with a status other than
    [pending], where no output forbids it. *)
Lemma Inv_put_status (o : Orchestrator) (key : string * string) (s s' : status) :
  Inv o → task_status o !! key = Some s →
  s' ≠ pending → (terminal s = true → terminal s' = true) →
  Inv (put_status key s' o).
Proof.
  intros [HD HO HN1 HN2 HC] Hs Hnp Hterm. split; simpl.
  - intros key' s0. destruct (decide (key = key')) as [->|Hne].
    + intros _. by apply (HD _ _ Hs).
    + rewrite lookup_insert_ne by done. apply HD.
  - intros key' v Hv. destruct (HO _ _ Hv) as (s0 & Hs0 & Ht0).
    destruct (decide (key = key')) as [->|Hne];
      [|rewrite lookup_insert_ne by done; eauto].
    rewrite lookup_insert_eq. rewrite Hs in Hs0. injection Hs0 as ->.
    exists s'. split; [done|by apply Hterm].
  - done.
  - intros key' Hin. destruct (HN2 _ Hin) as (s0 & Hs0 & Hne0).
    destruct (decide (key = key')) as [->|Hne].
    + rewrite lookup_insert_eq. eauto.
    + rewrite lookup_insert_ne by done. eauto.
  - done.
Qed.

(** An event other than a body call and a completed spawn. *)
Lemma Inv_emit (o : Orchestrator) (ev : event) : plain ev → Inv o → Inv (emit ev o).
Proof.
  intros Hplain [HD HO HN1 HN2 HC].
  split; [done|done|..]; change (trace (emit ev o)) with (ev :: trace o).
  - by rewrite invoked_plain.
  - by rewrite invoked_plain.
  - intros key v Hv. right. by apply HC.
Qed.

Lemma Inv_spawn_stable : SpawnStable Inv (λ _, Inv).
Proof.
  split; try done.
  - intros o w q [HD HO HN1 HN2 HC]. by split.
  - intros o w b [HD HO HN1 HN2 HC]. by split.
  - intros o key s HI Hs Hact. eapply Inv_put_status; [done..| |]; [done|].
    by intros _.
  - intros o w wf t [HD HO HN1 HN2 HC] Hwf Hfresh. split; simpl.
    + intros key s. destruct (decide ((w, task_id t) = key)) as [<-|Hne].
      * intros _. apply in_tasks_inserted_new.
      * rewrite lookup_insert_ne by done. intros Hs.
        by eapply in_tasks_inserted, HD.
    + intros key v Hv. destruct (HO _ _ Hv) as (s0 & Hs0 & Ht0).
      rewrite lookup_insert_ne; [eauto|].
      eapply in_tasks_fresh_ne; [done..|]. by eapply HD.
    + done.
    + intros key Hin. destruct (HN2 _ Hin) as (s0 & Hs0 & Hne0).
      rewrite lookup_insert_ne; [eauto|].
      eapply in_tasks_fresh_ne; [done..|]. by eapply HD.
    + done.
  - intros o key c [HD HO HN1 HN2 HC] _ _ _. by split.
  - intros o key key' n [HD HO HN1 HN2 HC]. by split.
  - intros o key w wf wf' [HD HO HN1 HN2 HC] Hwf Ht. split; try done.
    intros key' s Hs. eapply in_tasks_graph; [done..|]. by eapply HD.
  - intros o key w q [HD HO HN1 HN2 HC]. by split.
  - intros o w n c [HD HO HN1 HN2 HC]. split; try done.
    intros key v Hv. right. by apply HC.
Qed.

Lemma Inv_stable : Stable Inv (λ _, Inv).
Proof.
  split.
  - apply Inv_spawn_stable.
  - intros o key n [HD HO HN1 HN2 HC]. by split.
  - intros o w n [HD HO HN1 HN2 HC]. by split.
  - intros o ev Hplain HI. by apply Inv_emit.
  - intros o wf Hfresh [HD HO HN1 HN2 HC]. rewrite register_state_snd by done.
    split.
    + intros key s. rewrite register_state_status. case_bool_decide as Hk.
      * intros _. destruct Hk as [Hw Hin]. exists wf.
        by rewrite register_state_workflows, Hw, lookup_insert_eq.
      * intros Hs. by eapply in_tasks_register, HD.
    + intros key v. rewrite register_state_outputs, register_state_status.
      intros Hv. destruct (HO _ _ Hv) as (s0 & Hs0 & Ht0).
      rewrite bool_decide_eq_false_2; [eauto|]. intros [Heq _].
      by destruct (in_tasks_register wf o key Hfresh (HD _ _ Hs0)).
    + by rewrite register_state_trace, invoked_plain.
    + intros key. rewrite register_state_trace, invoked_plain by done.
      intros Hin. destruct (HN2 _ Hin) as (s0 & Hs0 & Hne0).
      rewrite register_state_status.
      rewrite bool_decide_eq_false_2; [eauto|]. intros [Heq _].
      by destruct (in_tasks_register wf o key Hfresh (HD _ _ Hs0)).
    + intros key v. rewrite register_state_outputs, register_state_trace.
      intros Hv. right. by apply HC.
  - intros o key s v HI Hs Hact.
    assert (HI' : Inv (put_status key done (emit (EvCompleteTask key.1 key.2 v) o))).
    { eapply Inv_put_status; [by apply Inv_emit|exact Hs|done|done]. }
    destruct HI' as [HD HO HN1 HN2 HC]. split; try done; simpl.
    + intros key' v'. destruct (decide (key = key')) as [->|Hne].
      * intros _. exists done. split; [apply lookup_insert_eq|done].
      * rewrite lookup_insert_ne by done. apply HO.
    + intros key' v'. destruct (decide (key = key')) as [->|Hne].
      * rewrite lookup_insert_eq. intros [= ->]. left.
      * rewrite lookup_insert_ne by done. apply HC.
  - intros o key inp HI Hs.
    assert (HI' : Inv (put_status key running o))
      by (eapply Inv_put_status; done).
    destruct HI' as [HD HO HN1 HN2 HC]. by split.
  - intros o key inp HI Hs Hin.
    assert (HI' : Inv (put_status key running o))
      by (eapply Inv_put_status; done).
    destruct HI as [_ _ _ HN2o _].
    destruct HI' as [HD HO HN1 HN2 HC]. destruct key as [w t].
    cbn [fst snd]. split; simpl; try done.
    + rewrite invoked_call. constructor; [|done].
      intros Hold. destruct (HN2o _ Hold) as (s0 & Hs0 & Hne0). congruence.
    + rewrite invoked_call.
      intros key'. rewrite elem_of_cons. intros [->|Hold]; [|by apply HN2].
      rewrite lookup_insert_eq. eauto.
    + intros key' v' Hv. right. by apply HC.
  - intros o key s e HI Hs Hrf.
    apply (Inv_put_status (emit _ o) key s failed); [|done|done|].
    + by apply Inv_emit.
    + by intros _.
Qed.

(** ** Calls and reachable states *)

Lemma call_stable (P : Orchestrator → Prop)
    (Pmid : string * string → Orchestrator → Prop) (o o' : Orchestrator) :
  Stable P Pmid → P o → call o o' → P o'.
Proof.
  intros HP Ho [wf r H|fuel w inp r H|fuel w r H|w t inp r H|w t res r H
               |w c t es d sk r H|w m r H|w r H].
  - by eapply register_workflow_stable.
  - by eapply run_workflow_stable.
  - by eapply run_helper_stable.
  - by eapply spawn_parallel_stable.
  - exact (complete_task_stable P (st_emit _ _ HP) (st_complete _ _ HP)
             _ _ _ _ _ _ Ho H).
  - eapply spawn_task_stable; [|done|done]. by destruct HP.
  - eapply fail_workflow_stable; [|done|done]. by destruct HP.
  - by eapply visualize_stable.
Qed.

Lemma calls_stable (P : Orchestrator → Prop)
    (Pmid : string * string → Orchestrator → Prop) (o o' : Orchestrator) :
  Stable P Pmid → P o → rtc call o o' → P o'.
Proof.
  intros HP Ho Hcalls. induction Hcalls as [|o o1 o' Hc _ IH]; [done|].
  apply IH. by eapply call_stable.
Qed.

Lemma Inv_init : Inv Orchestrator_init.
Proof.
  split; simpl.
  - intros key s H. by rewrite lookup_empty in H.
  - intros key v H. by rewrite lookup_empty in H.
  - constructor.
  - intros key H. by apply elem_of_nil in H.
  - intros key v H. by rewrite lookup_empty in H.
Qed.

Lemma reachable_Inv (o : Orchestrator) : reachable o → Inv o.
Proof. apply calls_stable with (Pmid := λ _, Inv); [apply Inv_stable | apply Inv_init]. Qed.

(** ** Terminal statuses are final *)

(** C7 does not hold of the code. [complete_task] and [fail_workflow] test
    the status before they write it, the handler of [task_runner] does not:
    the body of [P] in [selfdone_wf] calls [complete_task] for its own task
    with the result 42 and then raises. When the body raises, [P] is done
    with output 42; the handler then marks it failed, and the dispatch
    returns with [P] failed and its output still recorded. *)
Theorem completed_task_marked_failed :
  task_status selfdone_running !! ("wf", "P") = Some running
  ∧ run_body (selfdone_body "wf" "P" (VList [])) selfdone_running
    = (Exc (UserError "boom"), selfdone_raised)
  ∧ task_status selfdone_raised !! ("wf", "P") = Some done
  ∧ task_outputs selfdone_raised !! ("wf", "P") = Some (VInt 42)
  ∧ spawn_parallel "wf" "P" (VList []) selfdone_start
    = (Ok tt, put_status ("wf", "P") failed
                (emit (EvRunnerException "wf" "P" (UserError "boom")) selfdone_raised))
  ∧ task_status selfdone_mid !! ("wf", "P") = Some failed
  ∧ task_outputs selfdone_mid !! ("wf", "P") = Some (VInt 42)
  ∧ rtc call Orchestrator_init selfdone_mid.
Proof.
  split; [vm_compute; reflexivity|]. split; [vm_compute; reflexivity|].
  split; [vm_compute; reflexivity|]. split; [vm_compute; reflexivity|].
  split; [vm_compute; reflexivity|]. split; [vm_compute; reflexivity|].
  split; [vm_compute; reflexivity|].
  apply rtc_l with selfdone_start; [|apply rtc_once].
  - apply (call_register_workflow _ _ selfdone_wf
             (register_workflow selfdone_wf Orchestrator_init).1).
    apply surjective_pairing.
  - apply (call_spawn_parallel _ _ "wf" "P" (VList [])
             (spawn_parallel "wf" "P" (VList []) selfdone_start).1).
    apply surjective_pairing.
Qed.

(** X19. What holds of terminal statuses: across any sequence of calls
    ([complete_task], dispatch by [spawn_parallel] with the failure handling
    of [task_runner], the abort of [fail_workflow], [spawn_task],
    [run_helper], [run_workflow], registration) a failed task stays failed,
    a done task stays done or becomes failed, and the recorded output of
    either is never overwritten or removed. *)
Theorem terminal_stays_terminal (o o' : Orchestrator) (key : string * string)
    (s : status) :
  in_tasks o key → task_status o !! key = Some s → terminal s = true →
  rtc call o o' →
  (task_status o' !! key = Some s ∨ task_status o' !! key = Some failed)
  ∧ task_outputs o' !! key = task_outputs o !! key.
Proof.
  intros Hin Hs Hterm Hcalls.
  assert (Hk : kept o o').
  { eapply calls_stable; [apply kept_stable | apply kept_refl | done]. }
  destruct Hk as [_ Hk]. by apply Hk.
Qed.

(** ** A spawn that returns *)

Lemma fail_workflow_raises (w m : string) (o o' : Orchestrator) (u : unit) :
  fail_workflow w m o ≠ (Ok u, o').
Proof.
  intros H.
  eapply (fail_workflow_stable (λ _, True) (λ _ _, True)) in H as [_ [e He]];
    [done| |done].
  by split.
Qed.

Lemma guard_ok (b : bool) (w m : string) (o o' : Orchestrator) (u : unit) :
  (if b then fail_workflow w m else ret tt) o = (Ok u, o') → b = false ∧ o' = o.
Proof.
  destruct b; intros H; [by apply fail_workflow_raises in H | by minv].
Qed.

Lemma edge_checks_run (src_object dst_object : Task) (dst : string) (o : Orchestrator) :
  (lift (check_edge_against_policy dst_object (PyTask src_object) "incoming") ;;;
   lift (check_edge_against_policy src_object (PyStr dst) "outgoing")) o
  = (edge_checks src_object dst_object dst, o).
Proof.
  unfold edge_checks, bind, lift.
  by destruct (check_edge_against_policy dst_object _ _).
Qed.

Lemma related_test (creator new src dst : string) :
  negb (bool_decide (src ∈ [creator; new])) && negb (bool_decide (dst ∈ [creator; new]))
  = false ↔ related creator new (src, dst).
Proof.
  unfold related. simpl.
  do 2 case_bool_decide; simpl; intuition congruence.
Qed.

Lemma put_workflow_twice (w : string) (wf1 wf2 : Workflow) (o : Orchestrator) :
  put_workflow w wf2 (put_workflow w wf1 o) = put_workflow w wf2 o.
Proof. unfold put_workflow. simpl. by rewrite insert_insert_eq. Qed.

Lemma put_workflow_id (w : string) (wf : Workflow) (o : Orchestrator) :
  workflows o !! w = Some wf → put_workflow w wf o = o.
Proof.
  intros H. destruct o. unfold put_workflow. simpl in *. by rewrite insert_id.
Qed.

Lemma spawn_edge_ok (w creator new : string) (e : string * string)
    (o o' : Orchestrator) :
  spawn_edge w creator new e o = (Ok tt, o') →
  ∃ wf src_object dst_object,
    workflows o !! w = Some wf
    ∧ related creator new e
    ∧ dict_get e.1 (tasks wf) = Some src_object
    ∧ dict_get e.2 (tasks wf) = Some dst_object
    ∧ edge_checks src_object dst_object e.2 = Ok tt
    ∧ o' = put_workflow w (with_edge e wf) o.
Proof.
  destruct e as [src dst]. unfold spawn_edge. intros H.
  mbind_ok H u o1 H1. apply guard_ok in H1 as [Hrel ->].
  apply related_test in Hrel.
  mbind_ok H wf o2 H1; minv. rename Hv into Hwf.
  mbind_ok H src_object o3 H1; minv. mbind_ok H dst_object o4 H1; minv.
  symmetry in Hv, Hv0. apply getitem_ok in Hv, Hv0.
  mbind_ok H u' o5 H1.
  apply try_RuntimeError_inv in H1 as [(m & o6 & Hc & Hh)|[Hc _]];
    [by apply fail_workflow_raises in Hh|].
  rewrite edge_checks_run in Hc. simplify_eq.
  mbind_ok H u'' o7 H1. apply update_workflow_inv in H1 as (wf1 & Hwf1 & ->).
  apply update_workflow_inv in H as (wf2 & Hwf2 & ->).
  simpl in Hwf2. rewrite lookup_insert_eq in Hwf2. simplify_eq.
  destruct u'. eexists _, src_object, dst_object. repeat split; try done.
  by rewrite put_workflow_twice.
Qed.

(** All the edges of a spawn went in. *)
Lemma spawn_edges_ok (w creator new : string) (es : list (string * string))
    (wf : Workflow) (o o' : Orchestrator) :
  workflows o !! w = Some wf →
  for_each es (spawn_edge w creator new) o = (Ok tt, o') →
  Forall (λ e, related creator new e
               ∧ ∃ src_object dst_object,
                   dict_get e.1 (tasks wf) = Some src_object
                   ∧ dict_get e.2 (tasks wf) = Some dst_object
                   ∧ edge_checks src_object dst_object e.2 = Ok tt) es
  ∧ o' = put_workflow w (foldl (λ wf e, with_edge e wf) wf es) o.
Proof.
  revert wf o. induction es as [|e es IH]; intros wf o Hwf H; simpl in H.
  - minv. split; [done|]. simpl. symmetry. by apply put_workflow_id.
  - mbind_ok H u o1 H1. destruct u.
    apply spawn_edge_ok in H1
      as (wf1 & src_object & dst_object & Hwf1 & Hrel & Hsrc & Hdst & Hchk & ->).
    assert (wf1 = wf) as -> by congruence.
    apply (IH (with_edge e wf)) in H as [Hall ->];
      [|simpl; by rewrite lookup_insert_eq].
    split.
    + constructor; [by eauto 10|]. exact Hall.
    + simpl. by rewrite put_workflow_twice.
Qed.

Lemma spawn_loop_ok (w creator new : string) (es : option (list (string * string)))
    (wf : Workflow) (o o' : Orchestrator) :
  workflows o !! w = Some wf →
  match es with
  | Some (e :: es') => for_each (e :: es') (spawn_edge w creator new)
  | _ => ret tt
  end o = (Ok tt, o') →
  Forall (λ e, related creator new e
               ∧ ∃ src_object dst_object,
                   dict_get e.1 (tasks wf) = Some src_object
                   ∧ dict_get e.2 (tasks wf) = Some dst_object
                   ∧ edge_checks src_object dst_object e.2 = Ok tt) (edge_list es)
  ∧ o' = put_workflow w (foldl (λ wf e, with_edge e wf) wf (edge_list es)) o.
Proof.
  intros Hwf H. destruct es as [[|e es']|].
  - minv. split; [done|]. symmetry. by apply put_workflow_id.
  - exact (spawn_edges_ok _ _ _ (e :: es') _ _ _ Hwf H).
  - minv. split; [done|]. symmetry. by apply put_workflow_id.
Qed.

Lemma quota_check_ok (w creator : string) (quota : option Z) (o o' : Orchestrator)
    (u : unit) :
  match quota with
  | Some k =>
      c <- the_spawn_count (w, creator) ;;
      if (c >=? k)%Z
      then fail_workflow w ("Task " +:+ creator +:+ " exceeded spawn count")
      else ret tt
  | None => ret tt
  end o = (Ok u, o') →
  o' = o ∧ ∀ k, quota = Some k →
             ∃ c, spawn_counts o !! (w, creator) = Some c ∧ (c < k)%Z.
Proof.
  intros H.
  eapply (quota_check_stable (λ _, True) (λ _ _, True)) in H; [done| |done].
  by split.
Qed.

Lemma edges_with_edges (es : list (string * string)) (wf : Workflow) :
  edges (foldl (λ wf e, with_edge e wf) wf es) = edges wf ++ es
  ∧ tasks (foldl (λ wf e, with_edge e wf) wf es) = tasks wf.
Proof.
  revert wf. induction es as [|e es IH]; intros wf; simpl.
  - by rewrite app_nil_r.
  - destruct (IH (with_edge e wf)) as [-> ->]. simpl. by rewrite <- app_assoc.
Qed.

Lemma spawn_task_ok (w creator : string) (t : Task)
    (es : option (list (string * string))) (d : value) (sk : bool)
    (o o' : Orchestrator) :
  spawn_task w creator t es d sk o = (Ok tt, o') →
  ∃ wf creator_obj c,
    workflows o !! w = Some wf
    ∧ dict_get creator (tasks wf) = Some creator_obj
    ∧ spawn_counts o !! (w, creator) = Some c
    ∧ (∀ k, max_spawn_count (constraints creator_obj) = Some k → (c < k)%Z)
    ∧ check_node_against_policy creator_obj t "next" = Ok tt
    ∧ check_node_against_policy creator_obj t "previous" = Ok tt
    ∧ (task_id t ∉ dict_keys (tasks wf))
    ∧ Forall (λ e, related creator (task_id t) e
                   ∧ ∃ src_object dst_object,
                       dict_get e.1 (dict_set (task_id t) t (tasks wf)) = Some src_object
                       ∧ dict_get e.2 (dict_set (task_id t) t (tasks wf)) = Some dst_object
                       ∧ edge_checks src_object dst_object e.2 = Ok tt) (edge_list es)
    ∧ is_directed_acyclic_graph
        (build_graph (dict_keys (dict_set (task_id t) t (tasks wf)))
                     (edges wf ++ edge_list es)) = true
    ∧ ((is_not_None d && negb (existsb (λ e, String.eqb e.2 (task_id t))
                                 (edges wf ++ edge_list es))) = true →
       is_Some (ready_queue o !! w))
    ∧ o' = spawned w creator t (edge_list es) d sk wf c o.
Proof.
  intros H. unfold spawn_task in H.
  mbind_ok H wf o1 H1. apply the_workflow_ok in H1 as [Hwf ->].
  mbind_ok H u o2 H1. apply guard_ok in H1 as [Hmem ->].
  apply negb_false_iff, dict_mem_true in Hmem.
  mbind_ok H creator_obj o3 H1. apply lift_inv in H1 as [Hcre ->].
  symmetry in Hcre. apply getitem_ok in Hcre.
  mbind_ok H u' o4 H1. apply quota_check_ok in H1 as [-> Hquota].
  mbind_ok H u'' o5 H1.
  apply try_RuntimeError_inv in H1 as [(m & o6 & Hc & Hh)|[Hc _]];
    [by apply fail_workflow_raises in Hh|].
  mbind_ok Hc u3 o6 Hn1. apply lift_inv in Hn1 as [Hnext ->].
  apply lift_inv in Hc as [Hprev ->]. destruct u3, u''.
  mbind_ok H u4 o7 H1. apply guard_ok in H1 as [Hfresh ->].
  apply dict_mem_false in Hfresh.
  mbind_ok H u5 o8 H1. apply update_workflow_inv in H1 as (wf0 & Hwf0 & ->).
  assert (wf0 = wf) as -> by congruence.
  mbind_ok H u6 o9 H1; minv. mbind_ok H u7 o10 H1; minv.
  mbind_ok H c o11 H1. apply the_spawn_count_ok in H1 as [Hc ->].
  simpl in Hc. rewrite lookup_insert_ne in Hc.
  2: { intros [= Heq]. apply Hfresh. by rewrite Heq. }
  mbind_ok H u8 o12 H1; minv.
  mbind_ok H step o13 H1; minv. mbind_ok H u9 o14 H1; minv.
  mbind_ok H u10 o15 Hvis.
  mbind_ok H u11 o16 Hloop.
  mbind_ok H wf' o17 H1. apply the_workflow_ok in H1 as [Hwf' ->].
  mbind_ok H u12 o18 H1. apply guard_ok in H1 as [Hacyc ->].
  apply negb_false_iff in Hacyc.
  mbind_ok H u13 o19 Henq. minv.
  set (wf1 := set_tasks (dict_set (task_id t) t) wf) in *.
  set (wf2 := if sk then wf1
              else set_visual_edges (λ vs, vs ++ [(creator, task_id t)]) wf1).
  match type of Hvis with _ ?o0 = _ => set (o_step := o0) in * end.
  assert (Hvis' : o15 = put_workflow w wf2 o_step).
  { destruct sk; simpl in Hvis.
    - minv. symmetry. apply put_workflow_id. simpl. by rewrite lookup_insert_eq.
    - apply update_workflow_inv in Hvis as (wf3 & Hwf3 & ->).
      simpl in Hwf3. rewrite lookup_insert_eq in Hwf3. by simplify_eq. }
  subst o15.
  destruct u11.
  apply (spawn_loop_ok _ _ _ _ wf2) in Hloop as [Hall ->];
    [|simpl; by rewrite lookup_insert_eq].
  simpl in Hwf'. rewrite lookup_insert_eq in Hwf'. simplify_eq.
  destruct (edges_with_edges (edge_list es) wf2) as [Hedges Htasks].
  assert (Hedges2 : edges wf2 = edges wf) by by (unfold wf2; destruct sk).
  assert (Htasks2 : tasks wf2 = dict_set (task_id t) t (tasks wf))
    by by (unfold wf2; destruct sk).
  unfold is_acyclic in Hacyc. rewrite Hedges, Htasks, Hedges2, Htasks2 in Hacyc.
  rewrite Htasks2 in Hall.
  exists wf, creator_obj, c. repeat split; try done.
  - intros k Hk. destruct (Hquota k Hk) as (c' & Hc' & Hlt). congruence.
  - intros Hq. destruct (is_not_None d); [|done]. simpl in Hq.
    mbind_ok Henq wf'' o20 H1. apply the_workflow_ok in H1 as [Hwf'' ->].
    simpl in Hwf''. rewrite lookup_insert_eq in Hwf''. simplify_eq.
    rewrite Hedges, Hedges2 in Henq. rewrite Hq in Henq.
    apply enqueue_inv in Henq as (q & Hq' & _). simpl in Hq'. eauto.
  - unfold spawned. fold wf1. fold wf2.
    destruct (is_not_None d) eqn:Hd; simpl.
    + mbind_ok Henq wf'' o20 H1. apply the_workflow_ok in H1 as [Hwf'' ->].
      simpl in Hwf''. rewrite lookup_insert_eq in Hwf''. simplify_eq.
      rewrite Hedges, Hedges2 in Henq. rewrite Hedges, Hedges2.
      destruct (negb (existsb _ _)).
      * apply enqueue_inv in Henq as (q & Hq' & ->). simpl in Hq'. rewrite Hq'.
        unfold o_step. rewrite !put_workflow_twice. reflexivity.
      * minv. unfold o_step. rewrite !put_workflow_twice. reflexivity.
    + minv. unfold o_step. rewrite !put_workflow_twice. reflexivity.
Qed.

Lemma spawned_workflow (w creator : string) (t : Task) (es : list (string * string))
    (d : value) (sk : bool) (wf : Workflow) (c : Z) (o : Orchestrator) :
  ∃ wf', workflows (spawned w creator t es d sk wf c o) !! w = Some wf'
         ∧ edges wf' = edges wf ++ es
         ∧ tasks wf' = dict_set (task_id t) t (tasks wf).
Proof.
  eexists. split.
  - unfold spawned. destruct (_ && _); simpl; by rewrite lookup_insert_eq.
  - destruct (edges_with_edges es
      (if sk then set_tasks (dict_set (task_id t) t) wf
       else set_visual_edges (λ vs, vs ++ [(creator, task_id t)])
              (set_tasks (dict_set (task_id t) t) wf))) as [-> ->].
    by destruct sk.
Qed.

Lemma spawned_counts (w creator : string) (t : Task) (es : list (string * string))
    (d : value) (sk : bool) (wf : Workflow) (c : Z) (o : Orchestrator) :
  spawn_counts (spawned w creator t es d sk wf c o) !! (w, creator) = Some (c + 1)%Z
  ∧ trace (spawned w creator t es d sk wf c o)
    = EvSpawnAdded w (task_id t) creator :: trace o.
Proof.
  unfold spawned. destruct (_ && _); simpl; by rewrite lookup_insert_eq.
Qed.

(** C5. After every [add_task] that returns without error, and after every
    [spawn_task] that returns without error, the graph of the workflow's
    tasks and dependency edges has no cycle. *)
Theorem acyclic_after_add_and_spawn :
  (∀ task deps wf wf',
     add_task task deps wf = (Ok tt, wf') → acyclic (edges wf'))
  ∧ (∀ w creator t es d sk o o',
       spawn_task w creator t es d sk o = (Ok tt, o') →
       ∃ wf', workflows o' !! w = Some wf' ∧ acyclic (edges wf')).
Proof.
  split.
  - intros task deps wf wf'. apply add_task_ok_acyclic.
  - intros w creator t es d sk o o' H.
    apply spawn_task_ok in H
      as (wf & cobj & c & _ & _ & _ & _ & _ & _ & _ & _ & Hdag & _ & ->).
    destruct (spawned_workflow w creator t (edge_list es) d sk wf c o)
      as (wf' & Hwf' & Hedges & _).
    exists wf'. split; [done|]. rewrite Hedges. by eapply dag_sound.
Qed.

(** ** The spawn quota *)

Lemma spawns_plain (key : string * string) (ev : event) (tr : list event) :
  plain ev → spawns key (ev :: tr) = spawns key tr.
Proof. by destruct ev. Qed.

Lemma quota_of_graph (o : Orchestrator) (w : string) (wf wf' : Workflow)
    (key : string * string) :
  workflows o !! w = Some wf → tasks wf' = tasks wf →
  quota_of (put_workflow w wf' o) key = quota_of o key.
Proof.
  intros Hwf Ht. unfold quota_of. simpl.
  destruct (decide (key.1 = w)) as [Heq|Hne].
  - by rewrite Heq, lookup_insert_eq, Hwf, Ht.
  - by rewrite lookup_insert_ne.
Qed.

Lemma quota_of_inserted_other (o : Orchestrator) (w : string) (wf : Workflow)
    (t : Task) (key : string * string) :
  workflows o !! w = Some wf → key ≠ (w, task_id t) →
  quota_of (inserted w t wf o) key = quota_of o key.
Proof.
  intros Hwf Hne. unfold quota_of, inserted. simpl.
  destruct (decide (key.1 = w)) as [Heq|Hne'].
  - rewrite Heq, lookup_insert_eq, Hwf. simpl.
    rewrite dict_get_set_ne; [done|]. intros Heq2. apply Hne.
    destruct key. simpl in *. by subst.
  - by rewrite lookup_insert_ne.
Qed.

Lemma Quota_spawn_stable : SpawnStable (Quota None) (λ key, Quota (Some key)).
Proof.
  split.
  - intros o w q [HD HS HC]. by split.
  - intros o w b [HD HS HC]. by split.
  - intros o key s [HD HS HC] _ _. by split.
  - intros o w wf t [HD HS HC] Hwf Hfresh.
    assert (Hnone : spawn_counts o !! (w, task_id t) = None).
    { destruct (spawn_counts o !! (w, task_id t)) as [c|] eqn:Hc; [|done].
      exfalso. apply (in_tasks_fresh_ne o w wf t (w, task_id t)); [done..| |done].
      by eapply HD. }
    split; simpl.
    + intros key c. destruct (decide ((w, task_id t) = key)) as [<-|Hne].
      * intros _. apply in_tasks_inserted_new.
      * rewrite lookup_insert_ne by done. intros Hc.
        by eapply in_tasks_inserted, HD.
    + intros key. specialize (HS key).
      destruct (decide ((w, task_id t) = key)) as [<-|Hne].
      * rewrite lookup_insert_eq. rewrite Hnone in HS. done.
      * by rewrite lookup_insert_ne.
    + intros key c k. destruct (decide ((w, task_id t) = key)) as [<-|Hne].
      * rewrite lookup_insert_eq. intros [= <-] _. lia.
      * rewrite lookup_insert_ne by done. intros Hc.
        change (quota_of (put_spawn_count _ 0 _) key)
          with (quota_of (inserted w t wf o) key).
        rewrite quota_of_inserted_other by done. by apply HC.
  - intros o key c [HD HS HC] Hin Hc Hq. split; simpl.
    + intros key' c'. destruct (decide (key = key')) as [<-|Hne].
      * done.
      * rewrite lookup_insert_ne by done. apply HD.
    + intros key'. specialize (HS key'). rewrite bool_decide_eq_false_2 in HS by done.
      destruct (decide (key = key')) as [<-|Hne].
      * rewrite lookup_insert_eq, bool_decide_eq_true_2 by done.
        rewrite Hc in HS. simpl in *. lia.
      * rewrite lookup_insert_ne by done.
        rewrite bool_decide_eq_false_2 by congruence. done.
    + intros key' c' k. destruct (decide (key = key')) as [<-|Hne].
      * rewrite lookup_insert_eq. intros [= <-] Hk.
        specialize (Hq k Hk). lia.
      * rewrite lookup_insert_ne by done. apply HC.
  - intros o key [HD HS HC]. split; [done| |done].
    intros key'. specialize (HS key').
    rewrite bool_decide_eq_false_2 by done. case_bool_decide; lia.
  - intros o key key' n [HD HS HC]. by split.
  - intros o key w wf wf' [HD HS HC] Hwf Ht. split; simpl.
    + intros key' c Hc. eapply in_tasks_graph; [done..|]. by eapply HD.
    + done.
    + intros key' c k Hc.
      change (quota_of _ key') with (quota_of (put_workflow w wf' o) key').
      rewrite (quota_of_graph o w wf wf') by done. by apply HC.
  - intros o key w q [HD HS HC]. by split.
  - intros o w new creator [HD HS HC]. split; [done| |done].
    intros key. specialize (HS key). simpl.
    destruct (decide ((w, creator) = key)) as [<-|Hne].
    + rewrite !bool_decide_eq_true_2 in * by done. lia.
    + rewrite bool_decide_eq_false_2 by done.
      rewrite bool_decide_eq_false_2 in HS by congruence. lia.
Qed.

Lemma quota_of_register (wf : Workflow) (o : Orchestrator) (key : string * string) :
  key.1 ≠ workflow_id wf →
  quota_of (register_state wf o) key = quota_of o key.
Proof.
  intros Hne. unfold quota_of.
  by rewrite register_state_workflows, lookup_insert_ne.
Qed.

Lemma Quota_frame (o o' : Orchestrator) :
  workflows o' = workflows o → spawn_counts o' = spawn_counts o →
  (∀ key, spawns key (trace o') = spawns key (trace o)) →
  Quota None o → Quota None o'.
Proof.
  intros Hw Hc Ht [HD HS HC]. split.
  - intros key c. rewrite Hc. intros H. eapply in_tasks_frame; [done|]. by eapply HD.
  - intros key. rewrite Ht, Hc. apply HS.
  - intros key c k. rewrite Hc. unfold quota_of. rewrite Hw. apply HC.
Qed.

Lemma Quota_stable : Stable (Quota None) (λ key, Quota (Some key)).
Proof.
  split.
  - apply Quota_spawn_stable.
  - intros o key n. by apply Quota_frame.
  - intros o w n. by apply Quota_frame.
  - intros o ev Hplain. apply Quota_frame; [done|done|].
    intros key. simpl. by apply spawns_plain.
  - intros o wf Hfresh [HD HS HC]. rewrite register_state_snd by done.
    assert (Hother : ∀ key c, spawn_counts o !! key = Some c →
                              key.1 ≠ workflow_id wf).
    { intros key c Hc.
      by destruct (in_tasks_register wf o key Hfresh (HD _ _ Hc)). }
    split.
    + intros key c. rewrite register_state_counts. case_bool_decide as Hk.
      * intros _. destruct Hk as [Hw Hin]. exists wf.
        by rewrite register_state_workflows, Hw, lookup_insert_eq.
      * intros Hc. by eapply in_tasks_register, HD.
    + intros key. specialize (HS key).
      rewrite register_state_trace, spawns_plain by done.
      rewrite register_state_counts.
      destruct (decide (key.1 = workflow_id wf ∧ key.2 ∈ dict_keys (tasks wf)))
        as [Hk|Hk].
      * rewrite (bool_decide_eq_true_2 _ Hk).
        destruct (spawn_counts o !! key) as [c|] eqn:Hc; [|done].
        destruct Hk as [Hw _]. by destruct (Hother _ _ Hc).
      * by rewrite (bool_decide_eq_false_2 _ Hk).
    + intros key c k. rewrite register_state_counts. case_bool_decide as Hk.
      * intros [= <-] _. lia.
      * intros Hc. rewrite quota_of_register by by eapply Hother.
        by apply HC.
  - intros o key s v HQ _ _. by apply (Quota_frame o).
  - intros o key inp HQ _. by apply (Quota_frame o).
  - intros o key inp HQ _ _. apply (Quota_frame o); [done|done| |done].
    intros key'. by destruct key.
  - intros o key s e HQ _ _. by apply (Quota_frame o).
Qed.

Lemma Quota_init : Quota None Orchestrator_init.
Proof.
  split; simpl.
  - intros key c H. by rewrite lookup_empty in H.
  - intros key. by rewrite lookup_empty.
  - intros key c k H. by rewrite lookup_empty in H.
Qed.

Lemma reachable_Quota (o : Orchestrator) : reachable o → Quota None o.
Proof. apply calls_stable with (Pmid := λ key, Quota (Some key));
         [apply Quota_stable | apply Quota_init]. Qed.

(** An abort changes the queue, statuses and the running flag only. *)
Lemma fail_workflow_frame (w m : string) (o o' : Orchestrator) (r : outcome unit) :
  fail_workflow w m o = (r, o') →
  workflows o' = workflows o ∧ spawn_counts o' = spawn_counts o
  ∧ trace o' = trace o ∧ task_outputs o' = task_outputs o.
Proof.
  intros H. unfold fail_workflow in H.
  set (I := λ s, workflows s = workflows o ∧ spawn_counts s = spawn_counts o
                 ∧ trace s = trace o ∧ task_outputs s = task_outputs o).
  change (I o').
  assert (Hloop : ∀ l s r' s', I s →
    for_each l (λ task_id,
      st <- the_status (w, task_id) ;;
      if active st then modify (put_status (w, task_id) failed) else ret tt) s
    = (r', s') → I s').
  { intros l s r' s' Hs Hl. eapply for_each_invariant; [|exact Hs|exact Hl].
    clear. intros x s r s' _ Hs Hb. simpl in Hb.
    mbind Hb st o1 H1; minv; [|done]. destruct (active st); by minv. }
  mbind H q o1 H1; minv; [|done].
  mbind H u o2 H1; minv.
  mbind H wf o3 H1; minv; [|done].
  assert (HI : I (put_queue w [] o)) by done.
  mbind H u' o4 H1; [|exact (Hloop _ _ _ _ HI H1)].
  apply (Hloop _ _ _ _ HI) in H1.
  mbind H u'' o5 H2; by minv.
Qed.

Lemma reachable_step (o o' : Orchestrator) : reachable o → call o o' → reachable o'.
Proof. intros H Hc. eapply rtc_r; done. Qed.

Lemma reachable_register (wf : Workflow) (o : Orchestrator) :
  reachable o → reachable (register_workflow wf o).2.
Proof.
  intros H. eapply reachable_step; [done|].
  eapply (call_register_workflow _ _ wf (register_workflow wf o).1).
  by destruct (register_workflow wf o).
Qed.

Lemma reachable_run (fuel : nat) (w : string) (inp : gmap string value)
    (o : Orchestrator) :
  reachable o → reachable (run_workflow fuel w inp o).2.
Proof.
  intros H. eapply reachable_step; [done|].
  eapply (call_run_workflow _ _ fuel w inp (run_workflow fuel w inp o).1).
  by destruct (run_workflow fuel w inp o).
Qed.

(** C6. In every reachable state, for a task with [max_spawn_count = k]:
    the spawns by that task that returned without error are at most [k];
    once [k] of them have returned, a further [spawn_task] raises and
    leaves the workflows, hence the tasks, as they were; and a
    [spawn_task] that returns has raised the creator's spawn count by
    exactly one. *)
Theorem spawn_quota_respected (o : Orchestrator) (w creator : string) (k : Z) :
  reachable o → quota_of o (w, creator) = Some k → (0 ≤ k)%Z →
  (Z.of_nat (spawns (w, creator) (trace o)) ≤ k)%Z
  ∧ (∀ t es d sk r o',
       (k ≤ Z.of_nat (spawns (w, creator) (trace o)))%Z →
       spawn_task w creator t es d sk o = (r, o') →
       (∃ e, r = Exc e) ∧ workflows o' = workflows o
       ∧ spawn_counts o' = spawn_counts o ∧ trace o' = trace o)
  ∧ (∀ t es d sk o',
       spawn_task w creator t es d sk o = (Ok tt, o') →
       ∃ c, spawn_counts o !! (w, creator) = Some c
            ∧ spawn_counts o' !! (w, creator) = Some (c + 1)%Z
            ∧ spawns (w, creator) (trace o') = S (spawns (w, creator) (trace o))).
Proof.
  intros Hreach Hquota Hk.
  destruct (reachable_Quota o Hreach) as [HD HS HC].
  assert (Hle : (Z.of_nat (spawns (w, creator) (trace o)) ≤ k)%Z).
  { specialize (HS (w, creator)). rewrite bool_decide_eq_false_2 in HS by done.
    destruct (spawn_counts o !! (w, creator)) as [c|] eqn:Hc; simpl in HS; [|lia].
    specialize (HC _ _ _ Hc Hquota). lia. }
  split; [done|]. split.
  - intros t es d sk r o' Hfull H. unfold spawn_task in H.
    unfold quota_of in Hquota. simpl in Hquota.
    destruct (workflows o !! w) as [wf|] eqn:Hwf; [|done].
    destruct (dict_get creator (tasks wf)) as [cobj|] eqn:Hcobj; [|done].
    mbind H wf0 o1 H1; minv.
    2: { match goal with Hg : Exc _ = getitem _ _ |- _ =>
           rewrite Hwf in Hg; discriminate Hg end. }
    mbind H u o2 H1.
    2: { destruct (negb _); [|by minv].
         apply fail_workflow_frame in H1. split; [eauto|]. tauto. }
    apply guard_ok in H1 as [_ ->].
    mbind H cobj0 o3 H1; minv.
    2: { match goal with Hg : Exc _ = getitem _ _ |- _ =>
           rewrite Hcobj in Hg; discriminate Hg end. }
    match goal with Hg : Ok _ = getitem _ _ |- _ =>
      rewrite Hcobj in Hg; injection Hg as -> end.
    rewrite Hquota in H.
    mbind H u' o4 H1.
    + exfalso. apply (quota_check_ok w creator (Some k)) in H1 as [_ Hlt].
      destruct (Hlt k eq_refl) as (c & Hc & Hck).
      specialize (HS (w, creator)). rewrite bool_decide_eq_false_2 in HS by done.
      rewrite Hc in HS. simpl in HS. lia.
    + split; [eauto|].
      mbind H1 c o5 H2; minv; [|done].
      destruct (c >=? k)%Z; [|by minv].
      apply fail_workflow_frame in H1. tauto.
  - intros t es d sk o' H. apply spawn_task_ok in H
      as (wf & cobj & c & _ & _ & Hc & _ & _ & _ & _ & _ & _ & _ & ->).
    exists c. split; [done|].
    destruct (spawned_counts w creator t (edge_list es) d sk wf c o) as [Hc' Ht].
    split; [done|]. rewrite Ht. simpl. by rewrite bool_decide_eq_true_2.
Qed.

(** ** Discovery and input assembly *)

Lemma preds_snoc (es : list (string * string)) (e : string * string) (t : string) :
  preds (es ++ [e]) t = preds es t ++ (if decide (e.2 = t) then [e.1] else []).
Proof.
  unfold preds. rewrite filter_app, fmap_app. f_equal.
  rewrite filter_cons, filter_nil. by destruct (decide (e.2 = t)).
Qed.

Lemma rev_of_snoc (es : list (string * string)) (e : string * string) :
  rev_of (es ++ [e]) = <[e.2 := default [] (rev_of es !! e.2) ++ [e.1]]> (rev_of es).
Proof. unfold rev_of. by rewrite foldl_app. Qed.

(** The dictionary [rev] maps a task to its predecessors, and has no entry
    for a task without any. *)
Lemma rev_of_lookup (es : list (string * string)) (t : string) :
  rev_of es !! t = match preds es t with [] => None | ps => Some ps end.
Proof.
  induction es as [|e es IH] using rev_ind; [done|].
  rewrite rev_of_snoc, preds_snoc.
  destruct (decide (e.2 = t)) as [<-|Hne].
  - rewrite lookup_insert_eq, IH.
    destruct (preds es e.2) as [|p ps]; simpl; [done|].
    by destruct (ps ++ [e.1]) eqn:E; [destruct ps|].
  - rewrite lookup_insert_ne by done. by rewrite app_nil_r.
Qed.

Lemma rev_of_default (es : list (string * string)) (t : string) :
  default [] (rev_of es !! t) = preds es t.
Proof. rewrite rev_of_lookup. by destruct (preds es t). Qed.

Lemma elem_of_preds (es : list (string * string)) (p t : string) :
  p ∈ preds es t ↔ (p, t) ∈ es.
Proof.
  unfold preds. rewrite list_elem_of_fmap. split.
  - intros ([p' t'] & -> & H). apply list_elem_of_filter in H as [Ht H].
    simpl in *. by subst.
  - intros H. exists (p, t). split; [done|]. by apply list_elem_of_filter.
Qed.

Lemma rev_of_None (es : list (string * string)) (t : string) :
  rev_of es !! t = None ↔ ∀ p, (p, t) ∉ es.
Proof.
  rewrite rev_of_lookup. split.
  - intros H p Hin. apply elem_of_preds in Hin.
    destruct (preds es t); [by apply elem_of_nil in Hin | done].
  - intros H. destruct (preds es t) as [|p ps] eqn:E; [done|].
    exfalso. apply (H p), elem_of_preds. rewrite E. left.
Qed.

Lemma terminal_active (s : status) : terminal s = negb (active s).
Proof. by destruct s. Qed.

Lemma scan_preds_ok (o : Orchestrator) (w : string) (ps : list string)
    (inputs inputs' : list value) (ad ad' : bool) :
  scan_preds o w ps inputs ad = Ok (inputs', ad') →
  inputs' = inputs ++ List.filter truthy (output_of o w <$> ps)
  ∧ (ad' = true ↔ ad = true ∧ all_terminal o w ps).
Proof.
  revert inputs ad. induction ps as [|p ps IH]; intros inputs ad H; simpl in H.
  - injection H as <- <-. rewrite app_nil_r. split; [done|].
    split; [|tauto]. intros ->. split; [done|]. intros p Hp.
    by apply elem_of_nil in Hp.
  - destruct (task_status o !! (w, p)) as [s|] eqn:Hs; [|done]. simpl in H.
    apply IH in H as [-> Had]. split.
    + simpl. fold (output_of o w p).
      destruct (truthy (output_of o w p)); simpl; [|done].
      by rewrite <- app_assoc.
    + rewrite Had. unfold all_terminal. split.
      * intros [Hact Hall]. destruct (active s) eqn:Ha; [done|].
        split; [done|]. intros p' [->|Hp']%elem_of_cons; [|by apply Hall].
        exists s. by rewrite terminal_active, Ha.
      * intros [-> Hall]. split.
        -- destruct (Hall p) as (s' & Hs' & Ht); [left|].
           rewrite Hs in Hs'. injection Hs' as <-.
           rewrite terminal_active in Ht. by destruct (active s).
        -- intros p' Hp'. apply Hall. by right.
Qed.

(** The discovery pass returns exactly the pending tasks whose predecessors
    are all terminal, each with its assembled inputs. *)
Lemma discover_ok (o : Orchestrator) (w : string) (es : list (string * string))
    (ids : list string) (acc l : list (string * value)) :
  discover o w (rev_of es) ids acc = Ok l →
  ∀ t inp, (t, inp) ∈ l ↔
    (t, inp) ∈ acc
    ∨ (t ∈ ids ∧ task_status o !! (w, t) = Some pending
       ∧ all_terminal o w (preds es t) ∧ inp = assemble o w (preds es t)).
Proof.
  revert acc. induction ids as [|t0 ids IH]; intros acc H t inp; simpl in H.
  - injection H as <-. split; [by left|]. intros [?|[Hin _]]; [done|].
    by apply elem_of_nil in Hin.
  - destruct (task_status o !! (w, t0)) as [s|] eqn:Hs; [|done]. simpl in H.
    case_bool_decide as Hp.
    + subst s. rewrite rev_of_default in H.
      destruct (scan_preds o w (preds es t0) [] true) as [[inputs ad]|] eqn:Hscan;
        [|done].
      simpl in H. apply scan_preds_ok in Hscan as [-> Had]. simpl in Had.
      apply IH with (t := t) (inp := inp) in H. rewrite H. clear H.
      rewrite elem_of_cons. destruct ad.
      * rewrite elem_of_app, list_elem_of_singleton.
        assert (Hall : all_terminal o w (preds es t0)) by by apply Had.
        split.
        -- intros [[?|[= -> ->]]|(? & ? & ? & ?)]; [by left| |by right; eauto].
           right. unfold assemble. eauto 10.
        -- intros [?|([->|?] & Hst & Hat & ->)]; [by left; left| |by right].
           left. right. done.
      * assert (Hnot : ¬ all_terminal o w (preds es t0)).
        { intros Hall. destruct Had as [_ Had]. by discriminate Had. }
        split.
        -- intros [?|(? & ? & ? & ?)]; [by left|by right; eauto].
        -- intros [?|([->|?] & Hst & Hat & ->)]; [by left|done|by right].
    + apply IH with (t := t) (inp := inp) in H. rewrite H. clear H.
      rewrite elem_of_cons. split.
      * intros [?|(? & ? & ? & ?)]; [by left|by right; eauto].
      * intros [?|([->|?] & Hst & Hat & ->)]; [by left| |by right].
        rewrite Hs in Hst. by injection Hst as ->.
Qed.

(** ** Reachable states of the example workflows *)


Lemma reachable_init : reachable Orchestrator_init.
Proof. apply rtc_refl. Qed.

(** ** Input assembly *)




(** ** Dispatch *)

Lemma spawn_parallel_skips (w t : string) (inp : value) (s : status) (o : Orchestrator) :
  task_status o !! (w, t) = Some s → s ≠ pending →
  spawn_parallel w t inp o = (Ok tt, o).
Proof.
  intros Hs Hne. unfold spawn_parallel, bind, the_status. rewrite Hs.
  by destruct s.
Qed.

Lemma spawn_parallel_pending (w t : string) (inp : value) (o : Orchestrator) :
  task_status o !! (w, t) = Some pending →
  spawn_parallel w t inp o
  = task_runner w t inp (put_input (w, t) inp (put_status (w, t) running o)).
Proof.
  intros Hs. unfold spawn_parallel, bind at 1, the_status. rewrite Hs.
  reflexivity.
Qed.

Lemma spawn_parallel_unknown (w t : string) (inp : value) (o : Orchestrator) :
  task_status o !! (w, t) = None →
  spawn_parallel w t inp o = (Exc (KeyError (key_repr (w, t))), o).
Proof.
  intros Hs. unfold spawn_parallel, bind, the_status. by rewrite Hs.
Qed.

(** The seeding loop of [run_workflow] leaves statuses and outputs alone,
    keeps what is in the queue, and adds every root with its input. *)
Lemma seed_roots_ok (w : string) (wf : Workflow) (inp : gmap string value)
    (o o1 : Orchestrator) :
  seed_roots w wf inp o = (Ok tt, o1) →
  task_status o1 = task_status o ∧ task_outputs o1 = task_outputs o
  ∧ (∀ t, t ∈ dict_keys (tasks wf) → rev_of (edges wf) !! t = None →
          ∃ q1, ready_queue o1 !! w = Some q1
                ∧ (t, default (VList []) (inp !! t)) ∈ q1)
  ∧ (∀ q x, ready_queue o !! w = Some q → x ∈ q →
            ∃ q1, ready_queue o1 !! w = Some q1 ∧ x ∈ q1).
Proof.
  unfold seed_roots. generalize (dict_keys (tasks wf)) as ids.
  intros ids. revert o. induction ids as [|t0 ids IH]; intros o H; simpl in H.
  - minv. repeat split; [|by eauto]. intros t Ht. by apply elem_of_nil in Ht.
  - mbind_ok H u o' Hb. apply IH in H as (Hst & Hout & Hroots & Hmono).
    destruct (rev_of (edges wf) !! t0) as [ps|] eqn:Hrev; simpl in Hb.
    + minv.
      repeat split; [done..| |done].
      intros t [->|Ht]%elem_of_cons Hnone; [congruence|]. by apply Hroots.
    + apply enqueue_inv in Hb as (q & Hq & ->). simpl in *.
      repeat split; [done..| |].
      * intros t [->|Ht]%elem_of_cons Hnone; [|by apply Hroots].
        apply (Hmono (q ++ [(t0, default (VList []) (inp !! t0))]));
          [by rewrite lookup_insert_eq|].
        apply elem_of_app. right. left.
      * intros q0 x Hq0 Hx. rewrite Hq in Hq0. injection Hq0 as <-.
        apply (Hmono (q ++ [(t0, default (VList []) (inp !! t0))]));
          [by rewrite lookup_insert_eq|].
        apply elem_of_app. by left.
Qed.

(** C10. In every reachable state no task body has been called twice (a
    reachable state is the state after any calls, an unfinished run
    included). Dispatch of a task that is not pending returns at once and
    changes nothing; dispatch of a pending task sets it to [running] and
    only then runs [task_runner]; so a dispatch that calls a body found the
    task pending. Every pending root is in the queue twice at the first
    drain: [run_workflow] enqueues it with the caller's input, and the first
    discovery pass returns it again with the empty list. *)
Theorem body_invoked_at_most_once (o : Orchestrator) :
  reachable o →
  NoDup (invoked (trace o))
  ∧ (∀ w t inp s, task_status o !! (w, t) = Some s → s ≠ pending →
       spawn_parallel w t inp o = (Ok tt, o))
  ∧ (∀ w t inp, task_status o !! (w, t) = Some pending →
       spawn_parallel w t inp o
       = task_runner w t inp (put_input (w, t) inp (put_status (w, t) running o)))
  ∧ (∀ w t inp r o', spawn_parallel w t inp o = (r, o') →
       invoked (trace o') ≠ invoked (trace o) →
       task_status o !! (w, t) = Some pending)
  ∧ (∀ w wf inp t o1 l,
       t ∈ dict_keys (tasks wf) → (∀ p, (p, t) ∉ edges wf) →
       task_status o !! (w, t) = Some pending →
       seed_roots w wf inp o = (Ok tt, o1) →
       discover o1 w (rev_of (edges wf)) (dict_keys (tasks wf)) [] = Ok l →
       (∃ q, ready_queue o1 !! w = Some q
             ∧ (t, default (VList []) (inp !! t)) ∈ q)
       ∧ (t, VList []) ∈ l).
Proof.
  intros Hreach. split; [by destruct (reachable_Inv o Hreach)|].
  split; [by intros; eapply spawn_parallel_skips|].
  split; [by intros; apply spawn_parallel_pending|].
  split.
  - intros w t inp r o' H Hne.
    destruct (task_status o !! (w, t)) as [s|] eqn:Hs.
    + destruct (decide (s = pending)) as [->|Hnp]; [done|].
      rewrite (spawn_parallel_skips w t inp s o Hs Hnp) in H. by simplify_eq.
    + rewrite (spawn_parallel_unknown w t inp o Hs) in H. by simplify_eq.
  - intros w wf inp t o1 l Hin Hroot Hpend Hseed Hdisc.
    apply rev_of_None in Hroot as Hrev.
    destruct (seed_roots_ok w wf inp o o1 Hseed) as (Hst & _ & Hroots & _).
    split; [by apply Hroots|].
    apply (discover_ok _ _ _ _ _ _ Hdisc). right.
    assert (Hps : preds (edges wf) t = []).
    { destruct (preds (edges wf) t) as [|p ps] eqn:E; [done|].
      exfalso. apply (Hroot p), elem_of_preds. rewrite E. left. }
    rewrite Hps, Hst. repeat split; [done..| ].
    intros p Hp. by apply elem_of_nil in Hp.
Qed.

(** C10, witness: the state after the run of [late_edge_wf], in which three
    bodies were called. *)
Lemma body_invoked_at_most_once_witness :
  reachable late_edge_final
  ∧ NoDup (invoked (trace late_edge_final))
  ∧ length (invoked (trace late_edge_final)) = 3.
Proof.
  assert (Hr : reachable late_edge_final).
  { apply reachable_run, reachable_register, reachable_init. }
  split; [exact Hr|]. split.
  - exact (proj1 (body_invoked_at_most_once late_edge_final Hr)).
  - vm_compute. reflexivity.
Defined.

(** ** Instances *)

(** X19, witness: [A] of [quota_wf] failed in the aborted run; a later
    [complete_task] for it and a second [run_workflow] leave it failed. *)
Lemma terminal_stays_terminal_witness :
  in_tasks quota_final ("wf", "A")
  ∧ task_status quota_final !! ("wf", "A") = Some failed
  ∧ (task_status quota_again !! ("wf", "A") = Some failed
     ∨ task_status quota_again !! ("wf", "A") = Some failed)
  ∧ task_outputs quota_again !! ("wf", "A") = task_outputs quota_final !! ("wf", "A").
Proof.
  assert (Hin : in_tasks quota_final ("wf", "A")).
  { eexists. split; [vm_compute; reflexivity|]. simpl. left. }
  assert (Hs : task_status quota_final !! ("wf", "A") = Some failed)
    by (vm_compute; reflexivity).
  assert (Hcalls : rtc call quota_final quota_again).
  { apply rtc_l with quota_completed; [|apply rtc_once].
    - apply (call_complete_task _ _ "wf" "A" (VInt 7)
               (complete_task "wf" "A" (VInt 7) quota_final).1).
      apply surjective_pairing.
    - apply (call_run_workflow _ _ 5 "wf" ∅
               (run_workflow 5 "wf" ∅ quota_completed).1).
      apply surjective_pairing. }
  split; [exact Hin|]. split; [exact Hs|].
  exact (terminal_stays_terminal quota_final quota_again ("wf", "A") failed
           Hin Hs eq_refl Hcalls).
Defined.

(** C6, witness: [A] of [quota_wf] has [max_spawn_count = 1] and its body
    spawns twice; after the run one spawn has returned. *)
Lemma spawn_quota_respected_witness :
  reachable quota_final
  ∧ quota_of quota_final ("wf", "A") = Some 1%Z
  ∧ spawns ("wf", "A") (trace quota_final) = 1
  ∧ (Z.of_nat (spawns ("wf", "A") (trace quota_final)) ≤ 1)%Z.
Proof.
  assert (Hr : reachable quota_final).
  { apply reachable_run, reachable_register, reachable_init. }
  assert (Hq : quota_of quota_final ("wf", "A") = Some 1%Z)
    by (vm_compute; reflexivity).
  split; [exact Hr|]. split; [exact Hq|]. split; [vm_compute; reflexivity|].
  exact (proj1 (spawn_quota_respected quota_final "wf" "A" 1 Hr Hq ltac:(lia))).
Defined.

(** ** Dispatch order *)

(** C4 does not hold of the code. The trace lists the events newest
    first. In the run of [late_edge_wf] the roots [A] and [B] are queued;
    the body of [A] spawns [N] with the edge [N → B]; [B], already in the
    queue, is dispatched next, while [N] is still pending; [N] runs last.
    In the run of [eager_wf] the body of [A] spawns [N] with input data, so
    [N] goes to the queue at once, and then spawns [M] with the edge
    [M → N]; [N] is dispatched in the same drain, before [M], which waits
    for the next discovery pass. *)
Theorem dependent_dispatched_before_predecessor :
  (run_workflow 5 "wf" ∅ late_edge_start = (Ok tt, late_edge_final)
   ∧ edges <$> workflows late_edge_final !! "wf" = Some [("N", "B")]
   ∧ trace late_edge_final
     = [EvAllTerminal "wf";
        EvCompleteTask "wf" "N" VNone; EvInvoked "wf" "N" (VList []);
        EvCompleteTask "wf" "B" VNone; EvInvoked "wf" "B" (VList []);
        EvCompleteTask "wf" "A" VNone; EvSpawnAdded "wf" "N" "A";
        EvInvoked "wf" "A" (VList []); EvReceived "wf" 2 0])
  ∧ (run_workflow 5 "wf" ∅ eager_start = (Ok tt, eager_final)
     ∧ edges <$> workflows eager_final !! "wf" = Some [("M", "N")]
     ∧ trace eager_final
       = [EvAllTerminal "wf";
          EvCompleteTask "wf" "M" VNone; EvInvoked "wf" "M" (VList []);
          EvCompleteTask "wf" "N" VNone; EvInvoked "wf" "N" (VInt 1);
          EvCompleteTask "wf" "A" VNone; EvSpawnAdded "wf" "M" "A";
          EvSpawnAdded "wf" "N" "A";
          EvInvoked "wf" "A" (VList []); EvReceived "wf" 1 0]).
Proof.
  split; (split; [|split]); vm_compute; reflexivity.
Qed.

(** ** What [run_workflow] raises *)

Lemma quiet_bind {A B} (c : St Orchestrator A) (k : A → St Orchestrator B) :
  quiet c → (∀ a, quiet (k a)) → quiet (bind c k).
Proof.
  intros Hc Hk o e o' H.
  apply bind_inv in H as [(a & s1 & H1 & H)|(e0 & H1 & Heq)].
  - by eapply Hk.
  - injection Heq as ->. by eapply Hc.
Qed.

Lemma quiet_ret {A} (a : A) : quiet (ret a).
Proof. intros o e o' H. by apply ret_inv in H as [? _]. Qed.

Lemma quiet_modify (f : Orchestrator → Orchestrator) : quiet (modify f).
Proof. intros o e o' H. by apply modify_inv in H as [? _]. Qed.

Lemma quiet_gets {A} (f : Orchestrator → A) : quiet (gets f).
Proof. intros o e o' H. by apply gets_inv in H as [? _]. Qed.

Lemma getitem_quiet {V} (x : option V) (key : string) (e : exn) :
  getitem x key = Exc e → is_RuntimeError e = false.
Proof. destruct x; simpl; [done|]. by intros [= <-]. Qed.

Lemma quiet_outcome {A} (f : Orchestrator → outcome A) :
  (∀ o e, f o = Exc e → is_RuntimeError e = false) →
  quiet (λ o, (f o, o)).
Proof. intros Hf o e o' [= H _]. by eapply Hf. Qed.

Lemma quiet_the_workflow (w : string) : quiet (the_workflow w).
Proof. apply quiet_outcome. intros o e. apply getitem_quiet. Qed.

Lemma quiet_the_queue (w : string) : quiet (the_queue w).
Proof. apply quiet_outcome. intros o e. apply getitem_quiet. Qed.

Lemma quiet_the_status (key : string * string) : quiet (the_status key).
Proof. apply quiet_outcome. intros o e. apply getitem_quiet. Qed.

Lemma quiet_for_each {A} (l : list A) (body : A → St Orchestrator unit) :
  (∀ x, quiet (body x)) → quiet (for_each l body).
Proof.
  intros Hb. induction l as [|x l IH]; simpl.
  - apply quiet_ret.
  - apply quiet_bind; [apply Hb|done].
Qed.

Lemma quiet_enqueue (w : string) (x : string * value) : quiet (enqueue w x).
Proof.
  apply quiet_bind; [apply quiet_the_queue|]. intros q. apply quiet_modify.
Qed.

(** [except Exception] of [task_runner] catches everything: the runner
    returns, whatever the body did. *)
Lemma task_runner_returns (w t : string) (inp : value) (o : Orchestrator) :
  (task_runner w t inp o).1 = Ok tt.
Proof.
  unfold task_runner.
  destruct (bind (the_workflow w) _ o) as [[u|e] o1]; reflexivity.
Qed.

(** What it does with an exception of the body: the exception is printed
    and the task is marked failed. *)
Lemma task_runner_catches (w t : string) (inp : value) (wf : Workflow) (task : Task)
    (e : exn) (o o1 : Orchestrator) :
  workflows o !! w = Some wf → dict_get t (tasks wf) = Some task →
  run_body (func task w t inp) (emit (EvInvoked w t inp) o) = (Exc e, o1) →
  task_runner w t inp o
  = (Ok tt, put_status (w, t) failed (emit (EvRunnerException w t e) o1)).
Proof.
  intros Hwf Ht Hbody. unfold task_runner, bind, the_workflow, lift, modify.
  rewrite Hwf. simpl. rewrite Ht. simpl. by rewrite Hbody.
Qed.

Lemma quiet_task_runner (w t : string) (inp : value) : quiet (task_runner w t inp).
Proof.
  intros o e o' H. pose proof (task_runner_returns w t inp o) as Hr.
  rewrite H in Hr. done.
Qed.

Lemma quiet_spawn_parallel (w t : string) (inp : value) :
  quiet (spawn_parallel w t inp).
Proof.
  apply quiet_bind; [apply quiet_the_status|]. intros s.
  destruct (bool_decide (s = pending)); [|apply quiet_ret].
  apply quiet_bind; [apply quiet_modify|]. intros _.
  apply quiet_bind; [apply quiet_modify|]. intros _.
  apply quiet_task_runner.
Qed.

Lemma quiet_visualize (w : string) : quiet (visualize w).
Proof.
  apply quiet_bind; [apply quiet_gets|]. intros [wf|]; [|apply quiet_ret].
  apply quiet_bind.
  - apply quiet_for_each. intros t.
    apply quiet_bind; [apply quiet_the_status|]. intros s.
    destruct (negb (bool_decide (s = pending))); [|apply quiet_ret].
    apply quiet_bind; [|intros; apply quiet_ret].
    apply quiet_outcome. intros o e. apply getitem_quiet.
  - intros _. apply quiet_bind; [|intros; apply quiet_modify].
    apply quiet_outcome. intros o e. apply getitem_quiet.
Qed.

Lemma quiet_drain (fuel : nat) (w : string) : quiet (drain fuel w).
Proof.
  induction fuel as [|fuel IH]; simpl.
  - apply quiet_bind; [apply quiet_the_queue|]. intros [|[tid inp] q'].
    + apply quiet_ret.
    + intros o e o' H. by apply raise_inv in H as [[= ->] _].
  - apply quiet_bind; [apply quiet_the_queue|]. intros [|[tid inp] q'].
    + apply quiet_ret.
    + apply quiet_bind; [apply quiet_modify|]. intros _.
      apply quiet_bind; [apply quiet_spawn_parallel|]. intros _.
      apply quiet_bind; [apply quiet_visualize|]. intros _. done.
Qed.

Lemma obind_quiet {A B} (x : outcome A) (k : A → outcome B) (e : exn) :
  (∀ e', x = Exc e' → is_RuntimeError e' = false) →
  (∀ a e', k a = Exc e' → is_RuntimeError e' = false) →
  obind x k = Exc e → is_RuntimeError e = false.
Proof.
  destruct x as [a|e0]; simpl; intros Hx Hk H; [exact (Hk _ _ H)|].
  injection H as <-. by apply Hx.
Qed.

Lemma scan_preds_quiet (o : Orchestrator) (w : string) (ps : list string)
    (inputs : list value) (ad : bool) (e : exn) :
  scan_preds o w ps inputs ad = Exc e → is_RuntimeError e = false.
Proof.
  revert inputs ad e. induction ps as [|p ps IH]; intros inputs ad e; simpl; [done|].
  apply obind_quiet; [intros e'; apply getitem_quiet|]. intros s e'. apply IH.
Qed.

Lemma discover_quiet (o : Orchestrator) (w : string) (rev : gmap string (list string))
    (ids : list string) (acc : list (string * value)) (e : exn) :
  discover o w rev ids acc = Exc e → is_RuntimeError e = false.
Proof.
  revert acc e. induction ids as [|t ids IH]; intros acc e; simpl; [done|].
  apply obind_quiet; [intros e'; apply getitem_quiet|]. intros s e'.
  destruct (bool_decide (s = pending)); [|apply IH].
  apply obind_quiet; [intros e''; apply scan_preds_quiet|]. intros r e''. apply IH.
Qed.

Lemma quiet_run_helper (fuel : nat) (w : string) : quiet (run_helper fuel w).
Proof.
  apply quiet_bind; [apply quiet_the_workflow|]. intros wf.
  apply quiet_bind.
  { apply quiet_outcome. intros o e. unfold current_step_of.
    destruct (dict_keys (tasks wf)); [by intros [= <-]|done]. }
  intros step. apply quiet_bind.
  { apply quiet_outcome. intros o e. apply discover_quiet. }
  intros l. apply quiet_bind; [|intros; apply quiet_drain].
  apply quiet_for_each. intros x.
  apply quiet_bind; [apply quiet_enqueue|]. intros _. apply quiet_modify.
Qed.

Lemma read_statuses_quiet (o : Orchestrator) (w : string) (ids : list string) (e : exn) :
  read_statuses o w ids = Exc e → is_RuntimeError e = false.
Proof.
  revert e. induction ids as [|t ids IH]; intros e; simpl; [done|].
  apply obind_quiet; [intros e'; apply getitem_quiet|]. intros s e'.
  apply obind_quiet; [done|]. done.
Qed.

Lemma read_statuses_ok (o : Orchestrator) (w : string) (ids : list string)
    (l : list status) :
  read_statuses o w ids = Ok l →
  Forall2 (λ t s, task_status o !! (w, t) = Some s) ids l.
Proof.
  revert l. induction ids as [|t ids IH]; intros l; simpl.
  - intros [= <-]. constructor.
  - destruct (task_status o !! (w, t)) as [s|] eqn:Hs; simpl; [|done].
    destruct (read_statuses o w ids) as [l'|e] eqn:Hl; simpl; [|done].
    intros [= <-]. constructor; [done|]. by apply IH.
Qed.

Lemma quiet_scheduling_loop (n fuel : nat) (w : string) :
  quiet (scheduling_loop n fuel w).
Proof.
  induction n as [|n IH]; simpl.
  - intros o e o' H. by apply raise_inv in H as [[= ->] _].
  - apply quiet_bind; [apply quiet_run_helper|]. intros _.
    apply quiet_bind; [apply quiet_the_workflow|]. intros wf.
    apply quiet_bind.
    { apply quiet_outcome. intros o e. apply (read_statuses_quiet o w). }
    intros l. destruct (forallb terminal l); [apply quiet_modify|done].
Qed.

Lemma quiet_seed_roots (w : string) (wf : Workflow) (inp : gmap string value) :
  quiet (seed_roots w wf inp).
Proof.
  apply quiet_for_each. intros t.
  destruct (negb _); [apply quiet_enqueue|apply quiet_ret].
Qed.

Lemma statuses_all_terminal (o : Orchestrator) (w : string) (ids : list string)
    (l : list status) :
  Forall2 (λ t s, task_status o !! (w, t) = Some s) ids l →
  forallb terminal l = true →
  ∀ t, t ∈ ids → ∃ s, task_status o !! (w, t) = Some s ∧ terminal s = true.
Proof.
  induction 1 as [|t0 s0 ids l Hs _ IH]; simpl; intros Hall t Ht.
  - by apply elem_of_nil in Ht.
  - apply andb_true_iff in Hall as [H0 Hall].
    apply elem_of_cons in Ht as [->|Ht]; [by exists s0|by apply IH].
Qed.

Lemma scheduling_loop_ok (n fuel : nat) (w : string) (o o' : Orchestrator) :
  scheduling_loop n fuel w o = (Ok tt, o') → all_tasks_terminal o' w.
Proof.
  revert o. induction n as [|n IH]; intros o H; simpl in H.
  - by apply raise_inv in H as [? _].
  - mbind_ok H u o1 Hrun. mbind_ok H wf o2 Hwf.
    apply the_workflow_ok in Hwf as [Hwf ->].
    mbind_ok H l o2 Hl. injection Hl as Hl <-.
    destruct (forallb terminal l) eqn:Hall; [|by eapply IH].
    apply modify_inv in H as [_ ->]. exists wf. split; [done|].
    apply (statuses_all_terminal o1 w _ l); [|done].
    by apply read_statuses_ok.
Qed.

(** C1, as the code has it. The runner catches every exception of the
    body, an abort raised by [spawn_task] included, and returns; so the
    dispatcher [spawn_parallel], the drain of the queue and the loop raise
    no [RuntimeError]. [run_workflow] raises a [RuntimeError] only when a
    loop is already running for the workflow, before it has changed
    anything. When it returns, every task of the workflow is done or failed
    and the running flag is cleared, whether or not a body aborted the
    workflow on the way. *)
Theorem run_workflow_outcome (fuel : nat) (w : string) (inp : gmap string value)
    (o o' : Orchestrator) (r : outcome unit) :
  run_workflow fuel w inp o = (r, o') →
  (∀ t i o1, (task_runner w t i o1).1 = Ok tt)
  ∧ (∀ t i, quiet (spawn_parallel w t i))
  ∧ match r with
    | Ok _ =>
        running_loops o !! w = Some false
        ∧ running_loops o' !! w = Some false
        ∧ all_tasks_terminal o' w
    | Exc (RuntimeError m) =>
        running_loops o !! w = Some true ∧ o' = o
        ∧ m = "Workflow " +:+ w +:+ " is already running a scheduling loop."
    | Exc _ => True
    end.
Proof.
  intros H. split; [intros; apply task_runner_returns|].
  split; [intros; apply quiet_spawn_parallel|].
  unfold run_workflow in H.
  apply bind_inv in H as [(known & o1 & Hk & H)|(e & Hk & _)];
    [|by apply gets_inv in Hk as [? _]].
  apply gets_inv in Hk as [[= ->] ->].
  destruct (negb _); [by apply raise_inv in H as [-> _]|].
  apply bind_inv in H as [(b & o1 & Hb & H)|(e & Hb & ->)].
  2:{ injection Hb as Hb _. destruct (running_loops o !! w); simpl in Hb; [done|].
      by injection Hb as <-. }
  injection Hb as Hb <-. apply getitem_ok in Hb.
  destruct b.
  { apply raise_inv in H as [-> ->]. done. }
  assert (Hq : quiet (modify (put_running w true) ;;;
                      wf <- the_workflow w ;;
                      seed_roots w wf inp ;;;
                      scheduling_loop fuel fuel w ;;;
                      modify (put_running w false))).
  { apply quiet_bind; [apply quiet_modify|]. intros _.
    apply quiet_bind; [apply quiet_the_workflow|]. intros wf.
    apply quiet_bind; [apply quiet_seed_roots|]. intros _.
    apply quiet_bind; [apply quiet_scheduling_loop|]. intros _.
    apply quiet_modify. }
  destruct r as [u|e].
  - split; [done|].
    mbind_ok H u1 o1 H1. mbind_ok H wf o2 H2. mbind_ok H u3 o3 H3.
    mbind_ok H u4 o4 H4. apply modify_inv in H as [_ ->].
    destruct u4. apply scheduling_loop_ok in H4 as (wf' & Hwf' & Hall).
    split; [by simpl; rewrite lookup_insert_eq|].
    exists wf'. by split.
  - apply Hq in H. by destruct e.
Qed.

(** C1, witness: the run of [quota_wf], in which the body of [A] is aborted
    by its second spawn, returns. *)
Lemma run_workflow_outcome_witness :
  run_workflow 5 "wf" ∅ quota_start = (Ok tt, quota_final)
  ∧ running_loops quota_final !! "wf" = Some false
  ∧ all_tasks_terminal quota_final "wf".
Proof.
  assert (H : run_workflow 5 "wf" ∅ quota_start = (Ok tt, quota_final))
    by (vm_compute; reflexivity).
  split; [exact H|].
  exact (proj2 (proj2 (proj2 (run_workflow_outcome 5 "wf" ∅ quota_start quota_final
                                (Ok tt) H)))).
Defined.

(** C1, as stated, fails: in the run of [quota_wf] the second [spawn_task]
    of the body of [A] aborts the workflow (the runner prints the abort
    error and marks [A] failed, and [N1], pending, was failed by the abort),
    yet [run_workflow] returns normally. *)
Lemma abort_does_not_propagate :
  run_workflow 5 "wf" ∅ quota_start = (Ok tt, quota_final)
  ∧ trace quota_final
    = [EvAllTerminal "wf";
       EvRunnerException "wf" "A"
         (RuntimeError
            "Workflow wf terminated due to constraint violation: Task A exceeded spawn count");
       EvSpawnAdded "wf" "N1" "A"; EvInvoked "wf" "A" (VList []);
       EvReceived "wf" 1 0]
  ∧ task_status quota_final !! ("wf", "A") = Some failed
  ∧ task_status quota_final !! ("wf", "N1") = Some failed.
Proof.
  split; [|split; [|split]]; vm_compute; reflexivity.
Qed.

(** ** The abort of a workflow *)





Lemma check_node_RuntimeError (a b : Task) (direction : string) (e : exn) :
  check_node_against_policy a b direction = Exc e → ∃ m, e = RuntimeError m.
Proof.
  unfold check_node_against_policy.
  repeat match goal with
         | |- context [if ?c then _ else _] => destruct c
         end; intros [= <-] || intros [=]; eauto.
Qed.





Lemma enqueue_run (w : string) (x : string * value) (q : list (string * value))
    (o : Orchestrator) :
  ready_queue o !! w = Some q →
  enqueue w x o = (Ok tt, put_queue w (q ++ [x]) o).
Proof. intros H. unfold enqueue, bind, the_queue. by rewrite H. Qed.


Section abort.
Context (w creator : string) (t : Task) (es : option (list (string * string))).
Context (wf : Workflow) (o : Orchestrator).
Context (Hwf : workflows o !! w = Some wf).
Context (Hq : is_Some (ready_queue o !! w)).
Context (Hst : ∀ t', t' ∈ dict_keys (tasks wf) → is_Some (task_status o !! (w, t'))).
Context (Hcnt : ∀ t', t' ∈ dict_keys (tasks wf) → is_Some (spawn_counts o !! (w, t'))).












End abort.

(** ** Registered workflows have their entries *)

Lemma insert_keeps `{Countable K} {V} (m : gmap K V) (k k' : K) (v : V) :
  is_Some (m !! k) → is_Some (<[k' := v]> m !! k).
Proof.
  intros Hk. destruct (decide (k' = k)) as [->|Hne].
  - by rewrite lookup_insert_eq.
  - by rewrite lookup_insert_ne.
Qed.











(** C3 does not hold of the code: two [spawn_task] calls that fail a
    precondition and do not abort the workflow.

    In the first, [A], whose outgoing edges are restricted to [("A", "X")],
    spawns [B], whose incoming edges are restricted to [("X", "B")], with
    the edge [A → B]. Both edge policies reject the edge, yet the edge
    check of the source lets it pass (the ['custom'] branch compares the
    policy with a direction): the call returns, the edge is in the
    workflow, and nothing is failed.

    In the second, the first edge of [new_edges] ends at [Z], which is no
    task, and the second edge concerns neither the creator nor the new
    task. The read [wf.tasks[dst]] for the first edge raises [KeyError]
    before the second edge is looked at: no abort takes place, the tasks
    stay pending, the queue and the running flag are untouched, and the
    new task and the spent spawn are left behind. *)
Theorem spawn_violation_without_abort :
  reachable unlisted_start
  ∧ spec_edge_admitted only_to_X only_from_X "outgoing" = false
  ∧ spec_edge_admitted only_to_X only_from_X "incoming" = false
  ∧ unlisted_spawn.1 = Ok tt
  ∧ edges <$> workflows unlisted_spawn.2 !! "wf" = Some [("A", "B")]
  ∧ task_status unlisted_spawn.2 !! ("wf", "A") = Some pending
  ∧ task_status unlisted_spawn.2 !! ("wf", "B") = Some pending
  ∧ reachable late_edge_start
  ∧ ¬ related "A" "N" ("X", "Y")
  ∧ unknown_endpoint_spawn.1 = Exc (KeyError "Z")
  ∧ task_status unknown_endpoint_spawn.2 !! ("wf", "A") = Some pending
  ∧ task_status unknown_endpoint_spawn.2 !! ("wf", "B") = Some pending
  ∧ task_status unknown_endpoint_spawn.2 !! ("wf", "N") = Some pending
  ∧ ready_queue unknown_endpoint_spawn.2 = ready_queue late_edge_start
  ∧ running_loops unknown_endpoint_spawn.2 = running_loops late_edge_start
  ∧ spawn_counts unknown_endpoint_spawn.2 !! ("wf", "A") = Some 1%Z.
Proof.
  split; [apply reachable_register, reachable_init|].
  split; [reflexivity|]. split; [reflexivity|].
  split; [vm_compute; reflexivity|].
  split; [vm_compute; reflexivity|].
  split; [vm_compute; reflexivity|]. split; [vm_compute; reflexivity|].
  split; [apply reachable_register, reachable_init|].
  split.
  { intros [H|H]; simpl in H;
      repeat (apply elem_of_cons in H as [H|H]; [discriminate H|]);
      by apply elem_of_nil in H. }
  split; [vm_compute; reflexivity|].
  split; [vm_compute; reflexivity|]. split; [vm_compute; reflexivity|].
  split; [vm_compute; reflexivity|]. split; [vm_compute; reflexivity|].
  split; [vm_compute; reflexivity|]. vm_compute. reflexivity.
Qed.


(** ** The policy checks, decided *)

(** X1. [check_node_against_policy] returns exactly when the consulted
    policy is not [allow_none] and, if it is [custom], lists the other
    task: for direction ['next'] the policy and list are those of
    [taskA] and the listed id is [taskB]'s; for every other direction they
    are [taskB]'s and the listed id is [taskA]'s. A policy that is none of
    the three tokens admits everything. A rejection is a [RuntimeError]. *)
Theorem check_node_decides (a b : Task) (direction : string) :
  (check_node_against_policy a b direction = Ok tt ↔
     if String.eqb direction "next"
     then valid_next_nodes_policy (constraints a) ≠ "allow_none"
          ∧ (valid_next_nodes_policy (constraints a) = "custom" →
             task_id b ∈ valid_next_nodes (constraints a))
     else valid_previous_nodes_policy (constraints b) ≠ "allow_none"
          ∧ (valid_previous_nodes_policy (constraints b) = "custom" →
             task_id a ∈ valid_previous_nodes (constraints b)))
  ∧ ∀ e, check_node_against_policy a b direction = Exc e → ∃ m, e = RuntimeError m.
Proof.
  split; [|intros e; apply check_node_RuntimeError].
  unfold check_node_against_policy.
  destruct (String.eqb direction "next").
  - destruct (String.eqb_spec (valid_next_nodes_policy (constraints a)) "allow_all")
      as [->|Hall]; [by split|].
    destruct (String.eqb_spec (valid_next_nodes_policy (constraints a)) "allow_none")
      as [->|Hnone]; [split; [done|by intros [? _]]|].
    destruct (String.eqb_spec (valid_next_nodes_policy (constraints a)) "custom")
      as [Hc|Hc]; [|by split].
    destruct (decide (task_id b ∈ valid_next_nodes (constraints a))) as [Hin|Hin].
    + rewrite bool_decide_eq_true_2 by done. by split.
    + rewrite bool_decide_eq_false_2 by done. simpl.
      split; [done|]. intros [_ H]. by destruct (Hin (H Hc)).
  - destruct (String.eqb_spec (valid_previous_nodes_policy (constraints b)) "allow_all")
      as [->|Hall]; [by split|].
    destruct (String.eqb_spec (valid_previous_nodes_policy (constraints b)) "allow_none")
      as [->|Hnone]; [split; [done|by intros [? _]]|].
    destruct (String.eqb_spec (valid_previous_nodes_policy (constraints b)) "custom")
      as [Hc|Hc]; [|by split].
    destruct (decide (task_id a ∈ valid_previous_nodes (constraints b))) as [Hin|Hin].
    + rewrite bool_decide_eq_true_2 by done. by split.
    + rewrite bool_decide_eq_false_2 by done. simpl.
      split; [done|]. intros [_ H]. by destruct (Hin (H Hc)).
Qed.

(** X2. [check_edge_against_policy] consults the outgoing policy of
    [taskA] for direction ['outgoing'] and its incoming policy for every
    other direction; it raises exactly when that policy is [allow_none],
    with the message naming [taskA] and the direction, and its result does
    not depend on [taskB] at all, nor on the lists of valid edges. *)
Theorem check_edge_decides (a : Task) (b b' : pyarg) (direction : string) :
  check_edge_against_policy a b direction = check_edge_against_policy a b' direction
  ∧ (check_edge_against_policy a b direction = Ok tt ↔
       (if String.eqb direction "outgoing"
        then valid_outgoing_edges_policy (constraints a)
        else valid_incoming_edges_policy (constraints a)) ≠ "allow_none")
  ∧ (check_edge_against_policy a b direction ≠ Ok tt →
       check_edge_against_policy a b direction
       = Exc (RuntimeError ("Task " +:+ task_id a +:+ " cannot create "
                            +:+ direction +:+ " edges."))).
Proof.
  unfold check_edge_against_policy.
  destruct (String.eqb direction "outgoing").
  - destruct (String.eqb_spec (valid_outgoing_edges_policy (constraints a)) "allow_all")
      as [->|Hall]; [by repeat split|].
    destruct (String.eqb_spec (valid_outgoing_edges_policy (constraints a)) "allow_none")
      as [->|Hnone]; [by repeat split|].
    destruct (String.eqb_spec (valid_outgoing_edges_policy (constraints a)) "custom")
      as [->|Hc]; by repeat split.
  - destruct (String.eqb_spec (valid_incoming_edges_policy (constraints a)) "allow_all")
      as [->|Hall]; [by repeat split|].
    destruct (String.eqb_spec (valid_incoming_edges_policy (constraints a)) "allow_none")
      as [->|Hnone]; [by repeat split|].
    destruct (String.eqb_spec (valid_incoming_edges_policy (constraints a)) "custom")
      as [->|Hc]; by repeat split.
Qed.


(** ** Building a workflow *)

Lemma add_dependency_inv (task : Task) (dep : string) (w w' : Workflow)
    (r : outcome unit) :
  add_dependency task dep w = (r, w') →
  match r with
  | Ok _ =>
      ∃ dep_obj, dict_get dep (tasks w) = Some dep_obj
        ∧ check_node_against_policy dep_obj task "next" = Ok tt
        ∧ check_node_against_policy dep_obj task "previous" = Ok tt
        ∧ check_edge_against_policy task (PyTask dep_obj) "incoming" = Ok tt
        ∧ check_edge_against_policy dep_obj (PyTask task) "outgoing" = Ok tt
        ∧ w' = with_edge (dep, task_id task) w
  | Exc _ => w' = w
  end.
Proof.
  unfold add_dependency. intros H.
  apply bind_inv in H as [(w0 & w1 & Hg & H)|(e & Hg & _)];
    [|by apply gets_inv in Hg as [? _]].
  apply gets_inv in Hg as [[= ->] ->]. unfold id in H.
  destruct (negb _); [by apply raise_inv in H as [-> ->]|].
  apply bind_inv in H as [(dep_obj & w1 & H1 & H)|(e & H1 & ->)];
    apply lift_inv in H1 as [H1 ->]; [|done].
  symmetry in H1. apply getitem_ok in H1.
  apply bind_inv in H as [([] & w1 & H2 & H)|(e & H2 & ->)];
    apply lift_inv in H2 as [H2 ->]; [|done].
  apply bind_inv in H as [([] & w1 & H3 & H)|(e & H3 & ->)];
    apply lift_inv in H3 as [H3 ->]; [|done].
  apply bind_inv in H as [([] & w1 & H4 & H)|(e & H4 & ->)];
    apply lift_inv in H4 as [H4 ->]; [|done].
  apply bind_inv in H as [([] & w1 & H5 & H)|(e & H5 & ->)];
    apply lift_inv in H5 as [H5 ->]; [|done].
  apply bind_inv in H as [([] & w1 & H6 & H)|(e & H6 & _)];
    apply modify_inv in H6 as [H6 ->]; [|done].
  apply modify_inv in H as [-> ->]. exists dep_obj. by repeat split.
Qed.

Lemma with_edges_fields (es : list (string * string)) (w : Workflow) :
  tasks (foldl (λ wf e, with_edge e wf) w es) = tasks w
  ∧ edges (foldl (λ wf e, with_edge e wf) w es) = edges w ++ es
  ∧ visual_edges (foldl (λ wf e, with_edge e wf) w es) = visual_edges w ++ es
  ∧ workflow_id (foldl (λ wf e, with_edge e wf) w es) = workflow_id w
  ∧ wf_visualization_counter (foldl (λ wf e, with_edge e wf) w es)
    = wf_visualization_counter w.
Proof.
  revert w. induction es as [|e es IH]; intros w; simpl.
  - by rewrite !app_nil_r.
  - destruct (IH (with_edge e w)) as (-> & -> & -> & -> & ->).
    simpl. by rewrite <- !app_assoc.
Qed.

Lemma with_dependencies_fields (task : Task) (deps : list string) (w : Workflow) :
  tasks (with_dependencies task deps w) = tasks w
  ∧ edges (with_dependencies task deps w)
    = edges w ++ ((λ dep, (dep, task_id task)) <$> deps)
  ∧ visual_edges (with_dependencies task deps w)
    = visual_edges w ++ ((λ dep, (dep, task_id task)) <$> deps)
  ∧ workflow_id (with_dependencies task deps w) = workflow_id w
  ∧ wf_visualization_counter (with_dependencies task deps w)
    = wf_visualization_counter w.
Proof. apply with_edges_fields. Qed.

Lemma add_dependencies_inv (task : Task) (deps : list string) (w w' : Workflow)
    (r : outcome unit) :
  for_each deps (add_dependency task) w = (r, w') →
  ∃ passed, passed `prefix_of` deps ∧ admitted task w passed
    ∧ w' = with_dependencies task passed w
    ∧ (r = Ok tt → passed = deps).
Proof.
  revert w. induction deps as [|d deps IH]; intros w H; simpl in H.
  - apply ret_inv in H as [-> ->]. exists []. split; [apply prefix_nil|].
    split; [|done]. intros dep Hd. by apply elem_of_nil in Hd.
  - apply bind_inv in H as [([] & w1 & H1 & H)|(e & H1 & ->)];
      apply add_dependency_inv in H1.
    + destruct H1 as (dep_obj & Hget & Hn & Hp & Hi & Ho & ->).
      apply IH in H as (passed & Hpre & Hadm & -> & Hall).
      exists (d :: passed). split; [by apply prefix_cons|]. split; [|split].
      * intros dep [->|Hin]%elem_of_cons; [by exists dep_obj|].
        destruct (Hadm dep Hin) as (x & Hx & ?). exists x. split; [|done].
        exact Hx.
      * done.
      * intros Hr. by rewrite (Hall Hr).
    + subst w'. exists []. split; [apply prefix_nil|].
      split; [|done]. intros dep Hd. by apply elem_of_nil in Hd.
Qed.

(** Every way in which [add_task] can end. *)
Lemma add_task_inv (task : Task) (deps : option (list string)) (w w' : Workflow)
    (r : outcome unit) :
  add_task task deps w = (r, w') →
  (task_id task ∈ dict_keys (tasks w)
   ∧ r = Exc (ValueError ("Task " +:+ task_id task +:+ " already in " +:+ workflow_id w))
   ∧ w' = w)
  ∨ ((task_id task ∉ dict_keys (tasks w))
     ∧ ∃ passed, passed `prefix_of` default [] deps
         ∧ admitted task (set_tasks (dict_set (task_id task) task) w) passed
         ∧ ((r = Ok tt ∧ passed = default [] deps
             ∧ acyclic (edges w ++ ((λ dep, (dep, task_id task)) <$> passed))
             ∧ w' = set_wf_visualization_counter (λ n, n + 1)%Z
                      (with_dependencies task passed
                         (set_tasks (dict_set (task_id task) task) w)))
            ∨ ((∃ e, r = Exc e)
               ∧ w' = with_dependencies task passed
                        (set_tasks (dict_set (task_id task) task) w)))).
Proof.
  unfold add_task. intros H.
  apply bind_inv in H as [(w0 & w1 & Hg & H)|(e & Hg & _)];
    [|by apply gets_inv in Hg as [? _]].
  apply gets_inv in Hg as [[= ->] ->]. unfold id in H.
  destruct (dict_mem (task_id task) (tasks w)) eqn:Hmem.
  { apply raise_inv in H as [-> ->]. left. by apply dict_mem_true in Hmem. }
  apply dict_mem_false in Hmem. right. split; [done|].
  apply bind_inv in H as [([] & w1 & H1 & H)|(e & H1 & _)];
    apply modify_inv in H1 as [H1 ->]; [|done].
  set (w1 := set_tasks (dict_set (task_id task) task) w) in *.
  assert (Hloop : ∀ r0 w2,
            match deps with
            | Some deps0 => for_each deps0 (add_dependency task)
            | None => ret tt
            end w1 = (r0, w2) →
            ∃ passed, passed `prefix_of` default [] deps ∧ admitted task w1 passed
              ∧ w2 = with_dependencies task passed w1
              ∧ (r0 = Ok tt → passed = default [] deps)).
  { intros r0 w2 Hl. destruct deps as [deps0|]; simpl.
    - by apply add_dependencies_inv.
    - apply ret_inv in Hl as [-> ->]. exists []. split; [apply prefix_nil|].
      split; [|done]. intros dep Hd. by apply elem_of_nil in Hd. }
  apply bind_inv in H as [([] & w2 & H2 & H)|(e & H2 & ->)];
    apply Hloop in H2 as (passed & Hpre & Hadm & -> & Hall).
  2:{ exists passed. split; [done|]. split; [done|]. right. eauto. }
  specialize (Hall eq_refl). exists passed. split; [done|]. split; [done|].
  destruct (with_dependencies_fields task passed w1) as (Ht & He & _).
  apply bind_inv in H as [([] & w3 & H3 & H)|(e & H3 & ->)].
  - apply modify_inv in H as [-> ->]. left.
    unfold _assert_no_cycle in H3.
    apply bind_ok_inv in H3 as (w5 & w6 & Hg & H3).
    apply gets_inv in Hg as [[= ->] ->]. unfold id in H3.
    destruct (is_directed_acyclic_graph _) eqn:Hdag; simpl in H3;
      [|by apply raise_inv in H3 as [? _]].
    apply ret_inv in H3 as [_ ->]. apply dag_sound in Hdag. rewrite He in Hdag.
    done.
  - right. split; [eauto|].
    unfold _assert_no_cycle in H3.
    apply bind_inv in H3 as [(w5 & w6 & Hg & H3)|(e0 & Hg & _)];
      [|by apply gets_inv in Hg as [? _]].
    apply gets_inv in Hg as [[= ->] ->]. unfold id in H3.
    destruct (negb _); [by apply raise_inv in H3 as [_ ->]|].
    by apply ret_inv in H3 as [? _].
Qed.

(** X3. [add_task] does not roll back. A call that raises because the id
    is taken leaves the workflow as it was. Any other failing call (an
    unknown dependency, a policy rejection, a cycle) leaves the task in
    the workflow, appended to the tasks, together with the edges of the
    dependencies that passed before the failure; adding the same task
    again, with whatever dependencies, then raises the "already in"
    error. *)
Theorem add_task_failure_keeps_task (task : Task) (deps deps' : option (list string))
    (w w' : Workflow) (e : exn) :
  add_task task deps w = (Exc e, w') →
  (task_id task ∈ dict_keys (tasks w) ∧ w' = w)
  ∨ ((task_id task ∉ dict_keys (tasks w))
     ∧ tasks w' = tasks w ++ [(task_id task, task)]
     ∧ (∃ passed, passed `prefix_of` default [] deps
          ∧ edges w' = edges w ++ ((λ dep, (dep, task_id task)) <$> passed))
     ∧ add_task task deps' w'
       = (Exc (ValueError ("Task " +:+ task_id task +:+ " already in "
                           +:+ workflow_id w)), w')).
Proof.
  intros H. apply add_task_inv in H as [(Hin & _ & ->)|(Hfresh & passed & Hpre & _ & H)];
    [by left|right].
  destruct H as [([=] & _)|(_ & ->)].
  destruct (with_dependencies_fields task passed
              (set_tasks (dict_set (task_id task) task) w)) as (Ht & He & _ & Hid & _).
  split; [done|]. split; [by rewrite Ht; simpl; rewrite dict_set_fresh|].
  split; [by exists passed|].
  unfold add_task, bind, gets, id.
  rewrite (proj2 (dict_mem_true (task_id task) _)).
  - by rewrite Hid.
  - rewrite Ht. simpl. apply dict_keys_set. by left.
Qed.

(** X3, witness: a task that names itself as its dependency passes the
    membership test, since it is inserted first; the cycle check then
    raises, and the task and its self-loop stay in the workflow. *)
Lemma add_task_failure_keeps_task_witness :
  add_task (plain_task "T") (Some ["T"]) (Workflow_init "wf")
  = (Exc (ValueError "DAG cycle detected in workflow registration."), self_loop_wf)
  ∧ tasks self_loop_wf = [("T", plain_task "T")]
  ∧ edges self_loop_wf = [("T", "T")]
  ∧ add_task (plain_task "T") None self_loop_wf
    = (Exc (ValueError "Task T already in wf"), self_loop_wf).
Proof.
  assert (H : add_task (plain_task "T") (Some ["T"]) (Workflow_init "wf")
              = (Exc (ValueError "DAG cycle detected in workflow registration."),
                 self_loop_wf)) by (vm_compute; reflexivity).
  split; [exact H|]. split; [vm_compute; reflexivity|].
  split; [vm_compute; reflexivity|].
  destruct (add_task_failure_keeps_task (plain_task "T") (Some ["T"]) None
              (Workflow_init "wf") self_loop_wf _ H) as [[Hin _]|(_ & _ & _ & Hagain)].
  - by apply elem_of_nil in Hin.
  - exact Hagain.
Defined.

(** X4. An [add_task] call that returns has found the id free; it has
    appended the task to the tasks and, for each dependency in order, the
    edge from the dependency to the task to both edge lists; each
    dependency was a task of the workflow other than the new one and
    passed the two node checks and the two edge checks; the counter of
    renderings went up by one and the workflow id is unchanged. *)
Theorem add_task_returns (task : Task) (deps : option (list string))
    (w w' : Workflow) :
  add_task task deps w = (Ok tt, w') →
  (task_id task ∉ dict_keys (tasks w))
  ∧ tasks w' = tasks w ++ [(task_id task, task)]
  ∧ edges w' = edges w ++ dependency_edges task deps
  ∧ visual_edges w' = visual_edges w ++ dependency_edges task deps
  ∧ wf_visualization_counter w' = (wf_visualization_counter w + 1)%Z
  ∧ workflow_id w' = workflow_id w
  ∧ ∀ dep, dep ∈ default [] deps →
      dep ≠ task_id task
      ∧ ∃ dep_obj, dict_get dep (tasks w) = Some dep_obj
          ∧ check_node_against_policy dep_obj task "next" = Ok tt
          ∧ check_node_against_policy dep_obj task "previous" = Ok tt
          ∧ check_edge_against_policy task (PyTask dep_obj) "incoming" = Ok tt
          ∧ check_edge_against_policy dep_obj (PyTask task) "outgoing" = Ok tt.
Proof.
  intros H. apply add_task_inv in H as [(_ & [=] & _)|(Hfresh & passed & _ & Hadm & H)].
  destruct H as [(_ & -> & Hac & ->)|([e [=]] & _)].
  destruct (with_dependencies_fields task (default [] deps)
              (set_tasks (dict_set (task_id task) task) w))
    as (Ht & He & Hv & Hid & Hc).
  simpl. rewrite Ht, He, Hv, Hid, Hc. simpl.
  split; [done|]. split; [by rewrite dict_set_fresh|]. do 4 (split; [done|]).
  intros dep Hin.
  assert (Hne : dep ≠ task_id task).
  { intros ->. apply (Hac (task_id task)). apply tc_once.
    apply elem_of_app. right. apply list_elem_of_fmap. by exists (task_id task). }
  split; [done|].
  destruct (Hadm dep Hin) as (dep_obj & Hget & Hrest). exists dep_obj.
  split; [|done]. simpl in Hget. by rewrite dict_get_set_ne in Hget.
Qed.

(** X4, witness: [B] added with the dependency [A]. *)
Lemma add_task_returns_witness :
  add_task (plain_task "B") (Some ["A"])
    (add_task (plain_task "A") None (Workflow_init "wf")).2 = (Ok tt, two_step_wf)
  ∧ tasks two_step_wf = [("A", plain_task "A"); ("B", plain_task "B")]
  ∧ edges two_step_wf = [("A", "B")].
Proof.
  assert (H : add_task (plain_task "B") (Some ["A"])
                (add_task (plain_task "A") None (Workflow_init "wf")).2
              = (Ok tt, two_step_wf)) by (vm_compute; reflexivity).
  split; [exact H|].
  destruct (add_task_returns _ _ _ _ H) as (_ & Ht & He & _).
  split; [exact Ht|exact He].
Defined.

(** X5. In every workflow built from [Workflow(id)] by [add_task] calls,
    whether they returned or raised, both endpoints of every edge are
    tasks of the workflow, and the list of drawn edges equals the list of
    dependency edges. *)
Theorem built_edges_closed (w : Workflow) :
  built w →
  (∀ p c, (p, c) ∈ edges w → p ∈ dict_keys (tasks w) ∧ c ∈ dict_keys (tasks w))
  ∧ visual_edges w = edges w.
Proof.
  induction 1 as [i|w task deps r w' _ [IHe IHv] H].
  - split; [|done]. intros p c Hin. by apply elem_of_nil in Hin.
  - apply add_task_inv in H as [(_ & _ & ->)|(Hfresh & passed & _ & Hadm & H)];
      [done|].
    assert (Hw : ∃ n, w' = set_wf_visualization_counter n
                             (with_dependencies task passed
                                (set_tasks (dict_set (task_id task) task) w))).
    { destruct H as [(_ & _ & _ & ->)|(_ & ->)]; [by eexists|].
      exists (λ n, n). by destruct (with_dependencies _ _ _). }
    destruct Hw as [n ->].
    destruct (with_dependencies_fields task passed
                (set_tasks (dict_set (task_id task) task) w)) as (Ht & He & Hv & _).
    simpl. rewrite Ht, He, Hv. simpl. rewrite IHv. split; [|done].
    intros p c [Hin|Hin]%elem_of_app.
    + destruct (IHe p c Hin). split; apply dict_keys_set; by right.
    + apply list_elem_of_fmap in Hin as (dep & [= -> ->] & Hdep).
      destruct (Hadm dep Hdep) as (dep_obj & Hget & _). simpl in Hget.
      split; [apply dict_get_is_Some; eauto|]. apply dict_keys_set. by left.
Qed.

(** X5, witness: the workflow left by the failed self-dependency. *)
Lemma built_edges_closed_witness :
  built self_loop_wf
  ∧ (∀ p c, (p, c) ∈ edges self_loop_wf →
            p ∈ dict_keys (tasks self_loop_wf) ∧ c ∈ dict_keys (tasks self_loop_wf))
  ∧ visual_edges self_loop_wf = edges self_loop_wf.
Proof.
  assert (H : built self_loop_wf).
  { eapply (built_add_task _ (plain_task "T") (Some ["T"])
              (add_task (plain_task "T") (Some ["T"]) (Workflow_init "wf")).1);
      [apply built_new|apply surjective_pairing]. }
  split; [exact H|]. exact (built_edges_closed self_loop_wf H).
Defined.

(** X6. [add_task] never removes an edge, so a workflow whose edges have a
    cycle, as a failed [add_task] can leave it, stays cyclic, and every
    later [add_task] on it raises. *)
Theorem add_task_on_cyclic (task : Task) (deps : option (list string))
    (w w' : Workflow) (r : outcome unit) :
  ¬ acyclic (edges w) → add_task task deps w = (r, w') →
  (∃ e, r = Exc e) ∧ ¬ acyclic (edges w').
Proof.
  intros Hcyc H.
  apply add_task_inv in H as [(_ & -> & ->)|(Hfresh & passed & _ & _ & H)]; [eauto|].
  destruct H as [(_ & _ & Hac & _)|(He & ->)].
  - destruct Hcyc. eapply acyclic_subseteq; [|exact Hac].
    intros x Hx. apply elem_of_app. by left.
  - split; [done|]. intros Hac. apply Hcyc.
    destruct (with_dependencies_fields task passed
                (set_tasks (dict_set (task_id task) task) w)) as (_ & He' & _).
    rewrite He' in Hac. eapply acyclic_subseteq; [|exact Hac].
    intros x Hx. apply elem_of_app. by left.
Qed.

(** X6, witness: after the failed self-dependency, adding an unrelated
    task raises. *)
Lemma add_task_on_cyclic_witness :
  ¬ acyclic (edges self_loop_wf)
  ∧ ∃ e, (add_task (plain_task "U") None self_loop_wf).1 = Exc e.
Proof.
  assert (Hcyc : ¬ acyclic (edges self_loop_wf)).
  { intros Hac. apply (Hac "T"). apply tc_once.
    change (("T", "T") ∈ edges self_loop_wf).
    replace (edges self_loop_wf) with [("T", "T")] by (vm_compute; reflexivity).
    left. }
  split; [exact Hcyc|].
  exact (proj1 (add_task_on_cyclic (plain_task "U") None self_loop_wf _ _ Hcyc
                  (surjective_pairing _))).
Defined.


(** ** Registration, decided *)

Lemma register_entries_frame (w : string) (ids : list string) (o : Orchestrator) :
  ready_queue (register_entries w ids o) = ready_queue o
  ∧ running_loops (register_entries w ids o) = running_loops o
  ∧ run_counter (register_entries w ids o) = run_counter o
  ∧ visualization_counter (register_entries w ids o) = visualization_counter o
  ∧ execution_history (register_entries w ids o) = execution_history o
  ∧ task_inputs (register_entries w ids o) = task_inputs o.
Proof.
  revert o. induction ids as [|t ids IH]; intros o; [done|]. simpl.
  by destruct (IH (put_spawn_count (w, t) 0 (put_status (w, t) pending o)))
    as (-> & -> & -> & -> & -> & ->).
Qed.

(** X7. [register_workflow] with an id that is already registered raises
    [ValueError] and changes nothing. With a new id it returns: the
    workflow is stored under its id, each of its tasks is pending with a
    spawn count of zero, its queue is empty, its running flag is false,
    its run counter is zero and its counter of renderings is one; the
    statuses and spawn counts of all other keys, the outputs, the inputs
    and the execution history are as they were. *)
Theorem register_workflow_effects (wf : Workflow) (o o' : Orchestrator)
    (r : outcome unit) :
  register_workflow wf o = (r, o') →
  match workflows o !! workflow_id wf with
  | Some _ =>
      r = Exc (ValueError ("Workflow " +:+ workflow_id wf +:+ " already registered."))
      ∧ o' = o
  | None =>
      r = Ok tt
      ∧ workflows o' = <[workflow_id wf := wf]> (workflows o)
      ∧ ready_queue o' = <[workflow_id wf := []]> (ready_queue o)
      ∧ running_loops o' = <[workflow_id wf := false]> (running_loops o)
      ∧ run_counter o' = <[workflow_id wf := 0%Z]> (run_counter o)
      ∧ visualization_counter o' = <[workflow_id wf := 1%Z]> (visualization_counter o)
      ∧ (∀ key, task_status o' !! key
                = if bool_decide (key.1 = workflow_id wf ∧ key.2 ∈ dict_keys (tasks wf))
                  then Some pending else task_status o !! key)
      ∧ (∀ key, spawn_counts o' !! key
                = if bool_decide (key.1 = workflow_id wf ∧ key.2 ∈ dict_keys (tasks wf))
                  then Some 0%Z else spawn_counts o !! key)
      ∧ task_outputs o' = task_outputs o
      ∧ task_inputs o' = task_inputs o
      ∧ execution_history o' = execution_history o
  end.
Proof.
  intros H. destruct (workflows o !! workflow_id wf) as [wf0|] eqn:Hw.
  - rewrite (register_workflow_known wf wf0 o Hw) in H. by injection H as <- <-.
  - rewrite (register_workflow_fresh wf o Hw) in H. injection H as <- <-.
    split; [done|]. split; [apply register_state_workflows|].
    destruct (register_entries_frame (workflow_id wf) (dict_keys (tasks wf))
                (put_workflow (workflow_id wf) wf o)) as (Hq & Hr & Hc & Hv & Hh & Hi).
    unfold register_state at 1 2 3 4. simpl. rewrite Hq, Hr, Hc, Hv. simpl.
    do 4 (split; [done|]).
    split; [apply register_state_status|]. split; [apply register_state_counts|].
    split; [apply register_state_outputs|].
    unfold register_state. simpl. by rewrite Hh, Hi.
Qed.

(** X7, witness: registering [quota_wf] with a new orchestrator, and
    registering it again. *)
Lemma register_workflow_effects_witness :
  register_workflow quota_wf Orchestrator_init = (Ok tt, quota_start)
  ∧ task_status quota_start !! ("wf", "A") = Some pending
  ∧ (register_workflow quota_wf quota_start).2 = quota_start.
Proof.
  assert (H : register_workflow quota_wf Orchestrator_init
              = ((register_workflow quota_wf Orchestrator_init).1, quota_start))
    by apply surjective_pairing.
  pose proof (register_workflow_effects quota_wf Orchestrator_init quota_start _ H)
    as H1.
  change (workflows Orchestrator_init !! workflow_id quota_wf)
    with (@None Workflow) in H1.
  destruct H1 as (Hr & _ & _ & _ & _ & _ & Hs & _).
  split; [by rewrite H, Hr|]. split.
  - rewrite Hs. reflexivity.
  - pose proof (register_workflow_effects quota_wf quota_start _ _
                  (surjective_pairing _)) as H2.
    replace (workflows quota_start !! workflow_id quota_wf) with (Some quota_wf) in H2
      by (vm_compute; reflexivity).
    by destruct H2 as [_ ->].
Defined.

(** ** Completion and the status query *)

(** X8. [complete_task] for a task without a status raises [KeyError] and
    changes nothing, and [check_task_status] then reports ["unknown"] and
    no result. For a task that is pending or running it returns, and a
    following [check_task_status] reports ["done"] with the result just
    given. For a task that is already done or failed it returns having
    changed nothing but the printed line, so that the status query answers
    as before. *)
Theorem complete_then_check (w t : string) (v : value) (o : Orchestrator) :
  match task_status o !! (w, t) with
  | None =>
      complete_task w t v o = (Exc (KeyError (key_repr (w, t))), o)
      ∧ check_task_status w t o = ("unknown", VNone)
  | Some s =>
      ∃ o', complete_task w t v o = (Ok tt, o')
        ∧ (active s = true → check_task_status w t o' = ("done", v))
        ∧ (active s = false →
           o' = emit (EvCompleteTask w t v) o
           ∧ check_task_status w t o' = check_task_status w t o)
  end.
Proof.
  unfold complete_task, check_task_status, bind, the_status.
  destruct (task_status o !! (w, t)) as [s|] eqn:Hs; simpl; [|done].
  destruct (active s) eqn:Hact; simpl.
  - eexists. split; [reflexivity|]. split; [|done]. intros _. simpl.
    by rewrite !lookup_insert_eq.
  - eexists. split; [reflexivity|]. split; [done|]. intros _. simpl.
    by rewrite Hs.
Qed.


(** ** Rendering *)

Lemma visualize_loop_missing (w t : string) (s : status) (ids : list string)
    (o : Orchestrator) :
  t ∈ ids → task_status o !! (w, t) = Some s → s ≠ pending →
  execution_history o !! (w, t) = None →
  ∃ k, for_each ids (λ t_id,
         s <- the_status (w, t_id) ;;
         if negb (bool_decide (s = pending))
         then (λ o, (getitem (execution_history o !! (w, t_id)) (key_repr (w, t_id)), o))
              ;;; ret tt
         else ret tt) o = (Exc (KeyError k), o).
Proof.
  intros Hin Hs Hne Hh. induction ids as [|t0 ids IH]; [by apply elem_of_nil in Hin|].
  simpl. unfold bind at 1. unfold bind at 1, the_status.
  destruct (task_status o !! (w, t0)) as [s0|] eqn:Hs0; simpl; [|eauto].
  destruct (decide (s0 = pending)) as [->|Hn0].
  - simpl. apply IH. apply elem_of_cons in Hin as [->|Hin]; [congruence|done].
  - rewrite bool_decide_eq_false_2 by done. simpl. unfold bind at 1.
    destruct (execution_history o !! (w, t0)) as [n|] eqn:Hh0; simpl; [|eauto].
    apply IH. apply elem_of_cons in Hin as [->|Hin]; [congruence|done].
Qed.

(** X9. [Orchestrator.visualize] reads the execution step of every task
    that is not pending. If some task of the workflow is not pending and
    has no execution step, as a task that an abort failed before it was
    ever discovered, [visualize] raises [KeyError] and changes nothing. *)
Theorem visualize_missing_step (w t : string) (wf : Workflow) (s : status)
    (o : Orchestrator) :
  workflows o !! w = Some wf → t ∈ dict_keys (tasks wf) →
  task_status o !! (w, t) = Some s → s ≠ pending →
  execution_history o !! (w, t) = None →
  ∃ k, visualize w o = (Exc (KeyError k), o).
Proof.
  intros Hwf Hin Hs Hne Hh. unfold visualize, bind at 1, gets. rewrite Hwf.
  destruct (visualize_loop_missing w t s (dict_keys (tasks wf)) o Hin Hs Hne Hh)
    as [k Hk].
  exists k. unfold bind at 1. by rewrite Hk.
Qed.

(** X9, witness: in [chain_wf] the body of [A] aborts the workflow, which
    fails [B] before any discovery pass has given it a step; [visualize]
    then raises, and so does the whole run. *)
Lemma visualize_missing_step_witness :
  task_status chain_aborted !! ("wf", "B") = Some failed
  ∧ execution_history chain_aborted !! ("wf", "B") = None
  ∧ (∃ k, visualize "wf" chain_aborted = (Exc (KeyError k), chain_aborted))
  ∧ (run_workflow 5 "wf" ∅ chain_start).1 = Exc (KeyError "('wf', 'B')").
Proof.
  assert (Hw : workflows chain_aborted !! "wf" = Some chain_wf)
    by (vm_compute; reflexivity).
  assert (Hs : task_status chain_aborted !! ("wf", "B") = Some failed)
    by (vm_compute; reflexivity).
  assert (Hh : execution_history chain_aborted !! ("wf", "B") = None)
    by (vm_compute; reflexivity).
  split; [exact Hs|]. split; [exact Hh|]. split; [|vm_compute; reflexivity].
  apply (visualize_missing_step "wf" "B" chain_wf failed chain_aborted Hw);
    [|exact Hs|discriminate|exact Hh].
  apply elem_of_cons. right. left.
Defined.

(** ** The queue after a run *)

Lemma drain_ok_empty (fuel : nat) (w : string) (o o' : Orchestrator) :
  drain fuel w o = (Ok tt, o') → ready_queue o' !! w = Some [].
Proof.
  revert o. induction fuel as [|fuel IH]; intros o H; simpl in H.
  - mbind_ok H q o1 H1. apply the_queue_ok in H1 as [Hq ->].
    destruct q as [|[tid inp] q]; [by apply ret_inv in H as [_ ->]|].
    by apply raise_inv in H as [? _].
  - mbind_ok H q o1 H1. apply the_queue_ok in H1 as [Hq ->].
    destruct q as [|[tid inp] q]; [by apply ret_inv in H as [_ ->]|].
    mbind_ok H u1 o1 H1. mbind_ok H u2 o2 H2. mbind_ok H u3 o3 H3.
    by eapply IH.
Qed.

Lemma run_helper_ok_empty (fuel : nat) (w : string) (o o' : Orchestrator) :
  run_helper fuel w o = (Ok tt, o') → ready_queue o' !! w = Some [].
Proof.
  unfold run_helper. intros H.
  mbind_ok H wf o1 H1. mbind_ok H step o2 H2. mbind_ok H l o3 H3.
  mbind_ok H u o4 H4. by eapply drain_ok_empty.
Qed.

Lemma scheduling_loop_ok_empty (n fuel : nat) (w : string) (o o' : Orchestrator) :
  scheduling_loop n fuel w o = (Ok tt, o') → ready_queue o' !! w = Some [].
Proof.
  revert o. induction n as [|n IH]; intros o H; simpl in H.
  - by apply raise_inv in H as [? _].
  - mbind_ok H u o1 Hrun. destruct u. apply run_helper_ok_empty in Hrun.
    mbind_ok H wf o2 Hwf. apply the_workflow_ok in Hwf as [Hwf ->].
    mbind_ok H l o2 Hl. injection Hl as Hl <-.
    destruct (forallb terminal l); [|by eapply IH].
    by apply modify_inv in H as [_ ->].
Qed.

(** X10. When [run_workflow] returns, the ready queue of the workflow is
    empty: the drain loop of [run_helper] ends only on an empty queue, and
    nothing is queued between the last drain and the return. *)
Theorem run_workflow_drains (fuel : nat) (w : string) (inp : gmap string value)
    (o o' : Orchestrator) :
  run_workflow fuel w inp o = (Ok tt, o') → ready_queue o' !! w = Some [].
Proof.
  unfold run_workflow. intros H.
  mbind_ok H known o1 H1. apply gets_inv in H1 as [[= ->] ->].
  destruct (negb _); [by apply raise_inv in H as [? _]|].
  mbind_ok H b o1 H1. injection H1 as H1 <-.
  destruct b; [by apply raise_inv in H as [? _]|].
  mbind_ok H u1 o1 H2. mbind_ok H wf o2 H3. mbind_ok H u3 o3 H4.
  mbind_ok H u4 o4 H5. apply modify_inv in H as [_ ->]. destruct u4.
  by apply scheduling_loop_ok_empty in H5.
Qed.

(** X10, witness: the run of [late_edge_wf]. *)
Lemma run_workflow_drains_witness :
  run_workflow 5 "wf" ∅ late_edge_start = (Ok tt, late_edge_final)
  ∧ ready_queue late_edge_final !! "wf" = Some [].
Proof.
  assert (H : run_workflow 5 "wf" ∅ late_edge_start = (Ok tt, late_edge_final))
    by (vm_compute; reflexivity).
  split; [exact H|].
  exact (run_workflow_drains 5 "wf" ∅ late_edge_start late_edge_final H).
Defined.

(** ** A workflow without tasks *)

(** X11. [run_workflow] on a registered workflow that has no task raises
    the [ValueError] of [max()] on an empty sequence, from the first
    discovery pass, after it has set the running flag and before it clears
    it; every later [run_workflow] on that workflow then raises the
    "already running" [RuntimeError]. *)
Theorem run_workflow_no_tasks (n : nat) (w : string) (inp : gmap string value)
    (wf : Workflow) (o : Orchestrator) :
  workflows o !! w = Some wf → tasks wf = [] → running_loops o !! w = Some false →
  (∃ m, run_workflow (S n) w inp o = (Exc (ValueError m), put_running w true o))
  ∧ ∀ fuel inp',
      run_workflow fuel w inp' (put_running w true o)
      = (Exc (RuntimeError ("Workflow " +:+ w
                            +:+ " is already running a scheduling loop.")),
         put_running w true o).
Proof.
  intros Hwf Ht Hr. split.
  - eexists. unfold run_workflow.
    rewrite (bind_ok _ _ o o true)
      by (unfold gets; by rewrite Hwf, bool_decide_eq_true_2).
    simpl. rewrite (bind_ok _ _ o o false) by (by rewrite Hr).
    rewrite (bind_ok _ _ o (put_running w true o) tt) by done.
    rewrite (bind_ok _ _ _ (put_running w true o) wf)
      by (unfold the_workflow; simpl; by rewrite Hwf).
    unfold seed_roots. rewrite Ht. simpl.
    rewrite (bind_ok _ _ _ (put_running w true o) tt) by done.
    unfold run_helper.
    rewrite (bind_exc _ _ _ (put_running w true o)
               (ValueError "max() arg is an empty sequence")); [done|].
    rewrite (bind_exc _ _ _ (put_running w true o)
               (ValueError "max() arg is an empty sequence")); [done|].
    rewrite (bind_ok _ _ _ (put_running w true o) wf)
      by (unfold the_workflow; simpl; by rewrite Hwf).
    rewrite Ht. reflexivity.
  - intros fuel inp'. unfold run_workflow.
    rewrite (bind_ok _ _ _ (put_running w true o) true)
      by (unfold gets; simpl; by rewrite Hwf, bool_decide_eq_true_2).
    simpl.
    rewrite (bind_ok _ _ _ (put_running w true o) true)
      by (simpl; by rewrite lookup_insert_eq).
    reflexivity.
Qed.

(** X11, witness: a workflow registered right after [Workflow("wf")]. *)
Lemma run_workflow_no_tasks_witness :
  (∃ m, run_workflow 1 "wf" ∅ empty_start
        = (Exc (ValueError m), put_running "wf" true empty_start))
  ∧ (run_workflow 1 "wf" ∅ (put_running "wf" true empty_start)).1
    = Exc (RuntimeError "Workflow wf is already running a scheduling loop.").
Proof.
  destruct (run_workflow_no_tasks 0 "wf" ∅ (Workflow_init "wf") empty_start)
    as [H1 H2]; [vm_compute; reflexivity|reflexivity|vm_compute; reflexivity|].
  split; [exact H1|]. by rewrite H2.
Defined.


(** ** A spawn that returns, field by field *)

(** X12. A [spawn_task] call that returns has appended the new task to the
    tasks of the workflow and the given edges, in order, to its edges; the
    drawn edges get the edge from the creator unless [skip_visual_edge],
    then the given edges. The new task is pending with a spawn count of
    zero and the execution step of its creator plus one (one, if the
    creator has none); the creator's spawn count is up by one. The new
    task is put in the ready queue, with [input_data], exactly when
    [input_data] is not [None] and no edge of the workflow ends at it;
    otherwise the queue is untouched and [input_data] is dropped. Nothing
    else changes but the printed line. *)
Theorem spawn_task_returns (w creator : string) (t : Task)
    (es : option (list (string * string))) (d : value) (sk : bool)
    (o o' : Orchestrator) :
  spawn_task w creator t es d sk o = (Ok tt, o') →
  ∃ wf wf' c,
    workflows o !! w = Some wf
    ∧ workflows o' = <[w := wf']> (workflows o)
    ∧ tasks wf' = tasks wf ++ [(task_id t, t)]
    ∧ edges wf' = edges wf ++ edge_list es
    ∧ visual_edges wf'
      = (visual_edges wf ++ (if sk then [] else [(creator, task_id t)])) ++ edge_list es
    ∧ task_status o' = <[(w, task_id t) := pending]> (task_status o)
    ∧ spawn_counts o !! (w, creator) = Some c
    ∧ spawn_counts o'
      = <[(w, creator) := (c + 1)%Z]> (<[(w, task_id t) := 0%Z]> (spawn_counts o))
    ∧ execution_history o'
      = <[(w, task_id t) := (default 0 (execution_history o !! (w, creator)) + 1)%Z]>
          (execution_history o)
    ∧ ready_queue o'
      = (if is_not_None d
            && negb (existsb (λ e, String.eqb e.2 (task_id t)) (edges wf ++ edge_list es))
         then <[w := default [] (ready_queue o !! w) ++ [(task_id t, d)]]> (ready_queue o)
         else ready_queue o)
    ∧ task_outputs o' = task_outputs o
    ∧ task_inputs o' = task_inputs o
    ∧ running_loops o' = running_loops o
    ∧ trace o' = EvSpawnAdded w (task_id t) creator :: trace o.
Proof.
  intros H. apply spawn_task_ok in H
    as (wf & cobj & c & Hwf & _ & Hc & _ & _ & _ & Hfresh & _ & _ & _ & ->).
  set (wf2 := if sk then set_tasks (dict_set (task_id t) t) wf
              else set_visual_edges (λ vs, vs ++ [(creator, task_id t)])
                     (set_tasks (dict_set (task_id t) t) wf)).
  destruct (with_edges_fields (edge_list es) wf2) as (Ht & He & Hv & _).
  exists wf, (foldl (λ wf0 e, with_edge e wf0) wf2 (edge_list es)), c.
  rewrite Ht, He, Hv.
  assert (Ht2 : tasks wf2 = tasks wf ++ [(task_id t, t)]).
  { subst wf2. destruct sk; simpl; by rewrite dict_set_fresh. }
  assert (He2 : edges wf2 = edges wf) by (subst wf2; by destruct sk).
  assert (Hv2 : visual_edges wf2
                = visual_edges wf ++ (if sk then [] else [(creator, task_id t)])).
  { subst wf2. destruct sk; simpl; [by rewrite app_nil_r|done]. }
  rewrite Ht2, He2, Hv2. split; [done|].
  unfold spawned. fold wf2. rewrite He, He2.
  destruct (is_not_None d && _); simpl; rewrite insert_insert_eq; by repeat split.
Qed.

(** X12, witness: the first spawn of [quota_wf], with input data and no
    edges, goes to the queue. *)
Lemma spawn_task_returns_witness :
  spawn_task "wf" "A" (plain_task "N1") None (VInt 1) false quota_start
  = (Ok tt, quota_spent)
  ∧ ready_queue quota_spent !! "wf" = Some [("N1", VInt 1)]
  ∧ task_status quota_spent !! ("wf", "N1") = Some pending.
Proof.
  assert (H : spawn_task "wf" "A" (plain_task "N1") None (VInt 1) false quota_start
              = (Ok tt, quota_spent)) by (vm_compute; reflexivity).
  split; [exact H|].
  destruct (spawn_task_returns _ _ _ _ _ _ _ _ H)
    as (wf & wf' & c & Hwf & _ & _ & _ & _ & Hs & _ & _ & _ & Hq & _).
  replace (workflows quota_start !! "wf") with (Some quota_wf) in Hwf
    by (vm_compute; reflexivity).
  injection Hwf as <-. split.
  - rewrite Hq. vm_compute. reflexivity.
  - rewrite Hs. by rewrite lookup_insert_eq.
Defined.

(** ** The entries of a reachable state *)



(** ** What a dispatch leaves *)

Lemma complete_task_ok_terminal (w t : string) (v : value) (u : unit)
    (o o' : Orchestrator) :
  complete_task w t v o = (Ok u, o') →
  ∃ s, task_status o' !! (w, t) = Some s ∧ terminal s = true.
Proof.
  unfold complete_task. intros H.
  mbind_ok H st o1 H1. apply the_status_ok in H1 as [Hst ->].
  mbind_ok H u1 o1 H1. apply modify_inv in H1 as [_ ->].
  destruct (active st) eqn:Hact; simpl in H.
  - mbind_ok H u2 o2 H2. apply modify_inv in H2 as [_ ->].
    apply modify_inv in H as [_ ->]. exists done. simpl.
    by rewrite lookup_insert_eq.
  - apply ret_inv in H as [_ ->]. exists st. split; [done|].
    by rewrite terminal_active, Hact.
Qed.

(** X14. A dispatch of a pending task always returns, whatever its body
    does, and leaves the task done or failed: it is never left pending or
    running. *)
Theorem dispatch_ends_terminal (w t : string) (inp : value) (o o' : Orchestrator)
    (r : outcome unit) :
  task_status o !! (w, t) = Some pending →
  spawn_parallel w t inp o = (r, o') →
  r = Ok tt ∧ ∃ s, task_status o' !! (w, t) = Some s ∧ terminal s = true.
Proof.
  intros Hs H. rewrite (spawn_parallel_pending w t inp o Hs) in H.
  unfold task_runner in H.
  destruct (bind (the_workflow w) _ _) as [[u|e] o1] eqn:Hrun; injection H as <- <-.
  - split; [done|].
    mbind_ok Hrun wf o2 H1. mbind_ok Hrun task o3 H2. mbind_ok Hrun u1 o4 H3.
    mbind_ok Hrun res o5 H4. by eapply complete_task_ok_terminal.
  - split; [done|]. exists failed. simpl. by rewrite lookup_insert_eq.
Qed.

(** X14, witness: the dispatch of [A] of [chain_wf], whose body aborts the
    workflow. *)
Lemma dispatch_ends_terminal_witness :
  task_status chain_start !! ("wf", "A") = Some pending
  ∧ ∃ s, task_status chain_aborted !! ("wf", "A") = Some s ∧ terminal s = true.
Proof.
  assert (Hs : task_status chain_start !! ("wf", "A") = Some pending)
    by (vm_compute; reflexivity).
  split; [exact Hs|].
  exact (proj2 (dispatch_ends_terminal "wf" "A" (VList []) chain_start chain_aborted
                  _ Hs (surjective_pairing _))).
Defined.

(** ** The discovery pass, in order *)

Lemma discover_extends (o : Orchestrator) (w : string) (rev : gmap string (list string))
    (ids : list string) (acc l : list (string * value)) :
  discover o w rev ids acc = Ok l →
  ∃ l', l = acc ++ l' ∧ l'.*1 `sublist_of` ids.
Proof.
  revert acc. induction ids as [|t ids IH]; intros acc H; simpl in H.
  - injection H as <-. exists []. by rewrite app_nil_r.
  - destruct (task_status o !! (w, t)) as [s|]; simpl in H; [|done].
    destruct (bool_decide (s = pending)).
    + destruct (scan_preds o w _ [] true) as [[ins ad]|e]; simpl in H; [|done].
      apply IH in H as (l' & -> & Hsub). destruct ad.
      * exists ((t, VList ins) :: l'). rewrite <- app_assoc. split; [done|].
        simpl. by apply sublist_skip.
      * exists l'. split; [done|]. by apply sublist_cons.
    + apply IH in H as (l' & -> & Hsub). exists l'. split; [done|].
      by apply sublist_cons.
Qed.

(** X15. The discovery pass of [run_helper] returns the newly unblocked
    tasks in the order of the tasks dictionary, each at most as often as
    its id occurs there. The map [rev] that it reads, built from the edge
    list, has as entry of a task the list of the sources of the edges that
    end at it, in edge order and with repetitions, and has no entry for a
    task at which no edge ends. *)
Theorem discover_in_order (o : Orchestrator) (w : string)
    (es : list (string * string)) (ids : list string) (l : list (string * value)) :
  (discover o w (rev_of es) ids [] = Ok l → l.*1 `sublist_of` ids)
  ∧ ∀ c, rev_of es !! c
         = (if decide ((filter (λ e, e.2 = c) es) = []) then None
            else Some ((filter (λ e, e.2 = c) es).*1)).
Proof.
  split.
  - intros H. by apply discover_extends in H as (l' & -> & Hsub).
  - intros c. rewrite rev_of_lookup. unfold preds.
    destruct (filter (λ e, e.2 = c) es) as [|e l0]; [done|].
    by destruct (decide _).
Qed.

(** X15, witness: the first discovery pass on [A → B → C] with every task
    pending returns [A] alone; the entry of [C] in the map of predecessors
    is [[B]] and [A] has none. *)
Lemma discover_in_order_witness :
  ∃ l, discover static_start "wf" (rev_of (edges static_wf))
         (dict_keys (tasks static_wf)) [] = Ok l
       ∧ l.*1 = ["A"]
       ∧ l.*1 `sublist_of` dict_keys (tasks static_wf)
       ∧ rev_of (edges static_wf) !! "C" = Some ["B"]
       ∧ rev_of (edges static_wf) !! "A" = None.
Proof.
  eexists. split; [vm_compute; reflexivity|]. split; [reflexivity|].
  destruct (discover_in_order static_start "wf" (edges static_wf)
              (dict_keys (tasks static_wf)) [("A", VList [])]) as [H1 H2].
  split; [apply H1; vm_compute; reflexivity|].
  split; [rewrite H2; reflexivity|rewrite H2; reflexivity].
Defined.


(** ** Runs of a workflow that does not grow *)

Lemma run_body_service_free (p : prog) (o : Orchestrator) :
  service_free p → ∃ r, run_body p o = (r, o).
Proof.
  induction p as [v|e|w c t es d sk k IH|w c t es d sk k IHk h IHh
                 |w t v k IH|w t v k IHk h IHh|w t k IH];
    simpl; intros Hp; [by eauto|by eauto|done|done|done|done|].
  unfold bind, gets. apply IH, Hp.
Qed.

Section static_run.
Context (w : string) (wf : Workflow).
Context (Hstatic : static w wf) (Hclosed : closed wf) (Hacyclic : acyclic (edges wf)).
Context (tr0 : list event).

Lemma Resting_frame (o o' : Orchestrator) :
  Resting w wf tr0 o → workflows o' = workflows o →
  (is_Some (visualization_counter o !! w) → is_Some (visualization_counter o' !! w)) →
  task_status o' = task_status o →
  (∀ key, is_Some (execution_history o !! key) → is_Some (execution_history o' !! key)) →
  trace o' = trace o →
  Resting w wf tr0 o'.
Proof.
  intros [Hw Hc Hs Hi Htr] Ew Ec Es Eh Et. split; [by rewrite Ew|by apply Ec| | |].
  - intros t Ht. destruct (Hs t Ht) as (s & Hst & Hnr & Hh). exists s.
    rewrite Es. split; [done|]. split; [done|]. intros Hnp. by apply Eh, Hh.
  - rewrite Es, Et. exact Hi.
  - rewrite Es, Et. exact Htr.
Qed.

(** The dispatch of a pending task that has an execution step. *)
Lemma dispatch_static (t : string) (inp : value) (o : Orchestrator) :
  Resting w wf tr0 o → t ∈ dict_keys (tasks wf) →
  task_status o !! (w, t) = Some pending →
  ∃ o' s, spawn_parallel w t inp o = (Ok tt, o') ∧ terminal s = true
    ∧ workflows o' = workflows o
    ∧ visualization_counter o' = visualization_counter o
    ∧ execution_history o' = execution_history o
    ∧ ready_queue o' = ready_queue o
    ∧ task_status o' = <[(w, t) := s]> (task_status o)
    ∧ invoked (trace o') = (w, t) :: invoked (trace o)
    ∧ ∃ ev, trace o' = ev :: EvInvoked w t inp :: trace o ∧ ended [ev] = [(w, t)].
Proof using Hstatic.
  intros [Hw _ _ _ _] Hin Hs.
  destruct (proj2 (dict_get_is_Some t (tasks wf)) Hin) as [task Htask].
  rewrite (spawn_parallel_pending w t inp o Hs).
  set (o1 := put_input (w, t) inp (put_status (w, t) running o)).
  destruct (run_body_service_free (func task w t inp) (emit (EvInvoked w t inp) o1)
              (Hstatic t task inp Htask)) as [rb Hrb].
  unfold task_runner.
  rewrite (bind_ok _ _ o1 o1 wf) by (unfold the_workflow; simpl; by rewrite Hw).
  rewrite (bind_ok _ _ o1 o1 task) by (unfold lift; by rewrite Htask).
  rewrite (bind_ok _ _ o1 (emit (EvInvoked w t inp) o1) tt) by done.
  destruct rb as [v|e].
  - rewrite (bind_ok _ _ _ _ _ Hrb). unfold complete_task.
    rewrite (bind_ok _ _ _ (emit (EvInvoked w t inp) o1) running)
      by (unfold the_status; simpl; by rewrite lookup_insert_eq).
    rewrite (bind_ok _ _ _ (emit (EvCompleteTask w t v) (emit (EvInvoked w t inp) o1)) tt)
      by done.
    simpl. unfold bind, modify. eexists _, done. split; [reflexivity|].
    simpl. rewrite insert_insert_eq.
    repeat split; first [done | by rewrite invoked_plain, invoked_call | by eexists].
  - rewrite (bind_exc _ _ _ _ _ Hrb). eexists _, failed. split; [reflexivity|].
    simpl. rewrite insert_insert_eq.
    repeat split; first [done | by rewrite invoked_plain, invoked_call | by eexists].
Qed.

Lemma visualize_loop_static (ids : list string) (o : Orchestrator) :
  (∀ t, t ∈ ids → ∃ s, task_status o !! (w, t) = Some s
                       ∧ (s ≠ pending → is_Some (execution_history o !! (w, t)))) →
  for_each ids (λ t_id,
    s <- the_status (w, t_id) ;;
    if negb (bool_decide (s = pending))
    then (λ o, (getitem (execution_history o !! (w, t_id)) (key_repr (w, t_id)), o))
         ;;; ret tt
    else ret tt) o = (Ok tt, o).
Proof.
  induction ids as [|t ids IH]; intros H; [done|]. simpl.
  destruct (H t) as (s & Hs & Hh); [left|].
  unfold bind at 1. unfold bind at 1, the_status. rewrite Hs. simpl.
  destruct (decide (s = pending)) as [->|Hn].
  - simpl. apply IH. intros t' Ht'. apply H. by right.
  - rewrite bool_decide_eq_false_2 by done. simpl. unfold bind at 1.
    destruct (Hh Hn) as [n ->]. simpl. apply IH. intros t' Ht'. apply H. by right.
Qed.

Lemma visualize_static (o : Orchestrator) :
  Resting w wf tr0 o →
  ∃ n, visualize w o = (Ok tt, put_visualization_counter w n o).
Proof.
  intros [Hw [n Hn] Hs _ _]. exists (n + 1)%Z.
  unfold visualize, bind at 1, gets. rewrite Hw.
  rewrite (bind_ok _ _ o o tt).
  - unfold bind. by rewrite Hn.
  - apply visualize_loop_static. intros t Ht.
    destruct (Hs t Ht) as (s & ? & _ & ?). by exists s.
Qed.

Lemma ended_app (tr1 tr2 : list event) : ended (tr1 ++ tr2) = ended tr1 ++ ended tr2.
Proof. apply omap_app. Qed.

Lemma Resting_dispatch (t : string) (inp : value) (s : status) (ev : event)
    (o o' : Orchestrator) :
  Resting w wf tr0 o → is_Some (execution_history o !! (w, t)) →
  all_terminal o w (preds (edges wf) t) → terminal s = true →
  workflows o' = workflows o → visualization_counter o' = visualization_counter o →
  execution_history o' = execution_history o →
  task_status o' = <[(w, t) := s]> (task_status o) →
  invoked (trace o') = (w, t) :: invoked (trace o) →
  trace o' = ev :: EvInvoked w t inp :: trace o → ended [ev] = [(w, t)] →
  Resting w wf tr0 o'.
Proof using Hclosed.
  intros [Hw Hc Hs Hi (new & Hnew & Hord & Hend)] Hh Hready Hterm Ew Ec Eh Es Et
    Etr Hev.
  split; [by rewrite Ew|by rewrite Ec| | |].
  - intros t' Ht'. rewrite Es, Eh. destruct (decide (t' = t)) as [->|Hne].
    + exists s. rewrite lookup_insert_eq. split; [done|]. by destruct s.
    + rewrite lookup_insert_ne by congruence. by apply Hs.
  - intros t' s' Ht'. rewrite Es, Et. destruct (decide (t' = t)) as [->|Hne].
    + intros _ _. left.
    + rewrite lookup_insert_ne by congruence. intros Hs' Hnp. right.
      by apply (Hi t' s').
  - exists (ev :: EvInvoked w t inp :: new). split; [by rewrite Etr, Hnew|].
    split.
    + simpl. split; [by destruct ev|]. split; [|done].
      intros _ p Hp. destruct (Hclosed p t Hp) as [Hpk _].
      destruct (Hready p) as (sp & Hsp & Hspt); [by apply elem_of_preds|].
      apply (Hend p sp Hpk Hsp). by destruct sp.
    + intros t' s' Ht'. rewrite Es.
      change (ev :: EvInvoked w t inp :: new)
        with ([ev] ++ EvInvoked w t inp :: new).
      rewrite ended_app, Hev. simpl. destruct (decide (t' = t)) as [->|Hne].
      * intros _ _. left.
      * rewrite lookup_insert_ne by congruence. intros Hs' Hnp. right.
        by apply (Hend t' s').
Qed.

(** One turn of the drain loop: the dispatch of a ready entry. *)
Lemma dispatch_entry (x : string * value) (o : Orchestrator) :
  Resting w wf tr0 o → entry_ready w wf o x →
  ∃ o', spawn_parallel w x.1 x.2 o = (Ok tt, o') ∧ Resting w wf tr0 o'
    ∧ ready_queue o' = ready_queue o
    ∧ execution_history o' = execution_history o
    ∧ (∃ s, task_status o' !! (w, x.1) = Some s ∧ terminal s = true)
    ∧ (∀ t s, task_status o !! (w, t) = Some s → terminal s = true →
              task_status o' !! (w, t) = Some s)
    ∧ (∀ t, task_status o' !! (w, t) = Some pending →
            task_status o !! (w, t) = Some pending).
Proof using Hstatic Hclosed.
  intros HR [Hin Hh]. destruct (rs_status _ _ _ _ HR _ Hin) as (s & Hs & Hnr & _).
  destruct (decide (s = pending)) as [->|Hnp].
  - destruct (dispatch_static x.1 x.2 o HR Hin Hs)
      as (o' & s' & Hd & Hterm & Ew & Ec & Eh & Eq & Es & Et & ev & Etr & Hev).
    destruct (Hh Hs) as [Hhist Hready].
    exists o'. split; [done|].
    split; [by apply (Resting_dispatch x.1 x.2 s' ev o o' HR Hhist Hready)|].
    split; [done|]. split; [done|]. rewrite Es. split; [|split].
    + exists s'. by rewrite lookup_insert_eq.
    + intros t s0 Hs0 Ht0. rewrite lookup_insert_ne; [done|].
      intros [= <-]. rewrite Hs in Hs0. by injection Hs0 as <-.
    + intros t Hp. destruct (decide (x.1 = t)) as [<-|Hne]; [done|].
      by rewrite lookup_insert_ne in Hp by congruence.
  - exists o. split; [by apply (spawn_parallel_skips w x.1 x.2 s)|].
    split; [done|]. split; [done|]. split; [done|]. split; [|done].
    exists s. split; [done|]. by destruct s.
Qed.

Lemma drain_static (q : list (string * value)) :
  ∀ fuel o,
    Resting w wf tr0 o → ready_queue o !! w = Some q →
    Forall (entry_ready w wf o) q → length q ≤ fuel →
    ∃ o', drain fuel w o = (Ok tt, o') ∧ Resting w wf tr0 o'
      ∧ ready_queue o' !! w = Some []
      ∧ (∀ t, t ∈ q.*1 → ∃ s, task_status o' !! (w, t) = Some s ∧ terminal s = true)
      ∧ (∀ t s, task_status o !! (w, t) = Some s → terminal s = true →
                task_status o' !! (w, t) = Some s)
      ∧ (∀ t, task_status o' !! (w, t) = Some pending →
              task_status o !! (w, t) = Some pending).
Proof using Hstatic Hclosed.
  induction q as [|[t inp] q IH]; intros fuel o HR Hq Hent Hlen.
  - exists o. split.
    { destruct fuel; simpl;
        by rewrite (bind_ok _ _ o o []) by (unfold the_queue; by rewrite Hq). }
    split; [done|]. split; [done|]. split; [|done].
    intros t Ht. by apply elem_of_nil in Ht.
  - destruct fuel as [|fuel]; [simpl in Hlen; lia|]. simpl in Hlen.
    apply Forall_cons in Hent as [Hx Hent].
    set (o1 := put_queue w q o).
    assert (HR1 : Resting w wf tr0 o1) by (by apply (Resting_frame o o1 HR)).
    destruct (dispatch_entry (t, inp) o1 HR1 Hx)
      as (o2 & Hd & HR2 & Eq2 & Eh2 & Hterm2 & Hkeep2 & Hmono2).
    destruct (visualize_static o2 HR2) as [n Hv].
    set (o3 := put_visualization_counter w n o2) in *.
    assert (HR3 : Resting w wf tr0 o3).
    { apply (Resting_frame o2 o3 HR2); [done| |done|done|done].
      intros _. simpl. by rewrite lookup_insert_eq. }
    destruct (IH fuel o3 HR3) as (o' & Hdr & HR' & Hq' & Hterm' & Hkeep' & Hmono').
    { simpl. rewrite Eq2. simpl. by rewrite lookup_insert_eq. }
    { rewrite Forall_forall in Hent. apply Forall_forall. intros x Hxin.
      destruct (Hent x Hxin) as [Hk Hh]. split; [done|]. intros Hp.
      destruct (Hh (Hmono2 _ Hp)) as [Hhist Hready].
      split; [simpl; by rewrite Eh2|].
      intros p Hpin. destruct (Hready p Hpin) as (sp & Hsp & Hspt).
      exists sp. split; [|done]. simpl. by apply Hkeep2. }
    { lia. }
    exists o'. split.
    { simpl. rewrite (bind_ok _ _ o o ((t, inp) :: q))
        by (unfold the_queue; by rewrite Hq).
      rewrite (bind_ok _ _ o o1 tt) by done.
      rewrite (bind_ok _ _ _ _ _ Hd). rewrite (bind_ok _ _ _ _ _ Hv). exact Hdr. }
    split; [done|]. split; [done|]. split; [|split].
    + intros t0 [->|Ht0]%elem_of_cons; [|by apply Hterm'].
      destruct Hterm2 as (s & Hs & Hts). exists s. split; [|done].
      by apply Hkeep'.
    + intros t0 s Hs Hts. apply Hkeep'; [|done]. by apply (Hkeep2 t0 s).
    + intros t0 Hp. apply (Hmono2 t0). by apply Hmono'.
Qed.

Lemma scan_preds_total (o : Orchestrator) (ps : list string) (ins : list value)
    (ad : bool) :
  (∀ p, p ∈ ps → is_Some (task_status o !! (w, p))) →
  ∃ r, scan_preds o w ps ins ad = Ok r.
Proof.
  revert ins ad. induction ps as [|p ps IH]; intros ins ad H; simpl; [eauto|].
  destruct (H p) as [s ->]; [left|]. simpl. apply IH. intros p' Hp'. apply H. by right.
Qed.

Lemma discover_total (o : Orchestrator) (ids : list string)
    (acc : list (string * value)) :
  Resting w wf tr0 o → ids ⊆ dict_keys (tasks wf) →
  ∃ l, discover o w (rev_of (edges wf)) ids acc = Ok l.
Proof using Hclosed.
  intros HR. revert acc. induction ids as [|t ids IH]; intros acc Hsub; simpl; [eauto|].
  destruct (rs_status _ _ _ _ HR t) as (s & Hs & _); [apply Hsub; left|].
  rewrite Hs. simpl.
  assert (Hrest : ids ⊆ dict_keys (tasks wf)) by (intros x Hx; apply Hsub; by right).
  destruct (bool_decide (s = pending)); [|by apply IH].
  destruct (scan_preds_total o (default [] (rev_of (edges wf) !! t)) [] true) as [r ->].
  - intros p Hp. rewrite rev_of_default in Hp. apply elem_of_preds in Hp.
    destruct (Hclosed p t Hp) as [Hpk _].
    destruct (rs_status _ _ _ _ HR p Hpk) as (sp & -> & _). eauto.
  - simpl. by apply IH.
Qed.

(** The loop of [run_helper] that queues the newly unblocked tasks. *)
Lemma enqueue_loop (l : list (string * value)) (step : Z) :
  ∀ q o, ready_queue o !! w = Some q →
    ∃ o', for_each l (λ x, enqueue w (x.1, x.2) ;;;
                           modify (put_step (w, x.1) step)) o = (Ok tt, o')
      ∧ ready_queue o' !! w = Some (q ++ l)
      ∧ workflows o' = workflows o
      ∧ visualization_counter o' = visualization_counter o
      ∧ task_status o' = task_status o
      ∧ trace o' = trace o
      ∧ (∀ key, is_Some (execution_history o !! key) →
                is_Some (execution_history o' !! key))
      ∧ (∀ x, x ∈ l → is_Some (execution_history o' !! (w, x.1))).
Proof.
  induction l as [|[t inp] l IH]; intros q o Hq.
  - exists o. rewrite app_nil_r. repeat split; try done.
    intros x Hx. by apply elem_of_nil in Hx.
  - set (o1 := put_step (w, t) step (put_queue w (q ++ [(t, inp)]) o)).
    destruct (IH (q ++ [(t, inp)]) o1)
      as (o' & Hl & Hq' & Ew & Ec & Es & Et & Eh & Hnew).
    { simpl. by rewrite lookup_insert_eq. }
    exists o'. split.
    { simpl. rewrite (bind_ok _ _ o o1 tt); [done|].
      by rewrite (bind_ok _ _ _ _ _ (enqueue_run w (t, inp) q o Hq)). }
    rewrite <- app_assoc in Hq'. split; [done|]. do 4 (split; [done|]). split.
    + intros key Hk. apply Eh. simpl. by apply insert_keeps.
    + intros x [->|Hx]%elem_of_cons; [|by apply Hnew].
      apply Eh. simpl. by rewrite lookup_insert_eq.
Qed.

Lemma run_helper_static (fuel : nat) (q : list (string * value)) (o : Orchestrator) :
  Resting w wf tr0 o → dict_keys (tasks wf) ≠ [] → ready_queue o !! w = Some q →
  Forall (entry_seeded w wf o) q → length q + length (dict_keys (tasks wf)) ≤ fuel →
  ∃ o', run_helper fuel w o = (Ok tt, o') ∧ Resting w wf tr0 o'
    ∧ ready_queue o' !! w = Some []
    ∧ (∀ t, t ∈ dict_keys (tasks wf) → task_status o !! (w, t) = Some pending →
            all_terminal o w (preds (edges wf) t) →
            ∃ s, task_status o' !! (w, t) = Some s ∧ terminal s = true)
    ∧ (∀ t s, task_status o !! (w, t) = Some s → terminal s = true →
              task_status o' !! (w, t) = Some s)
    ∧ (∀ t, task_status o' !! (w, t) = Some pending →
            task_status o !! (w, t) = Some pending).
Proof using Hstatic Hclosed.
  intros HR Hne Hq Hent Hlen.
  destruct (discover_total o (dict_keys (tasks wf)) [] HR) as [l Hl]; [done|].
  pose proof (discover_ok _ _ _ _ _ _ Hl) as Hmem.
  pose proof (discover_extends _ _ _ _ _ _ Hl) as (l' & Hl' & Hsub).
  simpl in Hl'. subst l'. apply sublist_length in Hsub. rewrite length_fmap in Hsub.
  assert (Hstep : ∃ step, current_step_of o w (dict_keys (tasks wf)) = Ok step).
  { unfold current_step_of. destruct (dict_keys (tasks wf)); [done|eauto]. }
  destruct Hstep as [step Hstep].
  destruct (enqueue_loop l step q o Hq)
    as (o1 & Hloop & Hq1 & Ew & Ec & Es & Et & Eh & Hnew).
  assert (HR1 : Resting w wf tr0 o1).
  { apply (Resting_frame o o1 HR); [done|by rewrite Ec|done|done|done]. }
  destruct (drain_static (q ++ l) fuel o1 HR1 Hq1)
    as (o' & Hdr & HR' & Hq' & Hterm & Hkeep & Hmono).
  { apply Forall_app. split; apply Forall_forall.
    - rewrite Forall_forall in Hent. intros x Hx.
      destruct (Hent x Hx) as [Hk Hh]. split; [done|]. rewrite Es. intros Hp.
      pose proof (Hh Hp) as Hready. split.
      + apply (Hnew (x.1, assemble o w (preds (edges wf) x.1))).
        apply Hmem. right. by repeat split.
      + intros p Hpin. destruct (Hready p Hpin) as (sp & Hsp & Hspt).
        exists sp. by rewrite Es.
    - intros [t inp] Hx. pose proof (Hnew (t, inp) Hx) as Hhist.
      apply Hmem in Hx as [Hx|(Hk & _ & Hready & _)]; [by apply elem_of_nil in Hx|].
      split; [done|]. intros _. split; [done|].
      intros p Hpin. destruct (Hready p Hpin) as (sp & Hsp & Hspt).
      exists sp. by rewrite Es. }
  { rewrite length_app. lia. }
  exists o'. split.
  { unfold run_helper.
    rewrite (bind_ok _ _ o o wf)
      by (unfold the_workflow; by rewrite (rs_workflow _ _ _ _ HR)).
    rewrite (bind_ok _ _ o o step) by (by rewrite Hstep).
    rewrite (bind_ok _ _ o o l) by (by rewrite Hl).
    by rewrite (bind_ok _ _ _ _ _ Hloop). }
  split; [done|]. split; [done|]. rewrite Es in Hkeep, Hmono.
  split; [|done].
  intros t Hk Hp Hready. apply Hterm.
  apply list_elem_of_fmap. exists (t, assemble o w (preds (edges wf) t)).
  split; [done|]. apply elem_of_app. right. apply Hmem. right. by repeat split.
Qed.

End static_run.


Lemma pending_count_le (o o' : Orchestrator) (w : string) (ids : list string) :
  (∀ t, task_status o' !! (w, t) = Some pending →
        task_status o !! (w, t) = Some pending) →
  pending_count o' w ids ≤ pending_count o w ids.
Proof.
  intros Hmono. unfold pending_count. induction ids as [|t ids IH]; [done|].
  rewrite !filter_cons.
  destruct (decide (task_status o' !! (w, t) = Some pending)) as [Hp|Hp].
  - rewrite decide_True by (by apply Hmono). simpl. lia.
  - destruct (decide (task_status o !! (w, t) = Some pending)); simpl; lia.
Qed.

Lemma pending_count_lt (o o' : Orchestrator) (w t : string) (ids : list string) :
  (∀ t, task_status o' !! (w, t) = Some pending →
        task_status o !! (w, t) = Some pending) →
  t ∈ ids → task_status o !! (w, t) = Some pending →
  task_status o' !! (w, t) ≠ Some pending →
  pending_count o' w ids < pending_count o w ids.
Proof.
  intros Hmono Hin Hp Hnp. induction ids as [|t0 ids IH]; [by apply elem_of_nil in Hin|].
  pose proof (pending_count_le o o' w ids Hmono) as Hle.
  unfold pending_count in *. rewrite !filter_cons.
  destruct (decide (t0 = t)) as [->|Hne].
  - rewrite decide_False by done. rewrite decide_True by done. simpl. lia.
  - apply elem_of_cons in Hin as [->|Hin]; [done|]. specialize (IH Hin).
    destruct (decide (task_status o' !! (w, t0) = Some pending)) as [Hp0|Hp0].
    + rewrite decide_True by (by apply Hmono). simpl. lia.
    + destruct (decide (task_status o !! (w, t0) = Some pending)); simpl; lia.
Qed.

Lemma pending_count_length (o : Orchestrator) (w : string) (ids : list string) :
  pending_count o w ids ≤ length ids.
Proof. unfold pending_count. apply length_filter. Qed.

Lemma read_statuses_total (o : Orchestrator) (w : string) (ids : list string) :
  (∀ t, t ∈ ids → is_Some (task_status o !! (w, t))) →
  ∃ l, read_statuses o w ids = Ok l.
Proof.
  induction ids as [|t ids IH]; intros H; simpl; [eauto|].
  destruct (H t) as [s ->]; [left|]. simpl.
  destruct IH as [l ->]; [intros t' Ht'; apply H; by right|]. simpl. eauto.
Qed.

Lemma statuses_not_all_terminal (o : Orchestrator) (w : string) (ids : list string)
    (l : list status) :
  Forall2 (λ t s, task_status o !! (w, t) = Some s) ids l →
  forallb terminal l = false →
  ∃ t s, t ∈ ids ∧ task_status o !! (w, t) = Some s ∧ terminal s = false.
Proof.
  induction 1 as [|t s ids l Hs _ IH]; simpl; [done|]. intros Hall.
  destruct (terminal s) eqn:Hterm; simpl in Hall.
  - destruct (IH Hall) as (t' & s' & Hin & Hs' & Ht'). exists t', s'.
    split; [by right|done].
  - exists t, s. split; [left|done].
Qed.

Section static_loop.
Context (w : string) (wf : Workflow).
Context (Hstatic : static w wf) (Hclosed : closed wf) (Hacyclic : acyclic (edges wf)).
Context (tr0 : list event).

(** While a task is pending, some pending task has all its predecessors
    done or failed: the edges among the pending tasks have no cycle. *)
Lemma ready_exists (o : Orchestrator) (t : string) :
  Resting w wf tr0 o → t ∈ dict_keys (tasks wf) → task_status o !! (w, t) = Some pending →
  ∃ t', t' ∈ dict_keys (tasks wf) ∧ task_status o !! (w, t') = Some pending
        ∧ all_terminal o w (preds (edges wf) t').
Proof using Hclosed Hacyclic.
  intros HR Hin Hp.
  set (pend := λ x : string, task_status o !! (w, x) = Some pending).
  remember (filter (λ e : string * string, pend e.1 ∧ pend e.2) (edges wf)) as E eqn:HE.
  assert (Hsettled : ∀ c p, (∀ u, (u, c) ∉ E) → pend c → p ∈ preds (edges wf) c →
            ∃ s, task_status o !! (w, p) = Some s ∧ terminal s = true).
  { intros c p Hsrc Hc Hpin. apply elem_of_preds in Hpin.
    destruct (Hclosed p c Hpin) as [Hpk _].
    destruct (rs_status _ _ _ _ HR p Hpk) as (s & Hs & Hnr & _).
    exists s. split; [done|]. destruct s; try done.
    destruct (Hsrc p). rewrite HE. apply list_elem_of_filter. by split. }
  destruct (decide (E = [])) as [Hnil|Hnonnil].
  - exists t. split; [done|]. split; [done|]. intros p Hpin.
    apply (Hsettled t p); [|done|done]. intros u Hu. rewrite Hnil in Hu.
    by apply elem_of_nil in Hu.
  - destruct (acyclic_has_source E) as (e & He & Hsrc); [|done|].
    { apply (acyclic_subseteq _ (edges wf)); [|done].
      intros x Hx. rewrite HE in Hx. by apply list_elem_of_filter in Hx as [_ ?]. }
    pose proof (proj1 (no_incoming_true e.1 E) Hsrc) as Hsrc'.
    assert (He' := He). rewrite HE in He'.
    apply list_elem_of_filter in He' as [[Hp1 _] Hedge].
    exists e.1. split; [by destruct e as [a b0], (Hclosed a b0 Hedge)|].
    split; [done|]. intros p Hpin. by apply (Hsettled e.1 p).
Qed.

Lemma scheduling_loop_static (fuel : nat) :
  ∀ n q o,
    Resting w wf tr0 o → dict_keys (tasks wf) ≠ [] → ready_queue o !! w = Some q →
    Forall (entry_seeded w wf o) q →
    length q + length (dict_keys (tasks wf)) ≤ fuel →
    pending_count o w (dict_keys (tasks wf)) < n →
    ∃ o', scheduling_loop n fuel w o = (Ok tt, o')
          ∧ (∀ t, t ∈ dict_keys (tasks wf) → (w, t) ∈ invoked (trace o'))
          ∧ ∃ new, trace o' = new ++ tr0 ∧ in_order w wf new.
Proof using Hstatic Hclosed Hacyclic.
  induction n as [|n IH]; intros q o HR Hne Hq Hent Hlen Hcount; [lia|].
  destruct (run_helper_static w wf Hstatic Hclosed tr0 fuel q o HR Hne Hq Hent Hlen)
    as (o1 & Hrun & HR1 & Hq1 & Hprog & Hkeep & Hmono).
  destruct (read_statuses_total o1 w (dict_keys (tasks wf))) as [l Hl].
  { intros t Ht. destruct (rs_status _ _ _ _ HR1 t Ht) as (s & -> & _). eauto. }
  simpl. rewrite (bind_ok _ _ _ _ _ Hrun).
  rewrite (bind_ok _ _ o1 o1 wf)
    by (unfold the_workflow; by rewrite (rs_workflow _ _ _ _ HR1)).
  rewrite (bind_ok _ _ o1 o1 l) by (by rewrite <- Hl).
  apply read_statuses_ok in Hl.
  destruct (forallb terminal l) eqn:Hall.
  { eexists. split; [reflexivity|]. split.
    - intros t Ht. simpl. rewrite invoked_plain by done.
      destruct (statuses_all_terminal o1 w _ l Hl Hall t Ht) as (s & Hs & Hterm).
      apply (rs_invoked _ _ _ _ HR1 t s Ht Hs). by destruct s.
    - destruct (rs_trace _ _ _ _ HR1) as (new & Hnew & Hord & _).
      exists (EvAllTerminal w :: new). simpl. by rewrite Hnew. }
  destruct (statuses_not_all_terminal o1 w _ l Hl Hall) as (t & s & Hin & Hs & Hterm).
  destruct (rs_status _ _ _ _ HR1 t Hin) as (s' & Hs' & Hnr & _).
  assert (s' = s) as -> by congruence.
  assert (Hp1 : task_status o1 !! (w, t) = Some pending) by (by destruct s).
  destruct (ready_exists o t HR Hin (Hmono t Hp1)) as (t' & Hin' & Hp' & Hready).
  destruct (Hprog t' Hin' Hp' Hready) as (s' & Hs1 & Hterm1).
  apply (IH [] o1); [done|done|done|by apply Forall_nil|simpl; lia|].
  assert (pending_count o1 w (dict_keys (tasks wf))
          < pending_count o w (dict_keys (tasks wf))); [|lia].
  apply (pending_count_lt o o1 w t'); [done|done|done|].
  rewrite Hs1. intros [= ->]. done.
Qed.

Lemma seed_loop_static (inp : gmap string value) (ids : list string) :
  ∀ q o, ready_queue o !! w = Some q →
    ∃ o' seeds,
      for_each ids (λ t_id,
        if negb (bool_decide (is_Some (rev_of (edges wf) !! t_id)))
        then enqueue w (t_id, default (VList []) (inp !! t_id))
        else ret tt) o = (Ok tt, o')
      ∧ ready_queue o' !! w = Some (q ++ seeds)
      ∧ length seeds ≤ length ids
      ∧ Forall (λ x, x.1 ∈ ids ∧ rev_of (edges wf) !! x.1 = None) seeds
      ∧ workflows o' = workflows o
      ∧ visualization_counter o' = visualization_counter o
      ∧ task_status o' = task_status o
      ∧ execution_history o' = execution_history o
      ∧ trace o' = trace o.
Proof.
  induction ids as [|t ids IH]; intros q o Hq.
  - exists o, []. rewrite app_nil_r. by repeat split.
  - destruct (rev_of (edges wf) !! t) as [ps|] eqn:Hrev.
    + destruct (IH q o Hq) as (o' & seeds & Hl & Hq' & Hlen & Hall & Hrest).
      exists o', seeds. split.
      { simpl. rewrite Hrev. rewrite bool_decide_eq_true_2 by eauto. simpl.
        by rewrite (bind_ok _ _ o o tt). }
      split; [done|]. split; [simpl; lia|]. split; [|done].
      eapply Forall_impl; [exact Hall|]. intros x [? ?]. split; [by right|done].
    + destruct (IH (q ++ [(t, default (VList []) (inp !! t))])
                  (put_queue w (q ++ [(t, default (VList []) (inp !! t))]) o))
        as (o' & seeds & Hl & Hq' & Hlen & Hall & Hrest).
      { simpl. by rewrite lookup_insert_eq. }
      exists o', ((t, default (VList []) (inp !! t)) :: seeds). split.
      { simpl. rewrite Hrev.
        rewrite bool_decide_eq_false_2 by (by intros [? ?]). simpl.
        by rewrite (bind_ok _ _ _ _ _ (enqueue_run w _ q o Hq)). }
      rewrite <- app_assoc in Hq'. split; [done|]. split; [simpl; lia|].
      split; [|done]. constructor; [split; [left|done]|].
      eapply Forall_impl; [exact Hall|]. intros x [? ?]. split; [by right|done].
Qed.

End static_loop.

(** X16. [run_workflow] terminates on a workflow that does not grow. Let a
    workflow with at least one task be registered, with every task
    pending, an empty queue and no loop running; let no body of it call
    [spawn_task] or [complete_task] (a body may query statuses, return and
    raise), let the endpoints of its edges be tasks, and let the edges
    have no cycle. Then [run_workflow] returns, with every task done
    or failed, the body of every task called, and each body called only
    after the runner had finished with every predecessor of its task:
    each pass of the loop dispatches every pending task whose predecessors
    are all done or failed, there is such a task as long as one is
    pending, and no dictionary read fails. In the model this is: any fuel
    of at least twice the number of tasks is enough. *)
Theorem static_run_returns (fuel : nat) (w : string) (wf : Workflow)
    (inp : gmap string value) (o : Orchestrator) :
  workflows o !! w = Some wf → static w wf → closed wf → acyclic (edges wf) →
  tasks wf ≠ [] →
  (∀ t, t ∈ dict_keys (tasks wf) → task_status o !! (w, t) = Some pending) →
  ready_queue o !! w = Some [] → running_loops o !! w = Some false →
  is_Some (visualization_counter o !! w) →
  2 * length (tasks wf) ≤ fuel →
  ∃ o', run_workflow fuel w inp o = (Ok tt, o') ∧ all_tasks_terminal o' w
        ∧ (∀ t, t ∈ dict_keys (tasks wf) → (w, t) ∈ invoked (trace o'))
        ∧ ∃ new, trace o' = new ++ trace o ∧ in_order w wf new.
Proof.
  intros Hwf Hstatic Hclosed Hacyclic Hne Hpend Hq Hrun Hcnt Hfuel.
  assert (Hlen : length (dict_keys (tasks wf)) = length (tasks wf))
    by apply length_fmap.
  assert (Hkeys : dict_keys (tasks wf) ≠ []).
  { intros Hk. apply Hne. apply length_zero_iff_nil. rewrite <- Hlen, Hk. done. }
  assert (0 < length (tasks wf)).
  { destruct (tasks wf); [done|simpl; lia]. }
  set (o1 := put_running w true o).
  destruct (seed_loop_static w wf inp (dict_keys (tasks wf)) [] o1)
    as (o2 & seeds & Hseed & Hq2 & Hslen & Hseeds & Ew & Ec & Es & Eh & Et).
  { done. }
  assert (HR2 : Resting w wf (trace o) o2).
  { split; [by rewrite Ew|by rewrite Ec| | |].
    - intros t Ht. exists pending. rewrite Es. split; [by apply Hpend|]. done.
    - intros t s Ht. rewrite Es. simpl. rewrite (Hpend t Ht). by intros [= <-].
    - exists []. split; [by rewrite Et|]. split; [done|].
      intros t s Ht. rewrite Es. simpl. rewrite (Hpend t Ht). by intros [= <-]. }
  destruct (scheduling_loop_static w wf Hstatic Hclosed Hacyclic (trace o) fuel fuel
              seeds o2 HR2 Hkeys Hq2) as (o3 & Hloop & Hinv & Hord).
  { eapply Forall_impl; [exact Hseeds|]. intros x [Hin Hroot]. split; [done|].
    intros _. intros p Hp. apply elem_of_preds in Hp.
    by destruct (proj1 (rev_of_None (edges wf) x.1) Hroot p). }
  { lia. }
  { pose proof (pending_count_length o2 w (dict_keys (tasks wf))). lia. }
  exists (put_running w false o3). split.
  - unfold run_workflow.
    rewrite (bind_ok _ _ o o true)
      by (unfold gets; by rewrite Hwf, bool_decide_eq_true_2).
    simpl. rewrite (bind_ok _ _ o o false) by (by rewrite Hrun).
    rewrite (bind_ok _ _ o o1 tt) by done.
    rewrite (bind_ok _ _ o1 o1 wf) by (unfold the_workflow; simpl; by rewrite Hwf).
    unfold seed_roots. rewrite (bind_ok _ _ _ _ _ Hseed).
    by rewrite (bind_ok _ _ _ _ _ Hloop).
  - split; [|by split].
    apply scheduling_loop_ok in Hloop as (wf' & Hwf' & Hall). by exists wf'.
Qed.

(** X16, witness: the run of [A → B → C], where the body of [B] raises:
    [A] ends done, [B] failed, and [C], whose only predecessor failed, is
    dispatched all the same and ends done. *)
Lemma static_run_returns_witness :
  (∃ o', run_workflow 6 "wf" ∅ static_start = (Ok tt, o')
         ∧ all_tasks_terminal o' "wf"
         ∧ (∀ t, t ∈ dict_keys (tasks static_wf) → ("wf", t) ∈ invoked (trace o'))
         ∧ ∃ new, trace o' = new ++ trace static_start ∧ in_order "wf" static_wf new)
  ∧ (λ o', [task_status o' !! ("wf", "A"); task_status o' !! ("wf", "B");
            task_status o' !! ("wf", "C")])
      (run_workflow 6 "wf" ∅ static_start).2
    = [Some done; Some failed; Some done].
Proof.
  split; [|vm_compute; reflexivity].
  apply (static_run_returns 6 "wf" static_wf).
  - vm_compute. reflexivity.
  - intros t task inp Hget. simpl in Hget.
    repeat (destruct (String.eqb t _); [injection Hget as <-; exact I|]). done.
  - intros p c Hin. apply elem_of_cons in Hin as [[= -> ->]|Hin].
    { split; [left|right; left]. }
    apply elem_of_cons in Hin as [[= -> ->]|Hin].
    { split; [right; left|right; right; left]. }
    by apply elem_of_nil in Hin.
  - apply (dag_sound ["A"; "B"; "C"]). vm_compute. reflexivity.
  - done.
  - intros t Ht. repeat (apply elem_of_cons in Ht as [->|Ht]; [vm_compute; reflexivity|]).
    by apply elem_of_nil in Ht.
  - vm_compute. reflexivity.
  - vm_compute. reflexivity.
  - exists 1%Z. vm_compute. reflexivity.
  - simpl. lia.
Defined.


(** ** A spawn that fails after the insertion *)


Section midway.
Context (w creator : string) (t : Task) (es : option (list (string * string))).
Context (wf : Workflow) (c : Z) (o : Orchestrator).
Context (Hq : is_Some (ready_queue o !! w)).
Context (Hst : ∀ t', t' ∈ dict_keys (tasks wf) → is_Some (task_status o !! (w, t'))).
Context (Hcreator : creator ∈ dict_keys (tasks wf)).
Context (Hfresh : task_id t ∉ dict_keys (tasks wf)).







End midway.




(** ** A run that cannot progress *)

Lemma discover_none_ready (o : Orchestrator) (w : string) (wf : Workflow)
    (ids : list string) (acc : list (string * value)) :
  closed wf →
  (∀ t, t ∈ dict_keys (tasks wf) → task_status o !! (w, t) = Some pending) →
  (∀ t, t ∈ ids → t ∈ dict_keys (tasks wf) ∧ ∃ p, (p, t) ∈ edges wf) →
  discover o w (rev_of (edges wf)) ids acc = Ok acc.
Proof.
  intros Hclosed Hpend. induction ids as [|t ids IH]; intros Hids; simpl; [done|].
  destruct (Hids t) as [Hin [p Hp]]; [left|].
  rewrite (Hpend t Hin). simpl. rewrite rev_of_default.
  destruct (scan_preds o w (preds (edges wf) t) [] true) as [[ins ad]|e] eqn:Hscan.
  - simpl. apply scan_preds_ok in Hscan as [_ Had]. destruct ad.
    + destruct (proj1 Had eq_refl) as [_ Hall].
      destruct (Hall p) as (s & Hs & Hterm); [by apply elem_of_preds|].
      destruct (Hclosed p t Hp) as [Hpk _]. rewrite (Hpend p Hpk) in Hs.
      by injection Hs as <-.
    + apply IH. intros t' Ht'. apply Hids. by right.
  - exfalso.
    assert (Htot : ∀ ps ins ad, (∀ q, q ∈ ps → q ∈ dict_keys (tasks wf)) →
                     ∃ r, scan_preds o w ps ins ad = Ok r).
    { induction ps as [|q ps IHps]; intros ins ad Hps; simpl; [eauto|].
      rewrite (Hpend q) by (apply Hps; left). simpl. apply IHps.
      intros q' Hq'. apply Hps. by right. }
    destruct (Htot (preds (edges wf) t) [] true) as [r Hr]; [|congruence].
    intros q Hq. apply elem_of_preds in Hq. by destruct (Hclosed q t Hq).
Qed.

Lemma seed_loop_none (w : string) (wf : Workflow) (inp : gmap string value)
    (ids : list string) (o : Orchestrator) :
  (∀ t, t ∈ ids → ∃ p, (p, t) ∈ edges wf) →
  for_each ids (λ t_id,
    if negb (bool_decide (is_Some (rev_of (edges wf) !! t_id)))
    then enqueue w (t_id, default (VList []) (inp !! t_id))
    else ret tt) o = (Ok tt, o).
Proof.
  induction ids as [|t ids IH]; intros H; [done|]. simpl.
  destruct (H t) as [p Hp]; [left|].
  rewrite bool_decide_eq_true_2.
  - simpl. rewrite (bind_ok _ _ o o tt) by done. apply IH.
    intros t' Ht'. apply H. by right.
  - destruct (rev_of (edges wf) !! t) eqn:Hrev; [eauto|].
    by destruct (proj1 (rev_of_None (edges wf) t) Hrev p).
Qed.

(** X18. [register_workflow] accepts any workflow, and [run_workflow]
    never returns on one in which nothing can start. Let every task of a
    registered workflow be pending and have an incoming edge from a task
    of the workflow, as in a workflow left cyclic by a failed [add_task];
    let the queue be empty and no loop running. Then no task is ever
    ready, every pass of the loop of [run_workflow] finds the state as it
    was, and the loop goes on for ever: in the model, the run is out of
    fuel whatever the fuel, with only the running flag set. *)
Theorem stuck_run_never_returns (fuel : nat) (w : string) (wf : Workflow)
    (inp : gmap string value) (o : Orchestrator) :
  workflows o !! w = Some wf → closed wf → tasks wf ≠ [] →
  (∀ t, t ∈ dict_keys (tasks wf) →
        task_status o !! (w, t) = Some pending ∧ ∃ p, (p, t) ∈ edges wf) →
  ready_queue o !! w = Some [] → running_loops o !! w = Some false →
  run_workflow fuel w inp o = (Exc OutOfFuel, put_running w true o).
Proof.
  intros Hwf Hclosed Hne Hstuck Hq Hrun.
  set (o1 := put_running w true o).
  assert (Hpend : ∀ t, t ∈ dict_keys (tasks wf) → task_status o1 !! (w, t) = Some pending)
    by (intros t Ht; by destruct (Hstuck t Ht)).
  assert (Hhelper : ∀ f, run_helper f w o1 = (Ok tt, o1)).
  { intros f. unfold run_helper.
    rewrite (bind_ok _ _ o1 o1 wf) by (unfold the_workflow; simpl; by rewrite Hwf).
    assert (∃ step, current_step_of o1 w (dict_keys (tasks wf)) = Ok step) as [step Hs].
    { unfold current_step_of, dict_keys. destruct (tasks wf); [done|]. simpl. eauto. }
    rewrite (bind_ok _ _ o1 o1 step) by (by rewrite Hs).
    rewrite (bind_ok _ _ o1 o1 []).
    - simpl. rewrite (bind_ok _ _ o1 o1 tt) by done.
      destruct f; simpl;
        by rewrite (bind_ok _ _ o1 o1 []) by (unfold the_queue; simpl; by rewrite Hq).
    - rewrite (discover_none_ready o1 w wf _ [] Hclosed Hpend); [done|].
      intros t Ht. split; [done|]. by destruct (Hstuck t Ht). }
  assert (Hloop : ∀ n, scheduling_loop n fuel w o1 = (Exc OutOfFuel, o1)).
  { induction n as [|n IH]; [done|]. simpl.
    rewrite (bind_ok _ _ _ _ _ (Hhelper fuel)).
    rewrite (bind_ok _ _ o1 o1 wf) by (unfold the_workflow; simpl; by rewrite Hwf).
    destruct (read_statuses_total o1 w (dict_keys (tasks wf))) as [l Hl].
    { intros t Ht. rewrite (Hpend t Ht). eauto. }
    rewrite (bind_ok _ _ o1 o1 l) by (by rewrite <- Hl).
    destruct (forallb terminal l) eqn:Hall; [|exact IH].
    exfalso. apply read_statuses_ok in Hl.
    destruct (dict_keys (tasks wf)) as [|t ids] eqn:Hk.
    { apply Hne. unfold dict_keys in Hk. by apply fmap_nil_inv in Hk. }
    destruct (statuses_all_terminal o1 w _ l Hl Hall t) as (s & Hs & Hterm); [left|].
    rewrite Hpend in Hs by left. by injection Hs as <-. }
  unfold run_workflow.
  rewrite (bind_ok _ _ o o true)
    by (unfold gets; by rewrite Hwf, bool_decide_eq_true_2).
  simpl. rewrite (bind_ok _ _ o o false) by (by rewrite Hrun).
  rewrite (bind_ok _ _ o o1 tt) by done.
  rewrite (bind_ok _ _ o1 o1 wf) by (unfold the_workflow; simpl; by rewrite Hwf).
  unfold seed_roots. rewrite (bind_ok _ _ o1 o1 tt).
  - by rewrite (bind_exc _ _ _ _ _ (Hloop fuel)).
  - apply seed_loop_none. intros t Ht. by destruct (Hstuck t Ht).
Qed.

(** X18, witness: the workflow that the failed self-dependency left, once
    registered, cannot be run to an end. *)
Lemma stuck_run_never_returns_witness :
  register_workflow self_loop_wf Orchestrator_init = (Ok tt, self_loop_start)
  ∧ run_workflow 7 "wf" ∅ self_loop_start
    = (Exc OutOfFuel, put_running "wf" true self_loop_start).
Proof.
  split; [vm_compute; reflexivity|].
  apply (stuck_run_never_returns 7 "wf" self_loop_wf).
  - vm_compute. reflexivity.
  - intros p c Hin.
    replace (edges self_loop_wf) with [("T", "T")] in Hin by (vm_compute; reflexivity).
    replace (dict_keys (tasks self_loop_wf)) with ["T"] by (vm_compute; reflexivity).
    apply list_elem_of_singleton in Hin as [= -> ->]. split; left.
  - discriminate.
  - intros t Ht.
    replace (dict_keys (tasks self_loop_wf)) with ["T"] in Ht by (vm_compute; reflexivity).
    apply list_elem_of_singleton in Ht as ->. split; [vm_compute; reflexivity|].
    exists "T". replace (edges self_loop_wf) with [("T", "T")] by (vm_compute; reflexivity).
    left.
  - vm_compute. reflexivity.
  - vm_compute. reflexivity.
Defined.
